(** * Megaproblem editor: the document interpretation pipeline

    A shallow embedding of [src/utils/problemParser.ts] (with the types of
    [src/types/problem.ts]): [parseProblem], [formatXmlPreserveInline],
    [countQuestions] and [validateProblem].

    - Strings are sequences of code units; the development works with code
      units below 256 ([ascii]), on which the white space of
      [String.prototype.trim] is 9-13, 32 and 160.
    - The DOM is an inductive tree of text, CDATA, comment and element
      nodes, with the accessors the program calls ([textContent],
      [innerHTML], [getAttribute], [querySelector], [children], ...).
    - The browser's [DOMParser] is a parameter (the class [DOMParser]):
      the properties of the parser and of the validator hold for any
      implementation.  Where the formatter is composed with a parser, the
      parser must read the formatter's output as XML 1.0 prescribes:
      [conforms] says so, by reference to [xmlParser], a recursive-descent
      parser for the XML fragment of the editor's documents, which also
      serves to run the functions on text.
    - A call that may throw returns a [result]. *)

From Stdlib Require Import List Ascii String Bool Arith ZArith Lia.
From Stdlib Require Import DecimalString DecimalNat Sorted.
Import ListNotations.

Set Implicit Arguments.
Set Warnings "-register-all".

(* ================================================================= *)
(** ** Strings *)

Definition str := list ascii.

Definition lit (s : string) : str := list_ascii_of_string s.
Arguments lit s%_string.

Fixpoint str_eqb (a b : str) : bool :=
  match a, b with
  | [], [] => true
  | x :: a', y :: b' => Ascii.eqb x y && str_eqb a' b'
  | _, _ => false
  end.

(** A JS string is truthy when it is not empty. *)
Definition truthy (s : str) : bool :=
  match s with [] => false | _ :: _ => true end.

(** [x || d] on an optional string: [null] and [''] both give [d]. *)
Definition or_else (x : option str) (d : str) : str :=
  match x with
  | Some s => if truthy s then s else d
  | None => d
  end.

(** White space of [trim]: TAB, LF, VT, FF, CR, SP and NBSP. *)
Definition is_js_space (c : ascii) : bool :=
  let n := nat_of_ascii c in
  ((9 <=? n) && (n <=? 13)) || (n =? 32) || (n =? 160).

Fixpoint trimStart (s : str) : str :=
  match s with
  | [] => []
  | c :: s' => if is_js_space c then trimStart s' else s
  end.

Definition trimEnd (s : str) : str := rev (trimStart (rev s)).

Definition trim (s : str) : str := trimEnd (trimStart s).

Definition lower_char (c : ascii) : ascii :=
  let n := nat_of_ascii c in
  if ((65 <=? n) && (n <=? 90))
     || ((192 <=? n) && (n <=? 222) && negb (n =? 215))
  then ascii_of_nat (n + 32) else c.

Definition toLowerCase (s : str) : str := map lower_char s.

Fixpoint repeat_str (s : str) (n : nat) : str :=
  match n with
  | 0 => []
  | S n' => s ++ repeat_str s n'
  end.

(** [texts.join(sep)] *)
Fixpoint join (sep : str) (l : list str) : str :=
  match l with
  | [] => []
  | [x] => x
  | x :: l' => x ++ sep ++ join sep l'
  end.

(** The decimal numeral a template literal prints for a counter. *)
Definition string_of_nat (n : nat) : str :=
  lit (NilEmpty.string_of_uint (Nat.to_uint n)).

Definition LF : ascii := ascii_of_nat 10.
Definition DQ : ascii := ascii_of_nat 34.

(* ================================================================= *)
(** ** The DOM tree *)

(** The node kinds an XML document of this editor contains.  [nodeType]
    is 1 for elements, 3 for text, 4 for CDATA sections and 8 for
    comments. *)
Inductive Node : Type :=
| TextNode (data : str)
| CDataNode (data : str)
| CommentNode (data : str)
| ElementNode (tagName : str) (attributes : list (str * str))
              (childNodes : list Node).

Record Document : Type := { documentElement : Node }.

(** The platform's parser, [new DOMParser().parseFromString(s, 'text/xml')].
    It always returns a document; for input that is not well-formed the
    document holds a [parsererror] element with the diagnostic. *)
Class DOMParser : Type := parseFromString : str -> Document.

Definition ELEMENT_NODE := 1.
Definition TEXT_NODE := 3.
Definition CDATA_SECTION_NODE := 4.
Definition COMMENT_NODE := 8.

Definition nodeType (n : Node) : nat :=
  match n with
  | TextNode _ => TEXT_NODE
  | CDataNode _ => CDATA_SECTION_NODE
  | CommentNode _ => COMMENT_NODE
  | ElementNode _ _ _ => ELEMENT_NODE
  end.

Definition isElement (n : Node) : bool := nodeType n =? ELEMENT_NODE.

Definition tagName (n : Node) : str :=
  match n with ElementNode t _ _ => t | _ => [] end.

Definition attributes (n : Node) : list (str * str) :=
  match n with ElementNode _ a _ => a | _ => [] end.

Definition childNodes (n : Node) : list Node :=
  match n with ElementNode _ _ k => k | _ => [] end.

(** [el.children]: the element children only. *)
Definition children (n : Node) : list Node := filter isElement (childNodes n).

(** Text of the descendants: text and CDATA data in document order,
    comments left out. *)
Fixpoint descendantText (n : Node) : str :=
  match n with
  | TextNode d => d
  | CDataNode d => d
  | CommentNode _ => []
  | ElementNode _ _ kids => flat_map descendantText kids
  end.

(** [node.textContent]; a comment's own text content is its data. *)
Definition textContent (n : Node) : str :=
  match n with
  | CommentNode d => d
  | _ => descendantText n
  end.

Fixpoint lookup_attr (name : str) (l : list (str * str)) : option str :=
  match l with
  | [] => None
  | (k, v) :: l' => if str_eqb k name then Some v else lookup_attr name l'
  end.

(** [el.getAttribute(name)]: [null] when the attribute is absent. *)
Definition getAttribute (el : Node) (name : str) : option str :=
  lookup_attr name (attributes el).

(** The element descendants of a node in document order. *)
Fixpoint descendants (n : Node) : list Node :=
  match n with
  | ElementNode _ _ kids =>
      flat_map (fun k => if isElement k then k :: descendants k else []) kids
  | _ => []
  end.

(** The two selector forms the program uses: a type selector ['name'] and
    a class selector ['.name']. *)
Inductive Selector : Type :=
| ByTag (name : str)
| ByClass (cls : str).

(** ASCII white space separating the tokens of a [class] attribute. *)
Definition is_class_sep (c : ascii) : bool :=
  let n := nat_of_ascii c in
  (n =? 9) || (n =? 10) || (n =? 12) || (n =? 13) || (n =? 32).

Fixpoint class_tokens (cur : str) (s : str) : list str :=
  match s with
  | [] => if truthy cur then [rev cur] else []
  | c :: s' =>
      if is_class_sep c
      then (if truthy cur then [rev cur] else []) ++ class_tokens [] s'
      else class_tokens (c :: cur) s'
  end.

Definition classList (el : Node) : list str :=
  match getAttribute el (lit "class") with
  | Some v => class_tokens [] v
  | None => []
  end.

Definition matches (sel : Selector) (el : Node) : bool :=
  match sel with
  | ByTag name => str_eqb (tagName el) name
  | ByClass cls => existsb (str_eqb cls) (classList el)
  end.

Definition querySelectorAll (el : Node) (sel : Selector) : list Node :=
  filter (matches sel) (descendants el).

Definition querySelector (el : Node) (sel : Selector) : option Node :=
  hd_error (querySelectorAll el sel).

(** On the document the root element itself is a candidate. *)
Definition doc_querySelector (doc : Document) (sel : Selector)
  : option Node :=
  hd_error (filter (matches sel)
              (documentElement doc :: descendants (documentElement doc))).

(* ----------------------------------------------------------------- *)
(** *** XML serialisation, for [innerHTML] *)

Definition escape_text_char (c : ascii) : str :=
  if Ascii.eqb c "&" then lit "&amp;"
  else if Ascii.eqb c "<" then lit "&lt;"
  else if Ascii.eqb c ">" then lit "&gt;"
  else [c].

Definition escape_attr_char (c : ascii) : str :=
  if Ascii.eqb c DQ then lit "&quot;" else escape_text_char c.

Definition serialize_attr (a : str * str) : str :=
  lit " " ++ fst a ++ lit "=" ++ [DQ] ++ flat_map escape_attr_char (snd a)
  ++ [DQ].

Fixpoint serialize (n : Node) : str :=
  match n with
  | TextNode d => flat_map escape_text_char d
  | CDataNode d => lit "<![CDATA[" ++ d ++ lit "]]>"
  | CommentNode d => lit "<!--" ++ d ++ lit "-->"
  | ElementNode t attrs kids =>
      match kids with
      | [] => lit "<" ++ t ++ flat_map serialize_attr attrs ++ lit "/>"
      | _ => lit "<" ++ t ++ flat_map serialize_attr attrs ++ lit ">"
             ++ flat_map serialize kids
             ++ lit "</" ++ t ++ lit ">"
      end
  end.

(** [el.innerHTML] in an XML document: the serialisation of the children. *)
Definition innerHTML (el : Node) : str := flat_map serialize (childNodes el).

(* ================================================================= *)
(** ** The document model ([types/problem.ts]) *)

(** What the code stores in a [number]: [parseInt] gives [NaN] or an
    integer. *)
Inductive JSNumber : Type :=
| NaN
| Num (z : Z).

Record ProblemMetadata : Type := {
  displayName : str;
  maxAttempts : option JSNumber;
  markdown : option str
}.

Record Choice : Type := {
  text : str;
  correct : bool
}.

Inductive Question : Type :=
| MultipleChoiceQuestion (label : str) (choices : list Choice) (shuffle : bool)
| NumericalQuestion (label : str) (answer : str) (tolerance : str)
| StringQuestion (label : str) (answer : str).

Record Solution : Type := {
  explanation : str;
  htmlContent : str
}.

Inductive ProblemBlock : Type :=
| QuestionBlock (question : Question) (solution : option Solution)
| HtmlBlock (content : str).

Record ParsedProblem : Type := {
  metadata : ProblemMetadata;
  introHtml : str;
  blocks : list ProblemBlock
}.

(** A call either returns or throws [new Error(message)]. *)
Inductive result (A : Type) : Type :=
| Ok (value : A)
| Throw (message : str).
Arguments Ok {A} value.
Arguments Throw {A} message.

(* ================================================================= *)
(** ** [parseInt(s, 10)] *)

Definition digit_of (c : ascii) : option Z :=
  let n := nat_of_ascii c in
  if (48 <=? n) && (n <=? 57) then Some (Z.of_nat (n - 48)) else None.

Fixpoint digits_value (acc : Z) (s : str) : Z :=
  match s with
  | [] => acc
  | c :: s' =>
      match digit_of c with
      | Some d => digits_value (acc * 10 + d) s'
      | None => acc
      end
  end.

Definition starts_with_digit (s : str) : bool :=
  match s with
  | c :: _ => match digit_of c with Some _ => true | None => false end
  | [] => false
  end.

(** Leading white space is skipped, one sign is read, then the longest
    run of decimal digits; no digit at all gives [NaN].  The integer is
    the exact value of the digits (rounding to a double is not modelled). *)
Definition parseInt10 (s : str) : JSNumber :=
  let s1 := trimStart s in
  let '(neg, s2) :=
    match s1 with
    | c :: r =>
        if Ascii.eqb c "-" then (true, r)
        else if Ascii.eqb c "+" then (false, r)
        else (false, s1)
    | [] => (false, [])
    end in
  if starts_with_digit s2
  then Num (if neg then (- digits_value 0 s2)%Z else digits_value 0 s2)
  else NaN.

(* ================================================================= *)
(** ** The parser ([utils/problemParser.ts]) *)

Definition parseMetadata (problemEl : Node) : ProblemMetadata :=
  {| displayName :=
       or_else (getAttribute problemEl (lit "display_name"))
               (lit "Untitled Problem");
     maxAttempts :=
       match getAttribute problemEl (lit "max_attempts") with
       | Some v => if truthy v then Some (parseInt10 v) else None
       | None => None
       end;
     markdown := getAttribute problemEl (lit "markdown") |}.

(** [el.querySelector('label')?.textContent?.trim() || ''] *)
Definition labelOf (el : Node) : str :=
  match querySelector el (ByTag (lit "label")) with
  | Some l => trim (textContent l)
  | None => []
  end.

Definition parseChoice (choiceEl : Node) : Choice :=
  {| text := trim (textContent choiceEl);
     correct :=
       match getAttribute choiceEl (lit "correct") with
       | Some v => str_eqb v (lit "true")
       | None => false
       end |}.

Definition parseMultipleChoice (el : Node) : Question :=
  let label := labelOf el in
  let choicegroup := querySelector el (ByTag (lit "choicegroup")) in
  let shuffle :=
    match choicegroup with
    | Some g =>
        match getAttribute g (lit "shuffle") with
        | Some v => str_eqb v (lit "true")
        | None => false
        end
    | None => false
    end in
  let choices := map parseChoice (querySelectorAll el (ByTag (lit "choice"))) in
  MultipleChoiceQuestion label choices shuffle.

(** The [paragraphs.forEach((p, index) => ...)] of [parseSolution],
    pushing onto [texts]. *)
Fixpoint forEachParagraph (paragraphs : list Node) (index : nat)
  (texts : list str) : list str :=
  match paragraphs with
  | [] => texts
  | p :: rest =>
      if (index =? 0) && str_eqb (trim (textContent p)) (lit "Explanation")
      then forEachParagraph rest (S index) texts
      else forEachParagraph rest (S index) (texts ++ [trim (textContent p)])
  end.

Definition parseSolution (el : Node) : Solution :=
  match querySelector el (ByClass (lit "detailed-solution")) with
  | Some detailedSolution =>
      let paragraphs := querySelectorAll detailedSolution (ByTag (lit "p")) in
      let texts := forEachParagraph paragraphs 0 [] in
      {| explanation := join [LF] texts;
         htmlContent := innerHTML detailedSolution |}
  | None =>
      {| explanation := trim (textContent el);
         htmlContent := innerHTML el |}
  end.

Definition parseHtmlBlock (el : Node) : ProblemBlock :=
  HtmlBlock (innerHTML el).

Definition tagIs (el : Node) (name : string) : bool :=
  str_eqb (toLowerCase (tagName el)) (lit name).

Definition parseNumerical (child : Node) : Question :=
  NumericalQuestion (labelOf child)
    (or_else (getAttribute child (lit "answer")) []) [].

Definition parseString (child : Node) : Question :=
  StringQuestion (labelOf child)
    (or_else (getAttribute child (lit "answer")) []).

(** The [for] loop of [parseProblem] over [children], from index [i] on:
    the first argument is [children.slice(i)].  A question looks at
    [children[i + 1]] and steps over it when it is a [solution]. *)
Fixpoint processChildren (rest : list Node) (foundFirstQuestion : bool)
  (introHtml : str) (blocks : list ProblemBlock)
  : str * list ProblemBlock :=
  match rest with
  | [] => (introHtml, blocks)
  | child :: rest1 =>
      if tagIs child "html" then
        if negb foundFirstQuestion
        then processChildren rest1 foundFirstQuestion
               (introHtml ++ innerHTML child) blocks
        else processChildren rest1 foundFirstQuestion introHtml
               (blocks ++ [parseHtmlBlock child])
      else if tagIs child "multiplechoiceresponse" then
        let question := parseMultipleChoice child in
        match rest1 with
        | next :: rest2 =>
            if tagIs next "solution"
            then processChildren rest2 true introHtml
                   (blocks ++ [QuestionBlock question (Some (parseSolution next))])
            else processChildren rest1 true introHtml
                   (blocks ++ [QuestionBlock question None])
        | [] => processChildren rest1 true introHtml
                  (blocks ++ [QuestionBlock question None])
        end
      else if tagIs child "numericalresponse" then
        let question := parseNumerical child in
        match rest1 with
        | next :: rest2 =>
            if tagIs next "solution"
            then processChildren rest2 true introHtml
                   (blocks ++ [QuestionBlock question (Some (parseSolution next))])
            else processChildren rest1 true introHtml
                   (blocks ++ [QuestionBlock question None])
        | [] => processChildren rest1 true introHtml
                  (blocks ++ [QuestionBlock question None])
        end
      else if tagIs child "stringresponse" then
        let question := parseString child in
        match rest1 with
        | next :: rest2 =>
            if tagIs next "solution"
            then processChildren rest2 true introHtml
                   (blocks ++ [QuestionBlock question (Some (parseSolution next))])
            else processChildren rest1 true introHtml
                   (blocks ++ [QuestionBlock question None])
        | [] => processChildren rest1 true introHtml
                  (blocks ++ [QuestionBlock question None])
        end
      else processChildren rest1 foundFirstQuestion introHtml blocks
  end.

(** The part of [parseProblem] after the two guards. *)
Definition parseProblemEl (problemEl : Node) : ParsedProblem :=
  let metadata := parseMetadata problemEl in
  let '(introHtml, blocks) :=
    processChildren (children problemEl) false [] [] in
  {| metadata := metadata; introHtml := introHtml; blocks := blocks |}.

Section Pipeline.
Context {parser : DOMParser}.

Definition parseProblem (xmlString : str) : result ParsedProblem :=
  let doc := parseFromString xmlString in
  match doc_querySelector doc (ByTag (lit "parsererror")) with
  | Some parseError =>
      Throw (lit "XML Parse Error: " ++ textContent parseError)
  | None =>
      match doc_querySelector doc (ByTag (lit "problem")) with
      | None => Throw (lit "No <problem> element found")
      | Some problemEl => Ok (parseProblemEl problemEl)
      end
  end.

End Pipeline.

(* ================================================================= *)
(** ** The formatter *)

Definition inlineElements : list str :=
  [lit "choice"; lit "label"; lit "p"; lit "span"; lit "a"; lit "strong";
   lit "em"; lit "code"].

(** [for (const attr of el.attributes) attrs += ` ${name}="${value}"`] *)
Definition attrString (a : str * str) : str :=
  lit " " ++ fst a ++ lit "=" ++ [DQ] ++ snd a ++ [DQ].

Definition attrsString (l : list (str * str)) : str := flat_map attrString l.

Definition hasOnlyText (kids : list Node) : bool :=
  match kids with
  | [k] => nodeType k =? TEXT_NODE
  | _ => false
  end.

(** One round of the loop over [el.childNodes]: a formatted child that is
    not empty goes on a line of its own. *)
Definition childLine (formatted : str) : str :=
  if truthy formatted then LF :: formatted else [].

(** The inner [formatNode]; [PADDING] is the closure's constant. *)
Fixpoint formatNode (PADDING : str) (node : Node) (indent : nat) : str :=
  match node with
  | TextNode _ => trim (textContent node)
  | CommentNode _ =>
      repeat_str PADDING indent ++ lit "<!--" ++ textContent node ++ lit "-->"
  | CDataNode _ => []
  | ElementNode tagName attributes childNodes =>
      let attrs := attrsString attributes in
      let hasOnlyText := hasOnlyText childNodes in
      let hasNoChildren := List.length childNodes =? 0 in
      let isInline :=
        existsb (str_eqb (toLowerCase tagName)) inlineElements
        || hasOnlyText in
      if hasNoChildren then
        repeat_str PADDING indent ++ lit "<" ++ tagName ++ attrs ++ lit "></"
        ++ tagName ++ lit ">"
      else if isInline && hasOnlyText then
        repeat_str PADDING indent ++ lit "<" ++ tagName ++ attrs ++ lit ">"
        ++ trim (textContent node) ++ lit "</" ++ tagName ++ lit ">"
      else
        let result :=
          repeat_str PADDING indent ++ lit "<" ++ tagName ++ attrs ++ lit ">" in
        let childContent :=
          flat_map (fun child => childLine (formatNode PADDING child (S indent)))
                   childNodes in
        let hasElementChildren := existsb isElement childNodes in
        if hasElementChildren then
          result ++ childContent ++ [LF] ++ repeat_str PADDING indent
          ++ lit "</" ++ tagName ++ lit ">"
        else
          result ++ trim (textContent node) ++ lit "</" ++ tagName ++ lit ">"
  end.

Section Formatter.
Context {parser : DOMParser}.

Definition formatXmlPreserveInline (xml : str) (indentSize : nat) : str :=
  let PADDING := repeat_str (lit " ") indentSize in
  let doc := parseFromString xml in
  match doc_querySelector doc (ByTag (lit "parsererror")) with
  | Some _ => xml
  | None => formatNode PADDING (documentElement doc) 0
  end.

End Formatter.

(* ================================================================= *)
(** ** Queries and validation *)

Definition isQuestionBlock (b : ProblemBlock) : bool :=
  match b with QuestionBlock _ _ => true | HtmlBlock _ => false end.

Definition countQuestions (parsed : ParsedProblem) : nat :=
  List.length (filter isQuestionBlock (blocks parsed)).

Inductive Severity : Type := error | warning.

Record ValidationError : Type := {
  type : Severity;
  message : str;
  questionIndex : option nat
}.

Definition noCorrectAnswer (n : nat) : ValidationError :=
  {| type := error;
     message := lit "Question " ++ string_of_nat n ++ lit " has no correct answer";
     questionIndex := Some n |}.

Definition emptyChoices (n : nat) : ValidationError :=
  {| type := warning;
     message := lit "Question " ++ string_of_nat n ++ lit " has empty choice(s)";
     questionIndex := Some n |}.

Definition missingExplanation (n : nat) : ValidationError :=
  {| type := warning;
     message :=
       lit "Question " ++ string_of_nat n ++ lit " is missing an explanation";
     questionIndex := Some n |}.

(** The condition of the last [if] of the loop body. *)
Definition lacksExplanation (solution : option Solution) : bool :=
  match solution with
  | None => true
  | Some s =>
      negb (truthy (trim (explanation s)))
      || str_eqb (explanation s) (lit "Add your explanation here")
  end.

(** The findings one question block pushes, [questionIndex] already
    incremented. *)
Definition validateQuestion (questionIndex : nat) (q : Question)
  (solution : option Solution) : list ValidationError :=
  (match q with
   | MultipleChoiceQuestion _ choices _ =>
       let hasCorrect := existsb correct choices in
       let emptyOnes :=
         filter (fun c => negb (truthy (trim (text c)))) choices in
       (if negb hasCorrect then [noCorrectAnswer questionIndex] else [])
       ++ (if 0 <? List.length emptyOnes then [emptyChoices questionIndex] else [])
   | _ => []
   end)
  ++ (if lacksExplanation solution then [missingExplanation questionIndex]
      else []).

(** The [for (const block of parsed.blocks)] loop with its counter and the
    array of findings. *)
Fixpoint validateBlocks (blocks : list ProblemBlock) (questionIndex : nat)
  (errors : list ValidationError) : list ValidationError :=
  match blocks with
  | [] => errors
  | QuestionBlock q solution :: rest =>
      validateBlocks rest (S questionIndex)
        (errors ++ validateQuestion (S questionIndex) q solution)
  | HtmlBlock _ :: rest => validateBlocks rest questionIndex errors
  end.

Definition validateProblem (parsed : ParsedProblem) : list ValidationError :=
  validateBlocks (blocks parsed) 0 [].

(* ================================================================= *)
(** ** A model of the platform's XML parser

    [parseProblem] and [formatXmlPreserveInline] are stated over any
    [DOMParser].  To run them on text, and to compose the formatter with
    itself or with the parser, this section gives one: a recursive-descent
    parser for the fragment of XML 1.0 the editor's documents use, namely
    elements, attributes, character data, the five predefined entity
    references, comments and CDATA sections.  Document type declarations,
    processing instructions, character references, name spaces (a
    prefix, or a declaration of the default name space) and a CR in
    character data lie outside the fragment; the model reports them as not
    well-formed.  On the fragment it builds the
    tree XML 1.0 prescribes ([conforms] below says so of a parser). *)

Inductive outcome (A : Type) : Type :=
| Got (value : A) (rest : str)
| Bad (diagnostic : str).
Arguments Got {A} value rest.
Arguments Bad {A} diagnostic.

Definition is_xml_space (c : ascii) : bool :=
  let n := nat_of_ascii c in
  (n =? 9) || (n =? 10) || (n =? 13) || (n =? 32).

(** [Char] of XML 1.0, on code units, without CR: the platform turns the
    line ends of its input into LF before it parses, so that a CR reaches
    a tree through a character reference only.  A text, attribute value,
    comment or CDATA section with a CR lies outside the fragment. *)
Definition is_xml_char (c : ascii) : bool :=
  let n := nat_of_ascii c in
  (n =? 9) || (n =? 10) || (32 <=? n).

Definition is_name_start (c : ascii) : bool :=
  let n := nat_of_ascii c in
  ((65 <=? n) && (n <=? 90)) || ((97 <=? n) && (n <=? 122)) || (n =? 95)
  || ((192 <=? n) && (n <=? 214)) || ((216 <=? n) && (n <=? 246))
  || (248 <=? n).

Definition is_name_char (c : ascii) : bool :=
  let n := nat_of_ascii c in
  is_name_start c || (n =? 45) || (n =? 46) || ((48 <=? n) && (n <=? 57))
  || (n =? 183).

Fixpoint span (p : ascii -> bool) (s : str) : str * str :=
  match s with
  | [] => ([], [])
  | c :: s' =>
      if p c then let '(a, b) := span p s' in (c :: a, b) else ([], s)
  end.

Fixpoint strip_prefix (p s : str) : option str :=
  match p, s with
  | [], _ => Some s
  | x :: p', y :: s' => if Ascii.eqb x y then strip_prefix p' s' else None
  | _ :: _, [] => None
  end.

Definition starts_with (p s : str) : bool :=
  match strip_prefix p s with Some _ => true | None => false end.

Definition skip_space (s : str) : str := snd (span is_xml_space s).

Definition parse_name (s : str) : outcome str :=
  match s with
  | c :: _ =>
      if is_name_start c
      then let '(n, r) := span is_name_char s in Got n r
      else Bad (lit "name expected")
  | [] => Bad (lit "name expected")
  end.

Definition entity_char (name : str) : option ascii :=
  if str_eqb name (lit "amp") then Some "&"%char
  else if str_eqb name (lit "lt") then Some "<"%char
  else if str_eqb name (lit "gt") then Some ">"%char
  else if str_eqb name (lit "quot") then Some DQ
  else if str_eqb name (lit "apos") then Some "'"%char
  else None.

(** Replaces the entity references of a run of character data; [ent] holds
    the reversed name of a reference being read. *)
Fixpoint decode (ent : option str) (s : str) : option str :=
  match s with
  | [] => match ent with None => Some [] | Some _ => None end
  | c :: s' =>
      match ent with
      | None =>
          if Ascii.eqb c "&" then decode (Some []) s'
          else option_map (cons c) (decode None s')
      | Some acc =>
          if Ascii.eqb c ";" then
            match entity_char (rev acc) with
            | Some ch => option_map (cons ch) (decode None s')
            | None => None
            end
          else decode (Some (c :: acc)) s'
      end
  end.

(** No [']]>'] starts anywhere in the run. *)
Fixpoint no_cdata_end (s : str) : bool :=
  match s with
  | [] => true
  | _ :: s' => negb (starts_with (lit "]]>") s) && no_cdata_end s'
  end.

(** Attribute-value normalisation: a literal TAB, LF or CR is a space. *)
Definition normalize_attr_char (c : ascii) : ascii :=
  if is_xml_space c then " "%char else c.

(** Character data up to the next ['<']. *)
Definition parse_text (s : str) : outcome str :=
  let '(raw, rest) := span (fun c => negb (Ascii.eqb c "<")) s in
  if negb (forallb is_xml_char raw) then Bad (lit "invalid character")
  else if negb (no_cdata_end raw) then Bad (lit "]]> in content")
  else match decode None raw with
       | Some d => Got d rest
       | None => Bad (lit "bad entity reference")
       end.

(** An attribute value after its opening quote [q]. *)
Definition parse_attr_value (q : ascii) (s : str) : outcome str :=
  let '(raw, rest) := span (fun c => negb (Ascii.eqb c q)) s in
  match rest with
  | [] => Bad (lit "unterminated attribute value")
  | _ :: rest' =>
      if negb (forallb is_xml_char raw) then Bad (lit "invalid character")
      else if existsb (Ascii.eqb "<") raw then Bad (lit "< in attribute value")
      else match decode None (map normalize_attr_char raw) with
           | Some v => Got v rest'
           | None => Bad (lit "bad entity reference")
           end
  end.

(** A comment after ['<!--']: up to ['-->'], with no ['--'] inside. *)
Fixpoint scan_comment (s : str) : outcome str :=
  match s with
  | [] => Bad (lit "unterminated comment")
  | c :: s' =>
      if Ascii.eqb c "-" then
        match s' with
        | d :: s'' =>
            if Ascii.eqb d "-" then
              match s'' with
              | e :: rest =>
                  if Ascii.eqb e ">" then Got [] rest
                  else Bad (lit "-- in comment")
              | [] => Bad (lit "unterminated comment")
              end
            else
              match scan_comment s' with
              | Got body rest => Got (c :: body) rest
              | Bad m => Bad m
              end
        | [] => Bad (lit "unterminated comment")
        end
      else if is_xml_char c then
        match scan_comment s' with
        | Got body rest => Got (c :: body) rest
        | Bad m => Bad m
        end
      else Bad (lit "invalid character")
  end.

(** A CDATA section after ['<![CDATA[']: up to [']]>']. *)
Fixpoint scan_cdata (s : str) : outcome str :=
  match s with
  | [] => Bad (lit "unterminated CDATA section")
  | c :: s' =>
      match strip_prefix (lit "]]>") s with
      | Some rest => Got [] rest
      | None =>
          if is_xml_char c then
            match scan_cdata s' with
            | Got body rest => Got (c :: body) rest
            | Bad m => Bad m
            end
          else Bad (lit "invalid character")
      end
  end.

Definition has_attr (name : str) (l : list (str * str)) : bool :=
  match lookup_attr name l with Some _ => true | None => false end.

(** The attribute that declares the default name space. *)
Definition is_declaration (name : str) : bool := str_eqb name (lit "xmlns").

(** The attributes of a start tag and its end: [true] for ['/>']. *)
Fixpoint parse_attrs (fuel : nat) (acc : list (str * str)) (s : str)
  : outcome (list (str * str) * bool) :=
  match fuel with
  | 0 => Bad (lit "tag too long")
  | S fuel' =>
      let s1 := skip_space s in
      match strip_prefix (lit ">") s1 with
      | Some rest => Got (rev acc, false) rest
      | None =>
          match strip_prefix (lit "/>") s1 with
          | Some rest => Got (rev acc, true) rest
          | None =>
              if negb (match s with c :: _ => is_xml_space c | [] => false end)
              then Bad (lit "white space expected")
              else
                match parse_name s1 with
                | Bad m => Bad m
                | Got name r1 =>
                    match strip_prefix (lit "=") (skip_space r1) with
                    | None => Bad (lit "= expected")
                    | Some r2 =>
                        match skip_space r2 with
                        | q :: r3 =>
                            if Ascii.eqb q DQ || Ascii.eqb q "'" then
                              match parse_attr_value q r3 with
                              | Bad m => Bad m
                              | Got v r4 =>
                                  if has_attr name acc
                                  then Bad (lit "duplicate attribute")
                                  else if is_declaration name
                                  then Bad (lit "name space declaration")
                                  else parse_attrs fuel' ((name, v) :: acc) r4
                              end
                            else Bad (lit "quote expected")
                        | [] => Bad (lit "quote expected")
                        end
                    end
                end
          end
      end
  end.

(** The content of an element, up to its end tag (or the end of the
    input), and an element from its ['<'] on. *)
Fixpoint parse_content (fuel : nat) (s : str) : outcome (list Node) :=
  match fuel with
  | 0 => Bad (lit "document too deep")
  | S fuel' =>
      match s with
      | [] => Got [] []
      | _ :: _ =>
          if starts_with (lit "</") s then Got [] s
          else
            match strip_prefix (lit "<!--") s with
            | Some r =>
                match scan_comment r with
                | Bad m => Bad m
                | Got body r' =>
                    match parse_content fuel' r' with
                    | Bad m => Bad m
                    | Got nodes rest => Got (CommentNode body :: nodes) rest
                    end
                end
            | None =>
                match strip_prefix (lit "<![CDATA[") s with
                | Some r =>
                    match scan_cdata r with
                    | Bad m => Bad m
                    | Got body r' =>
                        match parse_content fuel' r' with
                        | Bad m => Bad m
                        | Got nodes rest => Got (CDataNode body :: nodes) rest
                        end
                    end
                | None =>
                    if starts_with (lit "<") s then
                      match parse_element fuel' s with
                      | Bad m => Bad m
                      | Got el r' =>
                          match parse_content fuel' r' with
                          | Bad m => Bad m
                          | Got nodes rest => Got (el :: nodes) rest
                          end
                      end
                    else
                      match parse_text s with
                      | Bad m => Bad m
                      | Got d r' =>
                          match parse_content fuel' r' with
                          | Bad m => Bad m
                          | Got nodes rest => Got (TextNode d :: nodes) rest
                          end
                      end
                end
            end
      end
  end

with parse_element (fuel : nat) (s : str) : outcome Node :=
  match fuel with
  | 0 => Bad (lit "document too deep")
  | S fuel' =>
      match strip_prefix (lit "<") s with
      | None => Bad (lit "< expected")
      | Some r0 =>
          match parse_name r0 with
          | Bad m => Bad m
          | Got tag r1 =>
              match parse_attrs (S (List.length r1)) [] r1 with
              | Bad m => Bad m
              | Got (attrs, true) r2 => Got (ElementNode tag attrs []) r2
              | Got (attrs, false) r2 =>
                  match parse_content fuel' r2 with
                  | Bad m => Bad m
                  | Got kids r3 =>
                      match strip_prefix (lit "</") r3 with
                      | None => Bad (lit "end tag expected")
                      | Some r4 =>
                          match parse_name r4 with
                          | Bad m => Bad m
                          | Got tag' r5 =>
                              if str_eqb tag tag' then
                                match strip_prefix (lit ">") (skip_space r5) with
                                | Some r6 => Got (ElementNode tag attrs kids) r6
                                | None => Bad (lit "> expected")
                                end
                              else Bad (lit "mismatched end tag")
                          end
                      end
                  end
              end
          end
      end
  end.

(** White space and comments around the document element. *)
Fixpoint skip_misc (fuel : nat) (s : str) : outcome unit :=
  match fuel with
  | 0 => Bad (lit "document too long")
  | S fuel' =>
      let s1 := skip_space s in
      match strip_prefix (lit "<!--") s1 with
      | Some r =>
          match scan_comment r with
          | Bad m => Bad m
          | Got _ r' => skip_misc fuel' r'
          end
      | None => Got tt s1
      end
  end.

Definition parse_document (s : str) : outcome Node :=
  let fuel := S (List.length s) in
  match skip_misc fuel s with
  | Bad m => Bad m
  | Got _ r0 =>
      match parse_element fuel r0 with
      | Bad m => Bad m
      | Got root r1 =>
          match skip_misc fuel r1 with
          | Bad m => Bad m
          | Got _ [] => Got root []
          | Got _ (_ :: _) => Bad (lit "content after the document element")
          end
      end
  end.

(** What the parser hands back for input that is not well-formed. *)
Definition errorDocument (diagnostic : str) : Document :=
  {| documentElement :=
       ElementNode (lit "parsererror") [] [TextNode diagnostic] |}.

#[export] Instance xmlParser : DOMParser :=
  fun s =>
    match parse_document s with
    | Got root _ => {| documentElement := root |}
    | Bad m => errorDocument m
    end.

(** No CDATA section, at any depth. *)
Fixpoint cdata_free (node : Node) : bool :=
  match node with
  | CDataNode _ => false
  | ElementNode _ _ kids => forallb cdata_free kids
  | _ => true
  end.

(** A parser that reads the documents of the fragment as the model does.
    What it makes of other documents is left open, and so is what it makes
    of CDATA sections: the formatter writes none, and parsers differ on an
    empty one. *)
Definition conforms (parser : DOMParser) : Prop :=
  forall (s : str) (root : Node),
    parse_document s = Got root [] -> cdata_free root = true ->
    @parseFromString parser s = {| documentElement := root |}.

(* ================================================================= *)
(** ** Element kinds of the main loop *)

Definition isHtmlEl (el : Node) : bool := tagIs el "html".

Definition isSolutionEl (el : Node) : bool := tagIs el "solution".

Definition isQuestionEl (el : Node) : bool :=
  tagIs el "multiplechoiceresponse" || tagIs el "numericalresponse"
  || tagIs el "stringresponse".

(** The question a question-producing element is parsed to. *)
Definition questionOf (el : Node) : Question :=
  if tagIs el "multiplechoiceresponse" then parseMultipleChoice el
  else if tagIs el "numericalresponse" then parseNumerical el
  else parseString el.

Definition isHtmlBlock (b : ProblemBlock) : bool := negb (isQuestionBlock b).

(** [parseSolution] as the specification words it: only the paragraph
    elements that are direct children of the marker element count. *)
Definition dropHeader (texts : list str) : list str :=
  match texts with
  | first :: others =>
      if str_eqb first (lit "Explanation") then others else texts
  | [] => []
  end.

Definition parseSolution_direct_paragraphs (el : Node) : Solution :=
  match querySelector el (ByClass (lit "detailed-solution")) with
  | Some marker =>
      let paragraphs := filter (matches (ByTag (lit "p"))) (children marker) in
      {| explanation :=
           join [LF] (dropHeader (map (fun p => trim (textContent p)) paragraphs));
         htmlContent := innerHTML marker |}
  | None =>
      {| explanation := trim (textContent el);
         htmlContent := innerHTML el |}
  end.

(** A value made of decimal digits only, as the specification's
    "numeric". *)
Definition is_digit (c : ascii) : bool :=
  match digit_of c with Some _ => true | None => false end.

Definition is_numeric (v : str) : bool := truthy v && forallb is_digit v.

Definition is_error (f : ValidationError) : bool :=
  match type f with error => true | warning => false end.

Definition about_question (n : nat) (f : ValidationError) : bool :=
  match questionIndex f with
  | Some m => m =? n
  | None => false
  end.

(** The lookahead of a question at the end of [pre] reaches into [rest]. *)
Definition crosses (pre rest : list Node) : bool :=
  match rev pre, rest with
  | q :: _, s :: _ => isQuestionEl q && isSolutionEl s
  | _, _ => false
  end.

Section WellFormed.
Context {parser : DOMParser}.

(** The parser found nothing to complain about. *)
Definition wellFormed (xml : str) : Prop :=
  doc_querySelector (parseFromString xml) (ByTag (lit "parsererror")) = None.

(** The document element of [xml] is the [problem] element [el]. *)
Definition rootProblem (xml : str) (el : Node) : Prop :=
  documentElement (parseFromString xml) = el /\ tagName el = lit "problem".

End WellFormed.

(* ----------------------------------------------------------------- *)
(** ** Sample documents *)

Definition SQ : ascii := ascii_of_nat 39.

(** A problem with an intro, two questions, the first with its solution,
    and a solution that no question takes. *)
Definition sampleProblem : str :=
  lit "<problem display_name='' max_attempts='many'><html><p>Intro</p></html><multiplechoiceresponse><label>Q1</label><choicegroup><choice correct='false'>A</choice><choice correct='true'>B</choice></choicegroup></multiplechoiceresponse><solution><div class='detailed-solution'><p>Explanation</p><p>Because.</p></div></solution><solution>stray</solution><html>More</html><stringresponse answer='42'><label>Q2</label></stringresponse></problem>".

Definition sampleRoot : Node :=
  match parse_document sampleProblem with
  | Got root _ => root
  | Bad _ => TextNode []
  end.

Definition sampleChild (i : nat) : Node :=
  nth i (children sampleRoot) (TextNode []).

(** An unclosed tag. *)
Definition malformedProblem : str := lit "<problem><html></problem>".

(** A solution whose paragraph sits one level below the marker element. *)
Definition nestedSolution : Node :=
  ElementNode (lit "solution") []
    [ElementNode (lit "div") [(lit "class", lit "detailed-solution")]
       [ElementNode (lit "div") []
          [ElementNode (lit "p") [] [TextNode (lit "Deep")]]]].

Definition sampleParsed : ParsedProblem :=
  {| metadata := {| displayName := lit "T"; maxAttempts := None; markdown := None |};
     introHtml := [];
     blocks :=
       [HtmlBlock (lit "x");
        QuestionBlock (StringQuestion (lit "Q") (lit "a")) None;
        QuestionBlock
          (MultipleChoiceQuestion (lit "Q")
             [ {| text := lit "A"; correct := false |};
               {| text := lit "B"; correct := false |} ] false)
          (Some {| explanation := lit "Add your explanation here";
                   htmlContent := [] |})] |}.

(* ----------------------------------------------------------------- *)
(** ** Auxiliary notions *)

(** The number of question blocks in a list of blocks. *)
Definition countBlocks (l : list ProblemBlock) : nat :=
  List.length (filter isQuestionBlock l).

Definition all_space (w : str) : bool := forallb is_js_space w.

(** Not empty, and no white space at either end. *)
Definition tight (s : str) : bool :=
  match s with
  | c :: _ => negb (is_js_space c)
  | [] => false
  end
  && match rev s with
     | d :: _ => negb (is_js_space d)
     | [] => false
     end.

(** [' '.repeat(indentSize)] *)
Definition spaces (n : nat) : str := repeat_str (lit " ") n.

(** The lines [formatNode] writes for the children of an element. *)
Definition childContent (PADDING : str) (indent : nat) (kids : list Node)
  : str :=
  flat_map (fun child => childLine (formatNode PADDING child (S indent))) kids.

(** What [formatNode] writes for an element after its indentation. *)
Definition elementBody (PADDING : str) (tag : str) (attrs : list (str * str))
  (kids : list Node) (indent : nat) : str :=
  "<"%char :: tag ++ attrsString attrs ++ ">"%char ::
  (if existsb isElement kids
   then childContent PADDING indent kids ++ LF :: repeat_str PADDING indent
   else trim (flat_map descendantText kids))
  ++ "<"%char :: "/"%char :: tag ++ [">"%char].

(* ----------------------------------------------------------------- *)
(** ** What the parser makes of the formatter's output *)

Definition textKids (x : str) : list Node :=
  if truthy x then [TextNode x] else [].

(** The tree the XML parser builds from [formatNode PADDING node indent]:
    the elements keep their tags and attributes; an element without element
    children keeps its trimmed text only; between element and comment
    children sit the text runs of line feeds, indentation and the trimmed
    texts, the last one before the end tag.  [pending] is the run read so
    far. *)
Fixpoint reformat (PADDING : str) (node : Node) (indent : nat) : Node :=
  match node with
  | ElementNode tag attrs kids =>
      if existsb isElement kids then
        ElementNode tag attrs
          ((fix regroup (kids : list Node) (pending : str) : list Node :=
              match kids with
              | [] => [TextNode (pending ++ LF :: repeat_str PADDING indent)]
              | TextNode d :: ks => regroup ks (pending ++ childLine (trim d))
              | CDataNode _ :: ks => regroup ks pending
              | CommentNode d :: ks =>
                  TextNode (pending ++ LF :: repeat_str PADDING (S indent))
                  :: CommentNode d :: regroup ks []
              | (ElementNode _ _ _ as k) :: ks =>
                  TextNode (pending ++ LF :: repeat_str PADDING (S indent))
                  :: reformat PADDING k (S indent) :: regroup ks []
              end) kids [])
      else ElementNode tag attrs (textKids (trim (textContent node)))
  | other => other
  end.

(** The inner loop of [reformat], by itself. *)
Fixpoint regroup (PADDING : str) (indent : nat) (kids : list Node)
  (pending : str) : list Node :=
  match kids with
  | [] => [TextNode (pending ++ LF :: repeat_str PADDING indent)]
  | TextNode d :: ks => regroup PADDING indent ks (pending ++ childLine (trim d))
  | CDataNode _ :: ks => regroup PADDING indent ks pending
  | CommentNode d :: ks =>
      TextNode (pending ++ LF :: repeat_str PADDING (S indent))
      :: CommentNode d :: regroup PADDING indent ks []
  | (ElementNode _ _ _ as k) :: ks =>
      TextNode (pending ++ LF :: repeat_str PADDING (S indent))
      :: reformat PADDING k (S indent) :: regroup PADDING indent ks []
  end.

(** Character data that can be written between tags as it is: no ['&'],
    no ['<'] and no [']]>']. *)
Definition is_markup_char (c : ascii) : bool :=
  Ascii.eqb c "&" || Ascii.eqb c "<".

Definition text_ok (s : str) : bool :=
  forallb (fun c => negb (is_markup_char c)) s && no_cdata_end s.

(** An attribute value that can be written between double quotes as it
    is. *)
Definition attr_value_ok (v : str) : bool :=
  forallb (fun c => negb (is_markup_char c) && negb (Ascii.eqb c DQ)) v.

(** Nothing the formatter writes for this node needs escaping: attribute
    values, the trimmed text of an element without element children, and
    the trimmed texts next to element children. *)
Fixpoint markup_free (node : Node) : bool :=
  match node with
  | ElementNode tag attrs kids =>
      forallb (fun a => attr_value_ok (snd a)) attrs
      && (if existsb isElement kids
          then forallb (fun k =>
                          match k with
                          | TextNode d => text_ok (trim d)
                          | ElementNode _ _ _ => markup_free k
                          | _ => true
                          end) kids
          else text_ok (trim (textContent node)))
  | _ => true
  end.

(** A run of character data: every character may stand in a document and
    none opens markup. *)
Definition is_run_char (c : ascii) : bool :=
  is_xml_char c && negb (is_markup_char c).

Definition run_ok (s : str) : bool :=
  forallb is_run_char s && no_cdata_end s.

(** What is required of a child next to element children. *)
Definition kid_markup_free (k : Node) : bool :=
  match k with
  | TextNode d => text_ok (trim d)
  | ElementNode _ _ _ => markup_free k
  | _ => true
  end.

(** A pending run: empty, or a line feed and a text without white space
    at its ends. *)
Definition line_run (p : str) : Prop :=
  p = [] \/ exists x, p = LF :: x /\ tight x = true.

(** *** The trees of the fragment

    What every tree of the model parser satisfies.  A tree of the platform
    can fail it: through a name space (a prefixed name or a declaration),
    and through a character reference, which can put a TAB, LF or CR into
    an attribute value and a CR into a text. *)

Definition is_name (n : str) : bool :=
  match n with
  | c :: _ => is_name_start c && forallb is_name_char n
  | [] => false
  end.

(** A comment body: no ['--'] inside and no ['-'] at the end. *)
Fixpoint comment_ok (d : str) : bool :=
  match d with
  | [] => true
  | c :: d' =>
      is_xml_char c
      && (if Ascii.eqb c "-"
          then match d' with
               | e :: _ => negb (Ascii.eqb e "-")
               | [] => false
               end
          else true)
      && comment_ok d'
  end.

(** A normalised attribute value has no TAB, LF or CR left. *)
Definition is_value_char (c : ascii) : bool := 32 <=? nat_of_ascii c.

Fixpoint distinct_names (l : list (str * str)) : bool :=
  match l with
  | [] => true
  | (k, _) :: l' => negb (has_attr k l') && distinct_names l'
  end.

(** An attribute of the fragment: a name without prefix that declares no
    name space, and a normalised value. *)
Definition attr_wf (a : str * str) : bool :=
  is_name (fst a) && negb (is_declaration (fst a))
  && forallb is_value_char (snd a).

Definition attrs_wf (l : list (str * str)) : bool :=
  forallb attr_wf l && distinct_names l.

Fixpoint node_wf (node : Node) : bool :=
  match node with
  | TextNode d => forallb is_xml_char d
  | CDataNode d => forallb is_xml_char d
  | CommentNode d => comment_ok d
  | ElementNode tag attrs kids =>
      is_name tag && attrs_wf attrs && forallb node_wf kids
  end.

(** A document element of the fragment. *)
Definition fragment_tree (root : Node) : bool :=
  isElement root && node_wf root.

(** The statement of the round trip for one node: what the formatter
    writes for a well-formed element that needs no escaping is parsed to
    the element's [reformat]. *)
Definition reparses (indentSize : nat) (k : Node) : Prop :=
  node_wf k = true -> markup_free k = true ->
  match k with
  | ElementNode tag attrs kids =>
      forall indent rest fuel,
        List.length (elementBody (spaces indentSize) tag attrs kids indent
                     ++ rest) <= fuel ->
        parse_element fuel
          (elementBody (spaces indentSize) tag attrs kids indent ++ rest)
        = Got (reformat (spaces indentSize) k indent) rest
  | _ => True
  end.

(* ----------------------------------------------------------------- *)
(** ** Equality up to white space

    The formatter puts the children of an element with element children
    on lines of their own, so that the texts read from the tree can gain
    and lose white space anywhere; attribute values are written back as
    they are.  Two parsed documents are compared accordingly: the fields
    read from attributes must be equal, the fields read from text or
    markup must be equal once white space is taken out. *)

Definition strip_space (s : str) : str :=
  filter (fun c => negb (is_js_space c)) s.

Definition same_text (a b : str) : bool :=
  str_eqb (strip_space a) (strip_space b).

Definition same_option {A : Type} (eqb : A -> A -> bool) (a b : option A)
  : bool :=
  match a, b with
  | Some x, Some y => eqb x y
  | None, None => true
  | _, _ => false
  end.

Fixpoint same_list {A : Type} (eqb : A -> A -> bool) (a b : list A) : bool :=
  match a, b with
  | [], [] => true
  | x :: a', y :: b' => eqb x y && same_list eqb a' b'
  | _, _ => false
  end.

Definition same_number (a b : JSNumber) : bool :=
  match a, b with
  | NaN, NaN => true
  | Num x, Num y => Z.eqb x y
  | _, _ => false
  end.

Definition same_metadata (a b : ProblemMetadata) : bool :=
  str_eqb (displayName a) (displayName b)
  && same_option same_number (maxAttempts a) (maxAttempts b)
  && same_option str_eqb (markdown a) (markdown b).

Definition same_choice (a b : Choice) : bool :=
  same_text (text a) (text b) && Bool.eqb (correct a) (correct b).

Definition same_question (a b : Question) : bool :=
  match a, b with
  | MultipleChoiceQuestion l c s, MultipleChoiceQuestion l' c' s' =>
      same_text l l' && same_list same_choice c c' && Bool.eqb s s'
  | NumericalQuestion l a t, NumericalQuestion l' a' t' =>
      same_text l l' && str_eqb a a' && str_eqb t t'
  | StringQuestion l a, StringQuestion l' a' =>
      same_text l l' && str_eqb a a'
  | _, _ => false
  end.

Definition same_solution (a b : Solution) : bool :=
  same_text (explanation a) (explanation b)
  && same_text (htmlContent a) (htmlContent b).

Definition same_block (a b : ProblemBlock) : bool :=
  match a, b with
  | QuestionBlock q s, QuestionBlock q' s' =>
      same_question q q' && same_option same_solution s s'
  | HtmlBlock c, HtmlBlock c' => same_text c c'
  | _, _ => false
  end.

(** Deep equality of two parsed documents, white space in the fields
    read from text and markup aside. *)
Definition same_parsed (a b : ParsedProblem) : bool :=
  same_metadata (metadata a) (metadata b)
  && same_text (introHtml a) (introHtml b)
  && same_list same_block (blocks a) (blocks b).

(** Two calls end alike: both return, with equal documents, or both throw
    the same message. *)
Definition same_result (a b : result ParsedProblem) : bool :=
  match a, b with
  | Ok x, Ok y => same_parsed x y
  | Throw m, Throw m' => str_eqb m m'
  | _, _ => false
  end.

(** *** What the parser reads, and what the formatter keeps of it

    [parseProblem] reads the inner markup of [html] elements and of
    solutions, the text of [label] and [choice] elements and of the
    paragraphs of a solution, and attributes.  The formatter keeps
    attributes, elements and comments beside elements; it drops a CDATA
    section beside elements, turns one in an element without element
    children into text, drops the comments of such an element, and empties
    an element that holds white space only. *)

(** The text content survives: beside element children, at any depth,
    a CDATA section holds white space only. *)
Fixpoint keeps_text (node : Node) : bool :=
  match node with
  | ElementNode _ _ kids =>
      negb (existsb isElement kids)
      || forallb (fun k => match k with
                           | CDataNode d => all_space d
                           | _ => keeps_text k
                           end) kids
  | _ => true
  end.

(** The inner markup survives: no CDATA section; an element without
    element children holds text only, and not white space only. *)
Fixpoint keeps_markup (node : Node) : bool :=
  match node with
  | TextNode _ => true
  | CDataNode _ => false
  | CommentNode _ => true
  | ElementNode _ _ kids =>
      if existsb isElement kids then forallb keeps_markup kids
      else forallb (fun k => nodeType k =? TEXT_NODE) kids
           && match kids with
              | [] => true
              | _ :: _ => truthy (trim (flat_map descendantText kids))
              end
  end.

(** The inner markup of the element survives: the same, but the element
    itself may hold white space only. *)
Definition keeps_inner (el : Node) : bool :=
  match el with
  | ElementNode _ _ kids =>
      if existsb isElement kids then forallb keeps_markup kids
      else forallb (fun k => nodeType k =? TEXT_NODE) kids
  | _ => true
  end.

(** A paragraph with element children that reads "Explanation" once the
    white space is taken out: the header test of [parseSolution] can see
    it before formatting and miss it after. *)
Definition is_split_header (p : Node) : bool :=
  existsb isElement (childNodes p)
  && str_eqb (strip_space (textContent p)) (lit "Explanation").

(** The first paragraph below a marker element is no such paragraph. *)
Definition header_ok (marker : Node) : bool :=
  match querySelectorAll marker (ByTag (lit "p")) with
  | p :: _ => negb (is_split_header p)
  | [] => true
  end.

(** A child whose text [keeps_text] lets pass beside elements. *)
Definition text_kid (k : Node) : bool :=
  match k with
  | CDataNode d => all_space d
  | _ => keeps_text k
  end.

(** What the parser reads of a question element keeps its text: the
    first [label] below it and, for a multiple-choice question, every
    [choice] below it. *)
Definition question_ok (el : Node) : bool :=
  match querySelector el (ByTag (lit "label")) with
  | Some label => keeps_text label
  | None => true
  end
  && (if tagIs el "multiplechoiceresponse"
      then forallb keeps_text (querySelectorAll el (ByTag (lit "choice")))
      else true).

(** What the parser reads of a solution survives: the inner markup of its
    marker element and the header test on the first paragraph below it,
    or the inner markup of the solution if it has no marker element. *)
Definition solution_ok (el : Node) : bool :=
  match querySelector el (ByClass (lit "detailed-solution")) with
  | Some marker => keeps_inner marker && header_ok marker
  | None => keeps_inner el
  end.

(** The main loop once more, for what it reads: the inner markup of each
    [html] child, each question, and each solution that follows a
    question. *)
Fixpoint reads_of (rest : list Node) : bool :=
  match rest with
  | [] => true
  | child :: rest1 =>
      if isHtmlEl child then keeps_inner child && reads_of rest1
      else if isQuestionEl child then
        question_ok child
        && match rest1 with
           | next :: rest2 =>
               if isSolutionEl next then solution_ok next && reads_of rest2
               else reads_of rest1
           | [] => true
           end
      else reads_of rest1
  end.

(** The formatter keeps what [parseProblem] reads of the document. *)
Definition reads_kept (root : Node) : bool :=
  match doc_querySelector {| documentElement := root |}
          (ByTag (lit "problem")) with
  | Some problemEl => reads_of (children problemEl)
  | None => true
  end.

(** [k'] is what the parser makes of the formatted [k], at some depth. *)
Definition reformatted (PADDING : str) (k k' : Node) : Prop :=
  exists indent, k' = reformat PADDING k indent.

(** The candidates of a selector below a node. *)
Definition withDescendants (k : Node) : list Node :=
  if isElement k then k :: descendants k else [].


(** A title whose ampersand is escaped twice. *)
Definition twiceEscaped : str :=
  lit "<problem display_name='R&amp;amp;D'></problem>".

(** Documents outside the conditions of the amended claims. *)
Definition commentInText : str :=
  lit "<problem><html>a<!--c--></html></problem>".

Definition blankElement : str :=
  lit "<problem><html><b> </b></html></problem>".

Definition splitHeader : str :=
  lit "<problem><multiplechoiceresponse/><solution><div class='detailed-solution'><p>Expla<b>nation</b></p><p>x</p></div></solution></problem>".

Definition cdataBesideElement : str :=
  lit "<problem><html><![CDATA[a]]><b/></html></problem>".

Definition cdataMarkup : str :=
  lit "<problem><html><p><![CDATA[<b/>]]></p></html></problem>".

(** A CDATA section beside an element, in a label. *)
Definition cdataInLabel : str :=
  lit "<problem><stringresponse answer='a'><label><![CDATA[a]]><b/></label></stringresponse></problem>".

(** A label with an element between its texts. *)
Definition mixedLabel : str :=
  lit "<problem><stringresponse answer='a'><label>a<b>x</b>c</label></stringresponse></problem>".

(** A title with a line feed, as a character reference puts it there. *)
Definition lineBreakInTitle : Node :=
  ElementNode (lit "problem") [(lit "display_name", [ "a"%char; LF; "b"%char ])]
    [].

(** A document with comments beside elements, a CDATA section and a
    comment in elements whose text alone is read, a choice, a solution and
    an [html] element of white space only, and a split "Explanation" that
    is no first paragraph. *)
Definition looseProblem : str :=
  lit "<problem display_name='My Problem'><!--note--><html><p>Intro <b>now</b></p><!--c--><i>x</i></html><multiplechoiceresponse><label><![CDATA[What?]]></label><choicegroup shuffle='true'><!--c--><choice correct='true'> </choice><choice>B<!--x--></choice></choicegroup></multiplechoiceresponse><solution><div class='detailed-solution'><p>Explanation</p><p>Expla<b>nation</b></p></div></solution><stringresponse answer='a  b'><label>Q</label></stringresponse><solution> </solution><html> </html></problem>".

(** A title with an ampersand, escaped once. *)
Definition onceEscaped : str :=
  lit "<problem display_name='R&amp;D'></problem>".

(** Formatting [xml] keeps it well formed and changes what is parsed. *)
Definition changesParse (xml : str) : Prop :=
  @wellFormed xmlParser xml /\
  @wellFormed xmlParser (formatXmlPreserveInline xml 2) /\
  same_result (parseProblem (formatXmlPreserveInline xml 2))
              (parseProblem xml) = false.

(* ================================================================= *)
(** ** The preview and the application ([ProblemPreview], [App.tsx]) *)

(** What [problem.blocks.map] of [ProblemPreview] returns for a block: an
    [HtmlBlockPreview], or a [QuestionBlockPreview] with the number the
    running counter has reached. *)
Inductive BlockPreview : Type :=
| HtmlBlockPreview (content : str)
| QuestionBlockPreview (question : Question) (solution : option Solution)
    (questionNumber : nat) (showSolutions : bool).

(** The [map] over the blocks, with the counter [questionNumber] of the
    enclosing render. *)
Fixpoint renderBlocks (blocks : list ProblemBlock) (questionNumber : nat)
  (showSolutions : bool) : list BlockPreview :=
  match blocks with
  | [] => []
  | HtmlBlock content :: rest =>
      HtmlBlockPreview content :: renderBlocks rest questionNumber showSolutions
  | QuestionBlock question solution :: rest =>
      QuestionBlockPreview question solution (S questionNumber) showSolutions
      :: renderBlocks rest (S questionNumber) showSolutions
  end.

Definition ProblemPreview (problem : ParsedProblem) (showSolutions : bool)
  : list BlockPreview :=
  renderBlocks (blocks problem) 0 showSolutions.

(** The block a preview was rendered from. *)
Definition shownBlock (b : BlockPreview) : ProblemBlock :=
  match b with
  | HtmlBlockPreview content => HtmlBlock content
  | QuestionBlockPreview question solution _ _ =>
      QuestionBlock question solution
  end.

Definition previewNumber (b : BlockPreview) : option nat :=
  match b with
  | HtmlBlockPreview _ => None
  | QuestionBlockPreview _ _ n _ => Some n
  end.

(** [s.replace(/\s+/g, '_')]: every longest run of white space becomes
    one underscore; [inRun] tells that the run has been replaced
    already. *)
Fixpoint replaceSpaceRuns (s : str) (inRun : bool) : str :=
  match s with
  | [] => []
  | c :: s' =>
      if is_js_space c
      then (if inRun then replaceSpaceRuns s' true
            else "_"%char :: replaceSpaceRuns s' true)
      else c :: replaceSpaceRuns s' false
  end.

(** The file name [handleDownload] gives the download. *)
Definition downloadName (parsedProblem : option ParsedProblem) : str :=
  match parsedProblem with
  | Some p =>
      if truthy (displayName (metadata p))
      then replaceSpaceRuns (displayName (metadata p)) false ++ lit ".xml"
      else lit "problem.xml"
  | None => lit "problem.xml"
  end.

(** The three pieces of state the parse effect of [App] sets. *)
Record AppState : Type := {
  parsedProblem : option ParsedProblem;
  parseError : option str;
  validationErrors : list ValidationError
}.

(** What the preview panel shows. *)
Inductive PreviewPanel : Type :=
| ParseErrorPanel (message : str)
| ProblemPanel (problem : ParsedProblem) (findings : list ValidationError)
| NoContentPanel.

(** [parseError ? ... : parsedProblem ? ... : ...] *)
Definition previewPanel (st : AppState) : PreviewPanel :=
  match parseError st with
  | Some m =>
      if truthy m then ParseErrorPanel m
      else match parsedProblem st with
           | Some p => ProblemPanel p (validationErrors st)
           | None => NoContentPanel
           end
  | None =>
      match parsedProblem st with
      | Some p => ProblemPanel p (validationErrors st)
      | None => NoContentPanel
      end
  end.

Section App.
Context {parser : DOMParser}.

(** The effect that runs when [xmlContent] changes: [try] to parse and
    validate, [catch] the error's message. *)
Definition parseEffect (xmlContent : str) : AppState :=
  match parseProblem xmlContent with
  | Ok parsed =>
      {| parsedProblem := Some parsed;
         parseError := None;
         validationErrors := validateProblem parsed |}
  | Throw m =>
      {| parsedProblem := None;
         parseError := Some m;
         validationErrors := [] |}
  end.

(** The elements of the parsed document, the root first. *)
Definition documentElements (xml : str) : list Node :=
  documentElement (parseFromString xml)
  :: descendants (documentElement (parseFromString xml)).

End App.

(* ----------------------------------------------------------------- *)
(** ** Further notions for the properties *)

(** The questions of the question blocks, in order. *)
Definition questionsOf (blocks : list ProblemBlock) : list Question :=
  flat_map (fun b => match b with
                     | QuestionBlock q _ => [q]
                     | HtmlBlock _ => []
                     end) blocks.

Definition isComment (n : Node) : bool := nodeType n =? COMMENT_NODE.

(** An element the main loop has no branch for. *)
Definition isUnknownEl (el : Node) : bool :=
  negb (isHtmlEl el) && negb (isQuestionEl el) && negb (isSolutionEl el).

Definition hasEmptyChoice (choices : list Choice) : bool :=
  existsb (fun c => negb (truthy (trim (text c)))) choices.

(** What the validator has nothing to say about. *)
Definition blockIsFine (b : ProblemBlock) : bool :=
  match b with
  | HtmlBlock _ => true
  | QuestionBlock q s =>
      negb (lacksExplanation s)
      && match q with
         | MultipleChoiceQuestion _ choices _ =>
             existsb correct choices && negb (hasEmptyChoice choices)
         | _ => true
         end
  end.

Definition indexOf (f : ValidationError) : nat :=
  match questionIndex f with Some n => n | None => 0 end.

(** The elements of a document in document order, as tag and
    attributes. *)
Definition elementList (root : Node) : list (str * list (str * str)) :=
  map (fun d => (tagName d, attributes d)) (root :: descendants root).

(** A problem below another root, and a document with an element that has
    the name of the parser's error element. *)
Definition wrappedProblem : str :=
  lit "<course><problem display_name='In'><stringresponse answer='a'/></problem></course>".

Definition parsererrorNamed : str :=
  lit "<problem><parsererror>odd name</parsererror></problem>".

Definition detachedSolution : str :=
  lit "<problem><stringresponse answer='a'/><hint/><solution>s</solution></problem>".

Definition unknownElementDoc : str :=
  lit "<problem><html>a</html><note/><stringresponse answer='a'/></problem>".

Definition rootOf (xml : str) : Node :=
  match parse_document xml with
  | Got root _ => root
  | Bad _ => TextNode []
  end.

Definition childOf (xml : str) (i : nat) : Node :=
  nth i (children (rootOf xml)) (TextNode []).

Definition attemptsDoc : str := lit "<problem max_attempts='12'/>".

(** A solution whose marker element holds text but no paragraph. *)
Definition bareSolution : Node :=
  ElementNode (lit "solution") []
    [ElementNode (lit "div") [(lit "class", lit "detailed-solution")]
       [TextNode (lit "Because.")]].

Definition optionToList {A : Type} (o : option A) : list A :=
  match o with Some x => [x] | None => [] end.

(** What [parseProblem] gives on [sampleProblem] with the model parser. *)
Definition sampleParsedXml : ParsedProblem :=
  match @parseProblem xmlParser sampleProblem with
  | Ok p => p
  | Throw _ =>
      {| metadata := {| displayName := []; maxAttempts := None;
                        markdown := None |};
         introHtml := []; blocks := [] |}
  end.

(* ================================================================= *)
(** * Properties *)

Unset Implicit Arguments.
Arguments lit : simpl never.
Arguments tagIs : simpl never.

Lemma str_eqb_eq (a b : str) : str_eqb a b = true <-> a = b.
Proof.
  revert b; induction a as [|x a IH]; intros [|y b]; simpl;
    try (split; [discriminate | discriminate]); try tauto.
  rewrite andb_true_iff, IH, Ascii.eqb_eq.
  split; [intros [-> ->]; reflexivity | intros H; inversion H; auto].
Qed.

Lemma str_eqb_refl (a : str) : str_eqb a a = true.
Proof. apply str_eqb_eq; reflexivity. Qed.

Lemma str_eqb_neq (a b : str) : str_eqb a b = false <-> a <> b.
Proof.
  rewrite <- str_eqb_eq. destruct (str_eqb a b); split; congruence.
Qed.

(** Two different literals never both name the tag of an element. *)
Lemma tagIs_exclusive (el : Node) (a b : string) :
  tagIs el a = true -> str_eqb (lit a) (lit b) = false -> tagIs el b = false.
Proof.
  unfold tagIs; intros Ha Hab. apply str_eqb_eq in Ha. rewrite Ha. exact Hab.
Qed.

(** One round of the loop, by the kind of [children[i]]. *)
Lemma processChildren_step (child : Node) (rest : list Node) (f : bool)
  (i : str) (b : list ProblemBlock) :
  processChildren (child :: rest) f i b =
  if isHtmlEl child then
    if f then processChildren rest f i (b ++ [parseHtmlBlock child])
    else processChildren rest f (i ++ innerHTML child) b
  else if isQuestionEl child then
    match rest with
    | next :: rest2 =>
        if isSolutionEl next
        then processChildren rest2 true i
               (b ++ [QuestionBlock (questionOf child) (Some (parseSolution next))])
        else processChildren rest true i
               (b ++ [QuestionBlock (questionOf child) None])
    | [] => processChildren rest true i
              (b ++ [QuestionBlock (questionOf child) None])
    end
  else processChildren rest f i b.
Proof.
  unfold isHtmlEl, isQuestionEl, isSolutionEl, questionOf.
  simpl processChildren.
  destruct (tagIs child "html") eqn:Hh.
  - destruct f; reflexivity.
  - destruct (tagIs child "multiplechoiceresponse") eqn:Hm; simpl.
    + destruct rest as [|next rest2]; [reflexivity|].
      destruct (tagIs next "solution"); reflexivity.
    + destruct (tagIs child "numericalresponse") eqn:Hn; simpl.
      * destruct rest as [|next rest2]; [reflexivity|].
        destruct (tagIs next "solution"); reflexivity.
      * destruct (tagIs child "stringresponse") eqn:Hs; simpl.
        -- destruct rest as [|next rest2]; [reflexivity|].
           destruct (tagIs next "solution"); reflexivity.
        -- reflexivity.
Qed.

Lemma solution_not_html (el : Node) :
  isSolutionEl el = true -> isHtmlEl el = false.
Proof.
  unfold isSolutionEl, isHtmlEl; intros H.
  apply (tagIs_exclusive el "solution" "html" H); reflexivity.
Qed.

Lemma solution_not_question (el : Node) :
  isSolutionEl el = true -> isQuestionEl el = false.
Proof.
  unfold isSolutionEl, isQuestionEl; intros H.
  rewrite (tagIs_exclusive el "solution" "multiplechoiceresponse" H eq_refl).
  rewrite (tagIs_exclusive el "solution" "numericalresponse" H eq_refl).
  rewrite (tagIs_exclusive el "solution" "stringresponse" H eq_refl).
  reflexivity.
Qed.

Lemma question_not_html (el : Node) :
  isQuestionEl el = true -> isHtmlEl el = false.
Proof.
  unfold isQuestionEl, isHtmlEl; intros H.
  destruct (tagIs el "html") eqn:Hh; [|reflexivity].
  rewrite (tagIs_exclusive el "html" "multiplechoiceresponse" Hh eq_refl) in H.
  rewrite (tagIs_exclusive el "html" "numericalresponse" Hh eq_refl) in H.
  rewrite (tagIs_exclusive el "html" "stringresponse" Hh eq_refl) in H.
  discriminate.
Qed.

(** The accumulators are only ever appended to. *)
Lemma processChildren_acc (l : list Node) :
  forall f i b,
    processChildren l f i b =
    (i ++ fst (processChildren l f [] []), b ++ snd (processChildren l f [] [])).
Proof.
  assert (H : forall n l, List.length l <= n -> forall f i b,
    processChildren l f i b =
    (i ++ fst (processChildren l f [] []), b ++ snd (processChildren l f [] []))).
  { induction n as [|n IH]; intros l0 Hl f i b.
    - destruct l0; [|simpl in Hl; lia]. simpl. now rewrite !app_nil_r.
    - destruct l0 as [|c rest]; [simpl; now rewrite !app_nil_r|].
      simpl in Hl.
      rewrite (processChildren_step c rest f i b).
      rewrite (processChildren_step c rest f [] []).
      destruct (isHtmlEl c).
      + destruct f.
        * rewrite (IH rest ltac:(lia) true i (b ++ _)).
          rewrite (IH rest ltac:(lia) true [] ([] ++ _)).
          simpl. now rewrite <- app_assoc.
        * rewrite (IH rest ltac:(lia) false (i ++ _) b).
          rewrite (IH rest ltac:(lia) false ([] ++ _) []).
          simpl. now rewrite <- app_assoc.
      + destruct (isQuestionEl c).
        * destruct rest as [|next rest2].
          -- simpl. now rewrite !app_nil_r.
          -- destruct (isSolutionEl next).
             ++ simpl in Hl.
                rewrite (IH rest2 ltac:(lia) true i (b ++ _)).
                rewrite (IH rest2 ltac:(lia) true [] ([] ++ _)).
                simpl. now rewrite <- app_assoc.
             ++ rewrite (IH (next :: rest2) ltac:(lia) true i (b ++ _)).
                rewrite (IH (next :: rest2) ltac:(lia) true [] ([] ++ _)).
                simpl. now rewrite <- app_assoc.
        * apply IH; lia. }
  intros f i b. apply (H (List.length l) l (le_n _)).
Qed.

Lemma crosses_cons (c : Node) (pre rest : list Node) :
  pre <> [] -> crosses (c :: pre) rest = crosses pre rest.
Proof.
  intros Hne. unfold crosses. simpl rev.
  destruct (rev pre) as [|q r] eqn:E.
  - apply (f_equal (@rev Node)) in E. rewrite rev_involutive in E.
    simpl in E. contradiction.
  - reflexivity.
Qed.

(** The loop over [pre ++ rest] is the loop over [pre] followed by the
    loop over [rest], unless a lookahead pairs across the cut. *)
Lemma processChildren_app (pre rest : list Node) :
  crosses pre rest = false ->
  forall f i b,
    processChildren (pre ++ rest) f i b =
    processChildren rest (f || existsb isQuestionEl pre)
      (fst (processChildren pre f i b)) (snd (processChildren pre f i b)).
Proof.
  assert (H : forall n pre, List.length pre <= n ->
    crosses pre rest = false ->
    forall f i b,
      processChildren (pre ++ rest) f i b =
      processChildren rest (f || existsb isQuestionEl pre)
        (fst (processChildren pre f i b)) (snd (processChildren pre f i b))).
  { induction n as [|n IH]; intros pre0 Hl Hc f i b.
    - destruct pre0; [|simpl in Hl; lia]. simpl. now rewrite orb_false_r.
    - destruct pre0 as [|c pre1]; [simpl; now rewrite orb_false_r|].
      simpl in Hl. simpl app.
      rewrite (processChildren_step c (pre1 ++ rest) f i b).
      rewrite (processChildren_step c pre1 f i b).
      assert (Hc1 : pre1 <> [] -> crosses pre1 rest = false).
      { intros Hne. rewrite <- (crosses_cons c pre1 rest Hne). exact Hc. }
      assert (Hc1' : pre1 = [] \/ crosses pre1 rest = false).
      { destruct pre1; [left; reflexivity | right; apply Hc1; discriminate]. }
      assert (IH1 : forall f i b,
        processChildren (pre1 ++ rest) f i b =
        processChildren rest (f || existsb isQuestionEl pre1)
          (fst (processChildren pre1 f i b)) (snd (processChildren pre1 f i b))).
      { destruct Hc1' as [-> | Hc1'].
        - intros; simpl; now rewrite orb_false_r.
        - apply IH; [lia | exact Hc1']. }
      simpl existsb.
      destruct (isHtmlEl c) eqn:Hh.
      + assert (Hq : isQuestionEl c = false).
        { destruct (isQuestionEl c) eqn:Hq; [|reflexivity].
          apply question_not_html in Hq. congruence. }
        rewrite Hq. simpl. destruct f; apply IH1.
      + destruct (isQuestionEl c) eqn:Hq.
        * rewrite orb_true_r.
          destruct pre1 as [|next pre2].
          -- simpl app. destruct rest as [|s rest2]; [reflexivity|].
             unfold crosses in Hc. simpl in Hc. rewrite Hq in Hc.
             simpl in Hc. rewrite Hc. reflexivity.
          -- simpl app. destruct (isSolutionEl next) eqn:Hs; rewrite ?Hs.
             ++ assert (Hc2 : pre2 = [] \/ crosses pre2 rest = false).
                { destruct pre2 as [|d pre3]; [left; reflexivity|right].
                  rewrite <- (crosses_cons next (d :: pre3) rest) by discriminate.
                  apply Hc1; discriminate. }
                destruct Hc2 as [-> | Hc2]; [reflexivity|].
                simpl in Hl. rewrite IH by (simpl; try lia; exact Hc2).
                reflexivity.
             ++ rewrite IH1. reflexivity.
        * simpl. apply IH1. }
  intros Hc f i b. apply (H (List.length pre) pre (le_n _) Hc).
Qed.

(** Before the first question the loop only collects the inner markup of
    the [html] children. *)
Lemma processChildren_intro (pre : list Node) :
  existsb isQuestionEl pre = false ->
  forall i b,
    processChildren pre false i b =
    (i ++ flat_map innerHTML (filter isHtmlEl pre), b).
Proof.
  induction pre as [|c pre IH]; intros Hq i b.
  - simpl. now rewrite app_nil_r.
  - simpl in Hq. apply orb_false_iff in Hq as [Hc Hpre].
    rewrite processChildren_step, Hc. simpl filter.
    destruct (isHtmlEl c).
    + rewrite IH by exact Hpre. simpl. now rewrite <- app_assoc.
    + apply IH; exact Hpre.
Qed.

(** Once a question has been seen the intro is left alone and every
    [html] child is pushed as a block of its own. *)
Lemma processChildren_found (l : list Node) :
  forall i b,
    fst (processChildren l true i b) = i /\
    filter isHtmlBlock (snd (processChildren l true i b)) =
    filter isHtmlBlock b ++ map parseHtmlBlock (filter isHtmlEl l).
Proof.
  assert (H : forall n l, List.length l <= n -> forall i b,
    fst (processChildren l true i b) = i /\
    filter isHtmlBlock (snd (processChildren l true i b)) =
    filter isHtmlBlock b ++ map parseHtmlBlock (filter isHtmlEl l)).
  { induction n as [|n IH]; intros l0 Hl i b.
    - destruct l0; [|simpl in Hl; lia]. simpl. now rewrite app_nil_r.
    - destruct l0 as [|c rest]; [simpl; now rewrite app_nil_r|].
      simpl in Hl. rewrite processChildren_step. simpl filter.
      destruct (isHtmlEl c) eqn:Hh.
      + destruct (IH rest ltac:(lia) i (b ++ [parseHtmlBlock c])) as [E1 E2].
        split; [exact E1|]. rewrite E2, filter_app. simpl.
        now rewrite <- app_assoc.
      + destruct (isQuestionEl c) eqn:Hq.
        * destruct rest as [|next rest2].
          -- simpl. split; [reflexivity|].
             rewrite filter_app. simpl. reflexivity.
          -- destruct (isSolutionEl next) eqn:Hs.
             ++ simpl in Hl.
                destruct (IH rest2 ltac:(lia) i
                  (b ++ [QuestionBlock (questionOf c) (Some (parseSolution next))]))
                  as [E1 E2].
                split; [exact E1|]. rewrite E2, filter_app. simpl.
                rewrite (solution_not_html _ Hs). now rewrite app_nil_r.
             ++ destruct (IH (next :: rest2) ltac:(lia) i
                  (b ++ [QuestionBlock (questionOf c) None])) as [E1 E2].
                split; [exact E1|]. rewrite E2, filter_app. simpl.
                now rewrite app_nil_r.
        * apply IH; lia. }
  intros i b. apply (H (List.length l) l (le_n _)).
Qed.

(* ----------------------------------------------------------------- *)
(** ** The parser on a well-formed document *)

Section ParserProperties.
Context {parser : DOMParser}.

Lemma parseProblem_root (xml : str) (el : Node) :
  wellFormed xml -> rootProblem xml el ->
  parseProblem xml = Ok (parseProblemEl el).
Proof.
  unfold wellFormed, rootProblem, parseProblem. intros Hwf [Hroot Htag].
  rewrite Hwf. unfold doc_querySelector. rewrite Hroot. simpl filter.
  rewrite Htag, str_eqb_refl. reflexivity.
Qed.

Lemma blocks_parseProblemEl (el : Node) :
  blocks (parseProblemEl el) = snd (processChildren (children el) false [] []).
Proof.
  unfold parseProblemEl.
  destruct (processChildren (children el) false [] []); reflexivity.
Qed.

Lemma introHtml_parseProblemEl (el : Node) :
  introHtml (parseProblemEl el) = fst (processChildren (children el) false [] []).
Proof.
  unfold parseProblemEl.
  destruct (processChildren (children el) false [] []); reflexivity.
Qed.

Lemma question_not_solution (el : Node) :
  isQuestionEl el = true -> isSolutionEl el = false.
Proof.
  intros Hq. destruct (isSolutionEl el) eqn:E; [|reflexivity].
  apply solution_not_question in E. congruence.
Qed.

(** A [solution] element that directly follows a question element is that
    question's explanation: the pair yields one question block, between
    the blocks of the children before and those of the children after. *)
Lemma paired_solution (children : list Node) (pre post : list Node)
  (q sol : Node) :
  children = pre ++ q :: sol :: post ->
  isQuestionEl q = true -> isSolutionEl sol = true ->
  snd (processChildren children false [] []) =
    snd (processChildren pre false [] [])
    ++ QuestionBlock (questionOf q) (Some (parseSolution sol))
    :: snd (processChildren post true [] []).
Proof.
  intros Hch Hq Hs. rewrite Hch.
  rewrite processChildren_app.
  - rewrite processChildren_step.
    rewrite (question_not_html _ Hq), Hq, Hs.
    rewrite processChildren_acc. simpl snd.
    now rewrite <- app_assoc.
  - unfold crosses. destruct (rev pre); [reflexivity|].
    rewrite (question_not_solution q Hq). now rewrite andb_false_r.
Qed.

(** A [solution] element that no question takes leaves no trace: the loop
    gives what it gives on the children without it. *)
Lemma unpaired_solution (pre post : list Node) (sol : Node) :
  isSolutionEl sol = true -> crosses pre [sol] = false ->
  processChildren (pre ++ sol :: post) false [] [] =
  processChildren (pre ++ post) false [] [].
Proof.
  intros Hs Hc.
  assert (Hc1 : crosses pre (sol :: post) = false).
  { unfold crosses in *. destruct (rev pre); [reflexivity | exact Hc]. }
  assert (Hc2 : crosses pre post = false).
  { unfold crosses in *. destruct (rev pre) as [|l r]; [reflexivity|].
    rewrite Hs, andb_true_r in Hc. rewrite Hc. now destruct post. }
  rewrite (processChildren_app pre (sol :: post) Hc1).
  rewrite (processChildren_app pre post Hc2).
  rewrite processChildren_step.
  now rewrite (solution_not_html _ Hs), (solution_not_question _ Hs).
Qed.

(** C3.  In the output of [parseProblem], a [solution] element whose
    preceding sibling element is a question element is that question's
    explanation and no block of its own; any other [solution] element is
    skipped: the result is the one for the children without it, and no
    error is raised. *)
Theorem C3_solution_pairing (xml : str) (problemEl : Node) :
  wellFormed xml -> rootProblem xml problemEl ->
  exists p,
    parseProblem xml = Ok p /\
    (forall pre q sol post,
        children problemEl = pre ++ q :: sol :: post ->
        isQuestionEl q = true -> isSolutionEl sol = true ->
        blocks p =
          snd (processChildren pre false [] [])
          ++ QuestionBlock (questionOf q) (Some (parseSolution sol))
          :: snd (processChildren post true [] [])) /\
    (forall pre sol post,
        children problemEl = pre ++ sol :: post ->
        isSolutionEl sol = true -> crosses pre [sol] = false ->
        (introHtml p, blocks p) = processChildren (pre ++ post) false [] []).
Proof.
  intros Hwf Hroot. exists (parseProblemEl problemEl).
  split; [apply parseProblem_root; assumption|]. split.
  - intros pre q sol post Hch Hq Hs. rewrite blocks_parseProblemEl.
    now apply paired_solution.
  - intros pre sol post Hch Hs Hc.
    rewrite blocks_parseProblemEl, introHtml_parseProblemEl, Hch.
    rewrite (unpaired_solution pre post sol Hs Hc).
    now destruct (processChildren (pre ++ post) false [] []).
Qed.

(** C5.  The [html] children before the first question element make up
    [introHtml], in order, and nothing else does; the [html] children from
    the first question element on are the content blocks, in order. *)
Theorem C5_intro_and_content_blocks
  (xml : str) (problemEl : Node) (pre rest : list Node) :
  wellFormed xml -> rootProblem xml problemEl ->
  children problemEl = pre ++ rest ->
  existsb isQuestionEl pre = false ->
  (rest = [] \/ exists q post, rest = q :: post /\ isQuestionEl q = true) ->
  exists p,
    parseProblem xml = Ok p /\
    introHtml p = flat_map innerHTML (filter isHtmlEl pre) /\
    filter isHtmlBlock (blocks p) = map parseHtmlBlock (filter isHtmlEl rest).
Proof.
  intros Hwf Hroot Hch Hpre Hrest. exists (parseProblemEl problemEl).
  split; [apply parseProblem_root; assumption|].
  rewrite blocks_parseProblemEl, introHtml_parseProblemEl, Hch.
  destruct Hrest as [-> | (q & post & -> & Hq)].
  - rewrite app_nil_r, (processChildren_intro pre Hpre). now split.
  - rewrite processChildren_app.
    + rewrite Hpre, (processChildren_intro pre Hpre). cbn [fst snd orb]. rewrite processChildren_step, (question_not_html _ Hq), Hq.
      simpl filter. rewrite (question_not_html _ Hq).
      cbn [app].
      destruct post as [|next post2].
      * simpl. now split.
      * destruct (isSolutionEl next) eqn:Hs.
        -- destruct (processChildren_found post2
                      (flat_map innerHTML (filter isHtmlEl pre))
                      [QuestionBlock (questionOf q) (Some (parseSolution next))])
             as [E1 E2].
           rewrite E1, E2. simpl. rewrite (solution_not_html _ Hs). now split.
        -- destruct (processChildren_found (next :: post2)
                      (flat_map innerHTML (filter isHtmlEl pre))
                      [QuestionBlock (questionOf q) None]) as [E1 E2].
           rewrite E1, E2. simpl. now split.
    + unfold crosses. destruct (rev pre); [reflexivity|].
      rewrite (question_not_solution q Hq). now rewrite andb_false_r.
Qed.

(** C10.  An empty [display_name] gives the same title as a missing one. *)
Theorem C10_empty_display_name (xml : str) (problemEl : Node) :
  wellFormed xml -> rootProblem xml problemEl ->
  getAttribute problemEl (lit "display_name") = Some []
  \/ getAttribute problemEl (lit "display_name") = None ->
  exists p,
    parseProblem xml = Ok p /\
    displayName (metadata p) = lit "Untitled Problem".
Proof.
  intros Hwf Hroot Hattr. exists (parseProblemEl problemEl).
  split; [apply parseProblem_root; assumption|].
  unfold parseProblemEl.
  destruct (processChildren (children problemEl) false [] []).
  simpl. destruct Hattr as [-> | ->]; reflexivity.
Qed.

(** C9.  When the parser reports an error, the formatter hands the input
    back as it is, whatever the indent size, and [parseProblem] throws an
    error whose message carries the parser's diagnostic; it returns no
    document. *)
Theorem C9_not_well_formed (xml : str) (parseError : Node) :
  doc_querySelector (parseFromString xml) (ByTag (lit "parsererror"))
    = Some parseError ->
  (forall indentSize, formatXmlPreserveInline xml indentSize = xml) /\
  parseProblem xml
    = Throw (lit "XML Parse Error: " ++ textContent parseError).
Proof.
  intros H. unfold formatXmlPreserveInline, parseProblem. rewrite H.
  split; [intros; reflexivity | reflexivity].
Qed.

End ParserProperties.

(* ----------------------------------------------------------------- *)
(** ** [max_attempts] *)

Lemma no_digit_trimStart (v : str) :
  existsb is_digit v = false -> existsb is_digit (trimStart v) = false.
Proof.
  induction v as [|c v IH]; intros H; [reflexivity|].
  simpl. destruct (is_js_space c); [|exact H].
  apply IH. simpl in H. now apply orb_false_iff in H.
Qed.

Lemma no_digit_start (s : str) :
  existsb is_digit s = false -> starts_with_digit s = false.
Proof.
  destruct s as [|c s]; [reflexivity|]. simpl. unfold is_digit.
  destruct (digit_of c); [discriminate | reflexivity].
Qed.

(** [parseInt] of a text with no digit in it is [NaN]. *)
Lemma parseInt10_no_digit (v : str) :
  existsb is_digit v = false -> parseInt10 v = NaN.
Proof.
  intros H. apply no_digit_trimStart in H. unfold parseInt10.
  destruct (trimStart v) as [|c r]; [reflexivity|].
  assert (Hr : existsb is_digit r = false)
    by (simpl in H; now apply orb_false_iff in H).
  destruct (Ascii.eqb c "-"); [now rewrite (no_digit_start r Hr)|].
  destruct (Ascii.eqb c "+"); [now rewrite (no_digit_start r Hr)|].
  now rewrite (no_digit_start (c :: r) H).
Qed.

(** C4 as stated fails: a [max_attempts] that is present but not numeric
    does not give [null]. *)
Lemma C4_counterexample :
  ~ (forall (xml : str) (problemEl : Node),
        wellFormed xml -> rootProblem xml problemEl ->
        (getAttribute problemEl (lit "max_attempts") = None
         \/ exists v, getAttribute problemEl (lit "max_attempts") = Some v
                      /\ is_numeric v = false) ->
        exists p, parseProblem xml = Ok p /\ maxAttempts (metadata p) = None).
Proof.
  intros H.
  destruct (H sampleProblem sampleRoot) as [p [Hp Hmax]].
  - vm_compute. reflexivity.
  - vm_compute. split; reflexivity.
  - right. exists (lit "many"). vm_compute. split; reflexivity.
  - vm_compute in Hp. injection Hp as <-. discriminate Hmax.
Qed.

(** C4, amended.  No error is raised; a missing or empty [max_attempts]
    gives [null]; a value that is not empty gives what [parseInt] reads
    from it, which is [NaN], not [null], when it holds no digit. *)
Theorem C4_max_attempts {parser : DOMParser} (xml : str) (problemEl : Node) :
  wellFormed xml -> rootProblem xml problemEl ->
  exists p,
    parseProblem xml = Ok p /\
    (getAttribute problemEl (lit "max_attempts") = None
     \/ getAttribute problemEl (lit "max_attempts") = Some [] ->
     maxAttempts (metadata p) = None) /\
    (forall v, getAttribute problemEl (lit "max_attempts") = Some v ->
               v <> [] ->
               maxAttempts (metadata p) = Some (parseInt10 v) /\
               (existsb is_digit v = false ->
                maxAttempts (metadata p) = Some NaN)).
Proof.
  intros Hwf Hroot. exists (parseProblemEl problemEl).
  split; [apply parseProblem_root; assumption|].
  unfold parseProblemEl.
  destruct (processChildren (children problemEl) false [] []).
  cbn [metadata maxAttempts parseMetadata]. split.
  - intros [-> | ->]; reflexivity.
  - intros v -> Hv. destruct v as [|c v]; [contradiction|].
    cbn [truthy]. split; [reflexivity|].
    intros Hd. now rewrite (parseInt10_no_digit (c :: v) Hd).
Qed.

Lemma C4_max_attempts_witness :
  exists p,
    parseProblem sampleProblem = Ok p /\
    maxAttempts (metadata p) = Some NaN.
Proof.
  destruct (@C4_max_attempts xmlParser sampleProblem sampleRoot) as [p [Hp [_ Hv]]].
  - vm_compute. reflexivity.
  - vm_compute. split; reflexivity.
  - exists p. split; [exact Hp|].
    apply (Hv (lit "many")).
    + vm_compute. reflexivity.
    + discriminate.
    + vm_compute. reflexivity.
Defined.

(* ----------------------------------------------------------------- *)
(** ** The claims on the sample document *)

Lemma C3_solution_pairing_witness :
  exists p,
    parseProblem sampleProblem = Ok p /\
    blocks p =
      snd (processChildren [sampleChild 0] false [] [])
      ++ QuestionBlock (questionOf (sampleChild 1))
           (Some (parseSolution (sampleChild 2)))
      :: snd (processChildren [sampleChild 3; sampleChild 4; sampleChild 5]
                true [] []) /\
    (introHtml p, blocks p) =
      processChildren
        ([sampleChild 0; sampleChild 1; sampleChild 2]
         ++ [sampleChild 4; sampleChild 5]) false [] [].
Proof.
  destruct (@C3_solution_pairing xmlParser sampleProblem sampleRoot)
    as [p [Hp [H1 H2]]].
  - vm_compute. reflexivity.
  - vm_compute. split; reflexivity.
  - exists p. split; [exact Hp|]. split.
    + apply (H1 [sampleChild 0] (sampleChild 1) (sampleChild 2)
               [sampleChild 3; sampleChild 4; sampleChild 5]);
        vm_compute; reflexivity.
    + apply (H2 [sampleChild 0; sampleChild 1; sampleChild 2] (sampleChild 3)
               [sampleChild 4; sampleChild 5]);
        vm_compute; reflexivity.
Defined.

Lemma C5_intro_and_content_blocks_witness :
  exists p,
    parseProblem sampleProblem = Ok p /\
    introHtml p = lit "<p>Intro</p>" /\
    filter isHtmlBlock (blocks p) = [HtmlBlock (lit "More")].
Proof.
  apply (@C5_intro_and_content_blocks xmlParser sampleProblem sampleRoot
           [sampleChild 0]
           [sampleChild 1; sampleChild 2; sampleChild 3; sampleChild 4;
            sampleChild 5]).
  - vm_compute. reflexivity.
  - vm_compute. split; reflexivity.
  - vm_compute. reflexivity.
  - vm_compute. reflexivity.
  - right. exists (sampleChild 1).
    exists [sampleChild 2; sampleChild 3; sampleChild 4; sampleChild 5].
    split; vm_compute; reflexivity.
Defined.

Lemma C10_empty_display_name_witness :
  exists p,
    parseProblem sampleProblem = Ok p /\
    displayName (metadata p) = lit "Untitled Problem".
Proof.
  apply (@C10_empty_display_name xmlParser sampleProblem sampleRoot).
  - vm_compute. reflexivity.
  - vm_compute. split; reflexivity.
  - left. vm_compute. reflexivity.
Defined.

Lemma C9_not_well_formed_witness :
  (forall indentSize,
      formatXmlPreserveInline malformedProblem indentSize = malformedProblem) /\
  parseProblem malformedProblem
    = Throw (lit "XML Parse Error: " ++ lit "mismatched end tag").
Proof.
  apply (@C9_not_well_formed xmlParser malformedProblem
           (ElementNode (lit "parsererror") []
              [TextNode (lit "mismatched end tag")])).
  vm_compute. reflexivity.
Defined.

(* ----------------------------------------------------------------- *)
(** ** The validator *)

Lemma validateBlocks_acc (l : list ProblemBlock) :
  forall k errs, validateBlocks l k errs = errs ++ validateBlocks l k [].
Proof.
  induction l as [|[q s | c] l IH]; intros k errs; simpl.
  - now rewrite app_nil_r.
  - rewrite (IH (S k) (errs ++ _)), (IH (S k) (validateQuestion _ _ _)).
    now rewrite app_assoc.
  - apply IH.
Qed.

(** The findings of a document, cut at one of its question blocks. *)
Lemma validateBlocks_split (pre post : list ProblemBlock) (q : Question)
  (s : option Solution) :
  forall k,
    validateBlocks (pre ++ QuestionBlock q s :: post) k [] =
    validateBlocks pre k []
    ++ validateQuestion (S (k + countBlocks pre)) q s
    ++ validateBlocks post (S (k + countBlocks pre)) [].
Proof.
  induction pre as [|[q' s' | c] pre IH]; intros k.
  - simpl. rewrite Nat.add_0_r. now rewrite validateBlocks_acc.
  - simpl app. simpl validateBlocks.
    rewrite validateBlocks_acc, IH.
    rewrite (validateBlocks_acc pre (S k) (validateQuestion _ _ _)).
    unfold countBlocks. simpl. rewrite <- !app_assoc.
    now rewrite Nat.add_succ_r.
  - simpl app. simpl validateBlocks. rewrite IH. reflexivity.
Qed.

Lemma validateQuestion_index (n : nat) (q : Question) (s : option Solution) :
  Forall (fun f => questionIndex f = Some n) (validateQuestion n q s).
Proof.
  unfold validateQuestion. apply Forall_app. split.
  - destruct q; try constructor. apply Forall_app. split.
    + destruct (negb _); repeat constructor.
    + destruct (0 <? _); repeat constructor.
  - destruct (lacksExplanation s); repeat constructor.
Qed.

(** Every finding carries the index of its question, counted from [k]. *)
Lemma validateBlocks_index (l : list ProblemBlock) :
  forall k,
    Forall (fun f => exists m, questionIndex f = Some m
                               /\ k < m <= k + countBlocks l)
           (validateBlocks l k []).
Proof.
  induction l as [|[q s | c] l IH]; intros k; simpl.
  - constructor.
  - rewrite validateBlocks_acc. apply Forall_app. split.
    + eapply Forall_impl; [|apply validateQuestion_index].
      intros f Hf. exists (S k). split; [exact Hf|].
      unfold countBlocks. simpl. lia.
    + eapply Forall_impl; [|apply IH].
      intros f [m [Hm Hr]]. exists m. split; [exact Hm|].
      unfold countBlocks in *. simpl. lia.
  - eapply Forall_impl; [|apply IH].
    intros f [m [Hm Hr]]. exists m. split; [exact Hm|].
    unfold countBlocks in *. simpl. lia.
Qed.

Lemma filter_nil_Forall {A : Type} (p : A -> bool) (l : list A) :
  Forall (fun x => p x = false) l -> filter p l = [].
Proof.
  induction 1 as [|x l Hx _ IH]; simpl; [reflexivity|]. now rewrite Hx.
Qed.

Lemma other_question_filtered (n k : nat) (l : list ProblemBlock)
  (p : ValidationError -> bool) :
  (n <= k \/ k + countBlocks l < n) ->
  filter (fun f => p f && about_question n f) (validateBlocks l k []) = [].
Proof.
  intros Hn. apply filter_nil_Forall.
  eapply Forall_impl; [|apply validateBlocks_index].
  intros f [m [Hm Hr]]. unfold about_question. rewrite Hm.
  replace (m =? n) with false; [now rewrite andb_false_r|].
  symmetry. apply Nat.eqb_neq. lia.
Qed.

(** C6.  Among the findings of [validateProblem], the errors about a
    multiple-choice block are exactly one, "Question N has no correct
    answer" with [questionIndex] N, when none of its choices is correct,
    and none when some choice is; N is the position of the block among the
    question blocks, from 1. *)
Theorem C6_no_correct_answer (parsed : ParsedProblem)
  (pre post : list ProblemBlock) (label : str) (choices : list Choice)
  (shuffle : bool) (solution : option Solution) :
  blocks parsed =
    pre ++ QuestionBlock (MultipleChoiceQuestion label choices shuffle) solution
        :: post ->
  let N := S (List.length (filter isQuestionBlock pre)) in
  filter (fun f => is_error f && about_question N f) (validateProblem parsed) =
    (if existsb correct choices then []
     else [ {| type := error;
               message := lit "Question " ++ string_of_nat N
                          ++ lit " has no correct answer";
               questionIndex := Some N |} ]).
Proof.
  intros Hb N. unfold validateProblem. rewrite Hb, validateBlocks_split.
  rewrite !filter_app.
  rewrite (other_question_filtered N 0 pre is_error)
    by (right; unfold N, countBlocks; simpl; lia).
  rewrite (other_question_filtered N _ post is_error)
    by (left; unfold N, countBlocks; simpl; lia).
  rewrite app_nil_r. simpl app. fold (countBlocks pre). fold N.
  change (S (countBlocks pre)) with N.
  unfold validateQuestion. rewrite !filter_app.
  assert (HN : (N =? N) = true) by apply Nat.eqb_refl.
  unfold noCorrectAnswer, emptyChoices, missingExplanation.
  destruct (existsb correct choices), (0 <? _), (lacksExplanation solution);
    cbn [negb filter is_error about_question type questionIndex andb app];
    rewrite ?HN; reflexivity.
Qed.

Lemma C6_no_correct_answer_witness :
  filter (fun f => is_error f && about_question 2 f)
         (validateProblem sampleParsed) =
  [ {| type := error;
       message := lit "Question 2 has no correct answer";
       questionIndex := Some 2 |} ].
Proof.
  apply (C6_no_correct_answer sampleParsed
           [HtmlBlock (lit "x");
            QuestionBlock (StringQuestion (lit "Q") (lit "a")) None]
           [] (lit "Q")
           [ {| text := lit "A"; correct := false |};
             {| text := lit "B"; correct := false |} ] false
           (Some {| explanation := lit "Add your explanation here";
                    htmlContent := [] |})).
  reflexivity.
Defined.

Lemma missing_not_other_question (n k : nat) (l : list ProblemBlock) :
  (n <= k \/ k + countBlocks l < n) ->
  ~ In (missingExplanation n) (validateBlocks l k []).
Proof.
  intros Hn Hin.
  pose proof (validateBlocks_index l k) as Hall.
  rewrite Forall_forall in Hall.
  destruct (Hall _ Hin) as [m [Hm Hr]].
  simpl in Hm. injection Hm as <-. lia.
Qed.

Lemma missing_in_validateQuestion (n : nat) (q : Question)
  (s : option Solution) :
  In (missingExplanation n) (validateQuestion n q s)
  <-> lacksExplanation s = true.
Proof.
  unfold validateQuestion. rewrite in_app_iff. split.
  - intros [Hq | Hs].
    + exfalso. destruct q as [l choices sh | |]; [|destruct Hq|destruct Hq].
      apply in_app_or in Hq. destruct Hq as [Hq | Hq].
      * destruct (negb _); [|destruct Hq].
        destruct Hq as [Hq | []]. discriminate Hq.
      * destruct (0 <? _); [|destruct Hq].
        destruct Hq as [Hq | []].
        unfold emptyChoices, missingExplanation in Hq.
        injection Hq as Hq. repeat apply app_inv_head in Hq.
        discriminate Hq.
    + destruct (lacksExplanation s); [reflexivity | destruct Hs].
  - intros ->. right. left. reflexivity.
Qed.

Lemma truthy_false (s : str) : truthy s = false <-> s = [].
Proof. destruct s; simpl; split; congruence. Qed.

(** C7.  The warning "Question N is missing an explanation" is among the
    findings exactly when the N-th question block has no explanation, or
    one that trims to the empty string, or one that is the placeholder
    text. *)
Theorem C7_missing_explanation (parsed : ParsedProblem)
  (pre post : list ProblemBlock) (q : Question) (solution : option Solution) :
  blocks parsed = pre ++ QuestionBlock q solution :: post ->
  let N := S (List.length (filter isQuestionBlock pre)) in
  In {| type := warning;
        message := lit "Question " ++ string_of_nat N
                   ++ lit " is missing an explanation";
        questionIndex := Some N |}
     (validateProblem parsed)
  <->
  (solution = None
   \/ exists s, solution = Some s
                /\ (trim (explanation s) = []
                    \/ explanation s = lit "Add your explanation here")).
Proof.
  intros Hb N. fold (missingExplanation N).
  unfold validateProblem. rewrite Hb, validateBlocks_split.
  rewrite !in_app_iff. simpl plus. fold N.
  change (S (countBlocks pre)) with N.
  rewrite missing_in_validateQuestion.
  assert (Hpre : ~ In (missingExplanation N) (validateBlocks pre 0 []))
    by (apply missing_not_other_question; right; unfold N, countBlocks;
        simpl; lia).
  assert (Hpost : ~ In (missingExplanation N) (validateBlocks post N []))
    by (apply missing_not_other_question; left; lia).
  assert (Hl : lacksExplanation solution = true <->
    (solution = None
     \/ exists s, solution = Some s
                  /\ (trim (explanation s) = []
                      \/ explanation s = lit "Add your explanation here"))).
  { destruct solution as [s|]; simpl.
    - rewrite orb_true_iff, negb_true_iff, truthy_false, str_eqb_eq. split.
      + intros H. right. exists s. split; [reflexivity | exact H].
      + intros [H | [s' [E H]]]; [discriminate|]. now injection E as <-.
    - split; [now left | reflexivity]. }
  rewrite <- Hl. tauto.
Qed.

Lemma C7_missing_explanation_witness :
  In {| type := warning;
        message := lit "Question 2 is missing an explanation";
        questionIndex := Some 2 |}
     (validateProblem sampleParsed).
Proof.
  apply (C7_missing_explanation sampleParsed
           [HtmlBlock (lit "x");
            QuestionBlock (StringQuestion (lit "Q") (lit "a")) None]
           []
           (MultipleChoiceQuestion (lit "Q")
              [ {| text := lit "A"; correct := false |};
                {| text := lit "B"; correct := false |} ] false)
           (Some {| explanation := lit "Add your explanation here";
                    htmlContent := [] |})).
  - reflexivity.
  - right. eexists. split; [reflexivity|]. right. reflexivity.
Defined.

(* ----------------------------------------------------------------- *)
(** ** [parseSolution] *)

Lemma forEachParagraph_later (ps : list Node) :
  forall k texts,
    forEachParagraph ps (S k) texts =
    texts ++ map (fun p => trim (textContent p)) ps.
Proof.
  induction ps as [|p ps IH]; intros k texts; simpl.
  - now rewrite app_nil_r.
  - rewrite IH, <- app_assoc. reflexivity.
Qed.

Lemma forEachParagraph_dropHeader (ps : list Node) :
  forEachParagraph ps 0 [] =
  dropHeader (map (fun p => trim (textContent p)) ps).
Proof.
  destruct ps as [|p ps]; [reflexivity|].
  simpl. destruct (str_eqb (trim (textContent p)) (lit "Explanation"));
    rewrite forEachParagraph_later; reflexivity.
Qed.

(** C8 as stated fails: a paragraph below the marker element that is not
    its direct child is collected all the same. *)
Lemma C8_counterexample :
  querySelector nestedSolution (ByClass (lit "detailed-solution")) <> None /\
  explanation (parseSolution nestedSolution) = lit "Deep" /\
  explanation (parseSolution_direct_paragraphs nestedSolution) = [] /\
  parseSolution nestedSolution <> parseSolution_direct_paragraphs nestedSolution.
Proof.
  split; [vm_compute; discriminate|].
  split; [vm_compute; reflexivity|].
  split; [vm_compute; reflexivity|].
  vm_compute. discriminate.
Qed.

(** C8, amended.  With a marker element, the explanation is made of the
    trimmed texts of all [p] elements below it, at any depth, in document
    order, without the first when it reads "Explanation", joined by line
    feeds, and [htmlContent] is the marker's inner markup; without one,
    [htmlContent] is the element's inner markup and the explanation its
    trimmed text. *)
Theorem C8_parseSolution (el : Node) :
  (forall marker,
      querySelector el (ByClass (lit "detailed-solution")) = Some marker ->
      explanation (parseSolution el) =
        join [LF]
          (dropHeader
             (map (fun p => trim (textContent p))
                  (querySelectorAll marker (ByTag (lit "p"))))) /\
      htmlContent (parseSolution el) = innerHTML marker) /\
  (querySelector el (ByClass (lit "detailed-solution")) = None ->
   explanation (parseSolution el) = trim (textContent el) /\
   htmlContent (parseSolution el) = innerHTML el).
Proof.
  unfold parseSolution. split.
  - intros marker ->. cbn [explanation htmlContent].
    now rewrite forEachParagraph_dropHeader.
  - intros ->. split; reflexivity.
Qed.

Lemma C8_parseSolution_witness :
  explanation (parseSolution nestedSolution) = lit "Deep" /\
  explanation (parseSolution (ElementNode (lit "solution") []
                                [TextNode (lit " Plain ")])) = lit "Plain".
Proof.
  split.
  - destruct (C8_parseSolution nestedSolution) as [H _].
    destruct (H (ElementNode (lit "div") [(lit "class", lit "detailed-solution")]
                   [ElementNode (lit "div") []
                      [ElementNode (lit "p") [] [TextNode (lit "Deep")]]]))
      as [He _].
    + vm_compute. reflexivity.
    + rewrite He. vm_compute. reflexivity.
  - destruct (C8_parseSolution (ElementNode (lit "solution") []
                                  [TextNode (lit " Plain ")])) as [_ H].
    destruct H as [He _].
    + vm_compute. reflexivity.
    + rewrite He. vm_compute. reflexivity.
Defined.

(* ================================================================= *)
(** * The formatter composed with the parser *)

(** ** Induction on trees *)

Lemma Node_induction (P : Node -> Prop) :
  (forall d, P (TextNode d)) ->
  (forall d, P (CDataNode d)) ->
  (forall d, P (CommentNode d)) ->
  (forall tag attrs kids, Forall P kids -> P (ElementNode tag attrs kids)) ->
  forall n, P n.
Proof.
  intros Ht Hc Hm He.
  fix IH 1. intros [d | d | d | tag attrs kids].
  - apply Ht.
  - apply Hc.
  - apply Hm.
  - apply He. induction kids as [|k kids IHk]; constructor.
    + apply IH.
    + exact IHk.
Qed.

(** ** Trimming *)

Lemma trimStart_space_app (w s : str) :
  all_space w = true -> trimStart (w ++ s) = trimStart s.
Proof.
  induction w as [|c w IH]; simpl; intros H; [reflexivity|].
  apply andb_true_iff in H as [Hc Hw]. rewrite Hc. now apply IH.
Qed.

Lemma trimStart_all_space (w : str) : all_space w = true -> trimStart w = [].
Proof.
  intros H. rewrite <- (app_nil_r w). now rewrite trimStart_space_app.
Qed.

Lemma all_space_rev (w : str) : all_space (rev w) = all_space w.
Proof.
  unfold all_space. induction w as [|c w IH]; [reflexivity|].
  simpl. rewrite forallb_app, IH. simpl. rewrite andb_true_r.
  apply andb_comm.
Qed.

Lemma trimEnd_app_space (s w : str) :
  all_space w = true -> trimEnd (s ++ w) = trimEnd s.
Proof.
  intros H. unfold trimEnd. rewrite rev_app_distr.
  rewrite trimStart_space_app; [reflexivity|]. now rewrite all_space_rev.
Qed.

Lemma trimStart_tight (s : str) : tight s = true -> trimStart s = s.
Proof.
  unfold tight. destruct s as [|c s]; [discriminate|].
  intros H. apply andb_true_iff in H as [Hc _].
  simpl. apply negb_true_iff in Hc. now rewrite Hc.
Qed.

Lemma tight_rev (s : str) : tight (rev s) = tight s.
Proof.
  unfold tight. rewrite rev_involutive.
  destruct s as [|c s]; [reflexivity|]. apply andb_comm.
Qed.

Lemma trimEnd_tight (s : str) : tight s = true -> trimEnd s = s.
Proof.
  intros H. unfold trimEnd. rewrite trimStart_tight.
  - apply rev_involutive.
  - now rewrite tight_rev.
Qed.

(** White space around a tight string is what [trim] removes. *)
Lemma trim_tight (w1 s w2 : str) :
  all_space w1 = true -> all_space w2 = true -> tight s = true ->
  trim (w1 ++ s ++ w2) = s.
Proof.
  intros H1 H2 Hs. unfold trim.
  rewrite trimStart_space_app by exact H1.
  assert (Hs' : trimStart (s ++ w2) = s ++ w2).
  { unfold tight in Hs. destruct s as [|c s]; [discriminate|].
    apply andb_true_iff in Hs as [Hc _]. apply negb_true_iff in Hc.
    simpl. now rewrite Hc. }
  rewrite Hs', trimEnd_app_space by exact H2.
  now apply trimEnd_tight.
Qed.

Lemma trim_all_space (w : str) : all_space w = true -> trim w = [].
Proof.
  intros H. unfold trim. now rewrite trimStart_all_space.
Qed.

Lemma trimStart_head (s : str) :
  match trimStart s with
  | c :: _ => is_js_space c = false
  | [] => True
  end.
Proof.
  induction s as [|c s IH]; simpl; [exact I|].
  destruct (is_js_space c) eqn:E; [exact IH | exact E].
Qed.

Lemma trimStart_last (s : str) (d : ascii) :
  (exists r, rev s = d :: r) -> is_js_space d = false ->
  exists r', rev (trimStart s) = d :: r'.
Proof.
  induction s as [|c s IH]; simpl; intros [r Hr] Hd; [discriminate|].
  destruct (is_js_space c) eqn:E.
  - destruct (rev s) as [|d' r0] eqn:Es.
    + simpl in Hr. injection Hr as <- _. congruence.
    + simpl in Hr. injection Hr as -> _.
      apply IH; [exists r0; reflexivity | exact Hd].
  - simpl. exists r. exact Hr.
Qed.

(** The result of [trim] is empty or tight. *)
Lemma trim_result (s : str) : trim s = [] \/ tight (trim s) = true.
Proof.
  unfold trim, trimEnd.
  pose proof (trimStart_head (rev (trimStart s))) as Hend.
  destruct (trimStart (rev (trimStart s))) as [|d r] eqn:E.
  - left. reflexivity.
  - right. rewrite tight_rev. unfold tight. rewrite Hend. simpl.
    (* the first character of [trimStart s] is the last of the reverse *)
    assert (Hne : rev (trimStart s) <> []) by (intros H0; rewrite H0 in E; discriminate).
    pose proof (trimStart_head s) as Hstart.
    destruct (trimStart s) as [|c t] eqn:Et; [contradiction Hne; reflexivity|].
    destruct (trimStart_last (rev (c :: t)) c) as [r' Hr'].
    + exists t. now rewrite rev_involutive.
    + exact Hstart.
    + rewrite E in Hr'. simpl in Hr'. rewrite Hr'. now rewrite Hstart.
Qed.

Lemma trim_idempotent (s : str) : trim (trim s) = trim s.
Proof.
  destruct (trim_result s) as [-> | H]; [reflexivity|].
  rewrite <- (app_nil_r (trim s)) at 1.
  apply (trim_tight [] (trim s) [] eq_refl eq_refl H).
Qed.

Lemma tight_app (a m b : str) :
  tight a = true -> tight b = true -> tight (a ++ m ++ b) = true.
Proof.
  unfold tight. intros Ha Hb.
  destruct a as [|c a]; [discriminate|].
  apply andb_true_iff in Ha as [Hc _].
  apply andb_true_iff in Hb as [_ Hd].
  simpl app at 1. cbv iota beta. rewrite Hc. simpl andb.
  rewrite !rev_app_distr.
  destruct (rev b) as [|d r]; [discriminate|]. exact Hd.
Qed.

Lemma forallb_rev {A : Type} (p : A -> bool) (l : list A) :
  forallb p (rev l) = forallb p l.
Proof.
  induction l as [|x l IH]; [reflexivity|].
  simpl. rewrite forallb_app, IH. simpl. rewrite andb_true_r.
  apply andb_comm.
Qed.

Lemma forallb_trimStart (p : ascii -> bool) (s : str) :
  forallb p s = true -> forallb p (trimStart s) = true.
Proof.
  induction s as [|c s IH]; simpl; intros H; [reflexivity|].
  destruct (is_js_space c); [|exact H].
  apply andb_true_iff in H as [_ H]. now apply IH.
Qed.

Lemma forallb_trim (p : ascii -> bool) (s : str) :
  forallb p s = true -> forallb p (trim s) = true.
Proof.
  intros H. unfold trim, trimEnd. rewrite forallb_rev.
  apply forallb_trimStart. rewrite forallb_rev.
  now apply forallb_trimStart.
Qed.

(** ** Indentation *)

Lemma forallb_repeat_str (p : ascii -> bool) (s : str) (n : nat) :
  forallb p s = true -> forallb p (repeat_str s n) = true.
Proof.
  intros H. induction n as [|n IH]; [reflexivity|].
  simpl. now rewrite forallb_app, H, IH.
Qed.

Lemma forallb_pad (p : ascii -> bool) (n i : nat) :
  p " "%char = true -> forallb p (repeat_str (spaces n) i) = true.
Proof.
  intros H. apply forallb_repeat_str. apply forallb_repeat_str.
  simpl. now rewrite H.
Qed.

(** ** The scanners on text that needs no escaping *)

Ltac ascii_cases c :=
  destruct c as [[] [] [] [] [] [] [] []]; vm_compute;
  intros; first [reflexivity | discriminate | congruence].

Lemma name_start_not_space (c : ascii) :
  is_name_start c = true -> is_xml_space c = false.
Proof. ascii_cases c. Qed.

Lemma name_start_is_name_char (c : ascii) :
  is_name_start c = true -> is_name_char c = true.
Proof. unfold is_name_char. now intros ->. Qed.

Lemma name_start_not_punct (c : ascii) :
  is_name_start c = true ->
  Ascii.eqb ">" c = false /\ Ascii.eqb "/" c = false /\ Ascii.eqb "!" c = false
  /\ Ascii.eqb "<" c = false.
Proof.
  intros H. repeat split; revert H; ascii_cases c.
Qed.

Lemma span_app (p : ascii -> bool) (a : str) (c : ascii) (r : str) :
  forallb p a = true -> p c = false -> span p (a ++ c :: r) = (a, c :: r).
Proof.
  intros Ha Hc. induction a as [|x a IH]; simpl.
  - now rewrite Hc.
  - simpl in Ha. apply andb_true_iff in Ha as [Hx Ha].
    now rewrite Hx, (IH Ha).
Qed.

Lemma span_all (p : ascii -> bool) (a : str) :
  forallb p a = true -> span p a = (a, []).
Proof.
  intros Ha. induction a as [|x a IH]; simpl; [reflexivity|].
  simpl in Ha. apply andb_true_iff in Ha as [Hx Ha].
  now rewrite Hx, (IH Ha).
Qed.

Lemma strip_prefix_app (p r : str) : strip_prefix p (p ++ r) = Some r.
Proof.
  induction p as [|x p IH]; simpl; [now destruct r|].
  now rewrite Ascii.eqb_refl.
Qed.

Lemma skip_space_stop (c : ascii) (r : str) :
  is_xml_space c = false -> skip_space (c :: r) = c :: r.
Proof. unfold skip_space. simpl. now intros ->. Qed.

Lemma parse_name_app (n : str) (c : ascii) (r : str) :
  is_name n = true -> is_name_char c = false ->
  parse_name (n ++ c :: r) = Got n (c :: r).
Proof.
  unfold is_name, parse_name. destruct n as [|x n]; [discriminate|].
  intros H Hc. apply andb_true_iff in H as [Hx Hn].
  rewrite (span_app is_name_char (x :: n) c r Hn Hc).
  cbn [app]. now rewrite Hx.
Qed.

Lemma decode_plain (s : str) :
  forallb (fun c => negb (is_markup_char c)) s = true ->
  decode None s = Some s.
Proof.
  induction s as [|c s IH]; simpl; intros H; [reflexivity|].
  apply andb_true_iff in H as [Hc Hs].
  unfold is_markup_char in Hc. apply negb_true_iff, orb_false_iff in Hc.
  destruct Hc as [Hc _]. now rewrite Hc, (IH Hs).
Qed.

Lemma forallb_weaken {A : Type} (p q : A -> bool) (l : list A) :
  (forall x, p x = true -> q x = true) ->
  forallb p l = true -> forallb q l = true.
Proof.
  intros Hpq. induction l as [|x l IH]; simpl; [reflexivity|].
  intros H. apply andb_true_iff in H as [Hx Hl].
  now rewrite (Hpq x Hx), (IH Hl).
Qed.

Lemma value_char_stays (c : ascii) :
  is_value_char c = true ->
  is_xml_char c = true /\ normalize_attr_char c = c.
Proof. split; revert H; ascii_cases c. Qed.

Lemma parse_attr_value_app (v r : str) :
  attr_value_ok v = true -> forallb is_value_char v = true ->
  parse_attr_value DQ (v ++ DQ :: r) = Got v r.
Proof.
  intros Hok Hv. unfold parse_attr_value.
  rewrite (span_app (fun c => negb (Ascii.eqb c DQ)) v DQ r).
  - assert (Hchar : forallb is_xml_char v = true).
    { apply (forallb_weaken is_value_char); [|exact Hv].
      intros x Hx. apply (value_char_stays x Hx). }
    rewrite Hchar. simpl negb. cbv iota.
    assert (Hlt : existsb (Ascii.eqb "<") v = false).
    { unfold attr_value_ok in Hok. clear Hv Hchar.
      induction v as [|c v IH]; [reflexivity|].
      cbn [forallb existsb] in Hok |- *.
      apply andb_true_iff in Hok as [Hc Hok].
      rewrite (IH Hok), orb_false_r.
      apply andb_true_iff in Hc as [Hc _].
      unfold is_markup_char in Hc. apply negb_true_iff, orb_false_iff in Hc.
      destruct Hc as [_ Hc]. now rewrite Ascii.eqb_sym. }
    rewrite Hlt.
    assert (Hnorm : map normalize_attr_char v = v).
    { clear Hok Hchar Hlt. induction v as [|c v IH]; [reflexivity|].
      simpl in Hv |- *. apply andb_true_iff in Hv as [Hc Hv].
      rewrite (IH Hv). f_equal. apply (value_char_stays c Hc). }
    rewrite Hnorm, decode_plain; [reflexivity|].
    apply (forallb_weaken _ _ v (fun x Hx => proj1 (andb_prop _ _ Hx)) Hok).
  - apply (forallb_weaken _ _ v (fun x Hx => proj2 (andb_prop _ _ Hx)) Hok).
  - now rewrite Ascii.eqb_refl.
Qed.

Lemma scan_comment_app (d r : str) :
  comment_ok d = true -> scan_comment (d ++ lit "-->" ++ r) = Got d r.
Proof.
  induction d as [|c d IH]; intros H.
  - reflexivity.
  - cbn [comment_ok] in H. apply andb_true_iff in H as [H Hd].
    apply andb_true_iff in H as [Hc Hdash].
    cbn [app scan_comment].
    destruct (Ascii.eqb c "-") eqn:Ec.
    + destruct d as [|e d']; [discriminate|].
      apply negb_true_iff in Hdash. cbn [app]. rewrite Hdash.
      change (e :: d' ++ lit "-->" ++ r) with ((e :: d') ++ lit "-->" ++ r).
      now rewrite (IH Hd).
    + now rewrite Hc, (IH Hd).
Qed.

Lemma starts_with_cons (x : ascii) (p s : str) (y : ascii) :
  starts_with (x :: p) (y :: s) = Ascii.eqb x y && starts_with p s.
Proof.
  unfold starts_with. cbn [strip_prefix]. now destruct (Ascii.eqb x y).
Qed.

(** Joining two runs at a line feed makes no [']]>']. *)
Lemma no_cdata_end_app (a b : str) :
  no_cdata_end a = true -> no_cdata_end (LF :: b) = true ->
  no_cdata_end (a ++ LF :: b) = true.
Proof.
  intros Ha Hb. induction a as [|x a IH]; [exact Hb|].
  cbn [no_cdata_end] in Ha. apply andb_true_iff in Ha as [Hx Ha].
  cbn [app no_cdata_end]. rewrite (IH Ha), andb_true_r.
  apply negb_true_iff. apply negb_true_iff in Hx.
  change (lit "]]>") with ["]"%char; "]"%char; ">"%char] in *.
  rewrite starts_with_cons in *.
  destruct (Ascii.eqb "]" x); [|reflexivity]. cbn [andb] in *.
  destruct a as [|y a]; [reflexivity|]. cbn [app] in *.
  rewrite starts_with_cons in *.
  destruct (Ascii.eqb "]" y); [|reflexivity]. cbn [andb] in *.
  destruct a as [|z a]; [reflexivity|]. cbn [app] in *.
  rewrite starts_with_cons in *.
  destruct (Ascii.eqb ">" z); [|reflexivity]. cbn [andb] in *.
  exact Hx.
Qed.

Lemma no_cdata_end_LF (b : str) :
  no_cdata_end b = true -> no_cdata_end (LF :: b) = true.
Proof. intros H. cbn [no_cdata_end]. rewrite H. reflexivity. Qed.

Lemma parse_text_app (raw r : str) :
  run_ok raw = true ->
  parse_text (raw ++ "<"%char :: r) = Got raw ("<"%char :: r).
Proof.
  unfold run_ok, parse_text. intros H.
  apply andb_true_iff in H as [Hc Hn].
  rewrite (span_app (fun c => negb (Ascii.eqb c "<")) raw "<" r).
  - rewrite (forallb_weaken _ _ raw (fun x Hx => proj1 (andb_prop _ _ Hx)) Hc).
    rewrite Hn. simpl negb. cbv iota.
    rewrite decode_plain; [reflexivity|].
    apply (forallb_weaken _ _ raw (fun x Hx => proj2 (andb_prop _ _ Hx)) Hc).
  - apply (forallb_weaken is_run_char); [|exact Hc].
    intros x Hx. unfold is_run_char, is_markup_char in Hx.
    apply andb_true_iff in Hx as [_ Hx].
    apply negb_true_iff, orb_false_iff in Hx. now rewrite (proj2 Hx).
  - reflexivity.
Qed.

Lemma has_attr_cons (k n v : str) (l : list (str * str)) :
  has_attr k ((n, v) :: l) = str_eqb n k || has_attr k l.
Proof.
  unfold has_attr. cbn [lookup_attr]. now destruct (str_eqb n k).
Qed.

Lemma is_name_head (n : str) :
  is_name n = true ->
  exists x n', n = x :: n' /\ is_name_start x = true.
Proof.
  destruct n as [|x n']; [discriminate|]. intros H.
  apply andb_true_iff in H as [Hx _]. now exists x, n'.
Qed.

Lemma attrsString_cons (n v : str) (l : list (str * str)) (r : str) :
  attrsString ((n, v) :: l) ++ r =
  " "%char :: n ++ "="%char :: DQ :: v ++ DQ :: attrsString l ++ r.
Proof.
  unfold attrsString, attrString. cbn [flat_map fst snd].
  unfold lit. cbn [list_ascii_of_string app].
  rewrite <- !app_assoc. cbn [app]. rewrite <- !app_assoc. reflexivity.
Qed.

(** The printed attributes are read back as they were. *)
Lemma parse_attrs_app (attrs : list (str * str)) :
  forall fuel acc rest,
    List.length attrs < fuel ->
    forallb attr_wf attrs = true ->
    forallb (fun a => attr_value_ok (snd a)) attrs = true ->
    distinct_names attrs = true ->
    (forall k, has_attr k acc = true -> has_attr k attrs = false) ->
    parse_attrs fuel acc (attrsString attrs ++ ">"%char :: rest)
    = Got (rev acc ++ attrs, false) rest.
Proof.
  induction attrs as [|[n v] attrs IH]; intros fuel acc rest Hf Hwf Hok Hd Hacc.
  - destruct fuel as [|fuel]; [simpl in Hf; lia|].
    cbn [attrsString flat_map app parse_attrs].
    rewrite skip_space_stop by reflexivity.
    now rewrite app_nil_r.
  - destruct fuel as [|fuel]; [simpl in Hf; lia|].
    cbn [forallb fst snd] in Hwf, Hok.
    apply andb_true_iff in Hwf as [Hnv Hwf]. unfold attr_wf in Hnv.
    cbn [fst snd] in Hnv.
    apply andb_true_iff in Hnv as [Hn Hv].
    apply andb_true_iff in Hn as [Hn Hns]. apply negb_true_iff in Hns.
    apply andb_true_iff in Hok as [Hvok Hok].
    cbn [distinct_names] in Hd. apply andb_true_iff in Hd as [Hfresh Hd].
    apply negb_true_iff in Hfresh.
    destruct (is_name_head n Hn) as (x & n' & -> & Hx).
    destruct (name_start_not_punct x Hx) as (Hgt & Hsl & _ & _).
    rewrite attrsString_cons. cbn [parse_attrs app].
    assert (Hsk : skip_space (" "%char :: x :: n' ++ "="%char :: DQ :: v ++ DQ
                               :: attrsString attrs ++ ">"%char :: rest)
                  = x :: n' ++ "="%char :: DQ :: v ++ DQ
                      :: attrsString attrs ++ ">"%char :: rest).
    { unfold skip_space. cbn [span].
      change (is_xml_space " ") with true. cbv iota.
      rewrite (name_start_not_space x Hx). reflexivity. }
    rewrite Hsk.
    unfold lit. cbn [list_ascii_of_string strip_prefix]. rewrite Hgt, Hsl.
    change (is_xml_space " ") with true. cbn [negb].
    change (x :: n' ++ "="%char :: DQ :: v ++ DQ
              :: attrsString attrs ++ ">"%char :: rest)
      with ((x :: n') ++ "="%char :: DQ :: v ++ DQ
              :: attrsString attrs ++ ">"%char :: rest).
    rewrite (parse_name_app (x :: n') "=" _ Hn eq_refl).
    rewrite skip_space_stop by reflexivity.
    cbn [strip_prefix]. change (Ascii.eqb "=" "=") with true. cbv iota.
    rewrite skip_space_stop by reflexivity.
    change (Ascii.eqb DQ DQ) with true. cbn [orb].
    rewrite (parse_attr_value_app v _ Hvok Hv).
    assert (Hnew : has_attr (x :: n') acc = false).
    { destruct (has_attr (x :: n') acc) eqn:E; [|reflexivity].
      apply Hacc in E. rewrite has_attr_cons, str_eqb_refl in E. discriminate. }
    rewrite Hnew, Hns.
    transitivity (@Got (list (str * str) * bool)
                    (rev ((x :: n', v) :: acc) ++ attrs, false) rest);
      [|cbn [rev]; rewrite <- app_assoc; reflexivity].
    apply IH.
    + simpl in Hf. lia.
    + exact Hwf.
    + exact Hok.
    + exact Hd.
    + intros k Hk. rewrite has_attr_cons in Hk.
      apply orb_true_iff in Hk as [Hk | Hk].
      * apply str_eqb_eq in Hk. subst k. exact Hfresh.
      * apply Hacc in Hk. rewrite has_attr_cons in Hk.
        now apply orb_false_iff in Hk.
Qed.

(** ** [formatNode] and [reformat] unfolded *)

Lemma hasOnlyText_no_element (kids : list Node) :
  hasOnlyText kids = true -> existsb isElement kids = false.
Proof.
  destruct kids as [|[d | d | d | t a k] [|k2 kids]]; try discriminate.
  reflexivity.
Qed.

Lemma formatNode_element (PADDING tag : str) (attrs : list (str * str))
  (kids : list Node) (indent : nat) :
  formatNode PADDING (ElementNode tag attrs kids) indent =
  repeat_str PADDING indent ++ elementBody PADDING tag attrs kids indent.
Proof.
  unfold elementBody. cbn [formatNode]. unfold childContent, textContent.
  cbn [descendantText].
  destruct kids as [|k kids].
  - cbn [List.length Nat.eqb existsb flat_map]. unfold lit.
    cbn [list_ascii_of_string].
    repeat (rewrite <- app_assoc || (progress cbn [app])). reflexivity.
  - cbn [List.length Nat.eqb].
    destruct (hasOnlyText (k :: kids)) eqn:Hot.
    + rewrite orb_true_r. cbn [andb].
      rewrite (hasOnlyText_no_element _ Hot). unfold lit.
      cbn [list_ascii_of_string].
      repeat (rewrite <- app_assoc || (progress cbn [app])). reflexivity.
    + rewrite andb_false_r.
      destruct (existsb isElement (k :: kids)); unfold lit;
        cbn [list_ascii_of_string];
        repeat (rewrite <- app_assoc || (progress cbn [app])); reflexivity.
Qed.

Lemma reformat_element (PADDING tag : str) (attrs : list (str * str))
  (kids : list Node) (indent : nat) :
  reformat PADDING (ElementNode tag attrs kids) indent =
  if existsb isElement kids
  then ElementNode tag attrs (regroup PADDING indent kids [])
  else ElementNode tag attrs
         (textKids (trim (flat_map descendantText kids))).
Proof.
  cbn [reformat]. destruct (existsb isElement kids); [|reflexivity].
  f_equal.
  match goal with
  | |- ?f kids [] = _ =>
      assert (H : forall pending,
                 f kids pending = regroup PADDING indent kids pending);
        [|apply H]
  end.
  induction kids as [|k kids IH]; intros pending; [reflexivity|].
  destruct k; cbn [regroup]; rewrite <- ?IH; reflexivity.
Qed.

(** ** The content loop, one node at a time *)

Lemma parse_content_end (fuel : nat) (r : str) :
  parse_content (S fuel) ("<"%char :: "/"%char :: r)
  = Got [] ("<"%char :: "/"%char :: r).
Proof. reflexivity. Qed.

Lemma run_char_not_lt (c : ascii) :
  is_run_char c = true -> Ascii.eqb "<" c = false.
Proof.
  unfold is_run_char, is_markup_char. intros H.
  apply andb_true_iff in H as [_ H].
  apply negb_true_iff, orb_false_iff in H. rewrite Ascii.eqb_sym.
  apply H.
Qed.

Lemma parse_content_text (fuel : nat) (raw r : str) :
  raw <> [] -> run_ok raw = true ->
  parse_content (S fuel) (raw ++ "<"%char :: r) =
  match parse_content fuel ("<"%char :: r) with
  | Got nodes rest => Got (TextNode raw :: nodes) rest
  | Bad m => Bad m
  end.
Proof.
  intros Hne Hok. destruct raw as [|c raw']; [contradiction|].
  assert (Hc : Ascii.eqb "<" c = false).
  { apply run_char_not_lt. unfold run_ok in Hok.
    apply andb_true_iff in Hok as [Hok _]. cbn [forallb] in Hok.
    now apply andb_true_iff in Hok. }
  pose proof (parse_text_app (c :: raw') r Hok) as Ht.
  cbn [app] in Ht |- *. cbn [parse_content].
  unfold starts_with, lit. cbn [list_ascii_of_string strip_prefix].
  rewrite Hc. rewrite Ht. reflexivity.
Qed.

Lemma parse_content_comment (fuel : nat) (d r : str) :
  comment_ok d = true ->
  parse_content (S fuel) (lit "<!--" ++ d ++ lit "-->" ++ r) =
  match parse_content fuel r with
  | Got nodes rest => Got (CommentNode d :: nodes) rest
  | Bad m => Bad m
  end.
Proof.
  intros Hd. pose proof (scan_comment_app d r Hd) as Hs.
  unfold lit in *. cbn [list_ascii_of_string app] in *.
  cbn [parse_content]. unfold starts_with, lit.
  cbn [list_ascii_of_string strip_prefix].
  change (Ascii.eqb "<" "<") with true. change (Ascii.eqb "/" "!") with false.
  change (Ascii.eqb "!" "!") with true. change (Ascii.eqb "-" "-") with true.
  cbv iota. rewrite Hs. reflexivity.
Qed.

Lemma parse_content_element (fuel : nat) (x : ascii) (r : str) :
  is_name_start x = true ->
  parse_content (S fuel) ("<"%char :: x :: r) =
  match parse_element fuel ("<"%char :: x :: r) with
  | Got el r' =>
      match parse_content fuel r' with
      | Got nodes rest => Got (el :: nodes) rest
      | Bad m => Bad m
      end
  | Bad m => Bad m
  end.
Proof.
  intros Hx. destruct (name_start_not_punct x Hx) as (_ & Hsl & Hbang & _).
  cbn [parse_content]. unfold starts_with, lit.
  cbn [list_ascii_of_string strip_prefix].
  change (Ascii.eqb "<" "<") with true. cbv iota.
  rewrite Hsl, Hbang. reflexivity.
Qed.

Lemma parse_content_text_k (fuel : nat) (raw r : str) (nodes : list Node)
  (rest : str) :
  raw <> [] -> run_ok raw = true ->
  parse_content fuel ("<"%char :: r) = Got nodes rest ->
  parse_content (S fuel) (raw ++ "<"%char :: r) = Got (TextNode raw :: nodes) rest.
Proof.
  intros Hne Hok Hk.
  pose proof (parse_content_text fuel raw r Hne Hok) as H.
  rewrite Hk in H. exact H.
Qed.

Lemma parse_content_comment_k (fuel : nat) (d r : str) (nodes : list Node)
  (rest : str) :
  comment_ok d = true ->
  parse_content fuel r = Got nodes rest ->
  parse_content (S fuel) (lit "<!--" ++ d ++ lit "-->" ++ r)
  = Got (CommentNode d :: nodes) rest.
Proof.
  intros Hd Hk.
  pose proof (parse_content_comment fuel d r Hd) as H.
  rewrite Hk in H. exact H.
Qed.

Lemma parse_content_element_k (fuel : nat) (x : ascii) (r r' : str)
  (el : Node) (nodes : list Node) (rest : str) :
  is_name_start x = true ->
  parse_element fuel ("<"%char :: x :: r) = Got el r' ->
  parse_content fuel r' = Got nodes rest ->
  parse_content (S fuel) ("<"%char :: x :: r) = Got (el :: nodes) rest.
Proof.
  intros Hx He Hk.
  pose proof (parse_content_element fuel x r Hx) as H.
  rewrite He, Hk in H. exact H.
Qed.

(** Brings the text under [parse_content] into the shape [new]. *)
Ltac reshape new :=
  match goal with
  | |- parse_content ?f ?s = ?rhs =>
      let E := fresh "E" in
      assert (E : s = new)
        by (unfold lit; cbn [list_ascii_of_string];
            repeat (rewrite <- app_assoc || (progress cbn [app]));
            reflexivity);
      rewrite E; clear E
  end.

Ltac len_solve :=
  repeat (rewrite length_app in * || (progress cbn [List.length app] in * ));
  lia.

(** ** An element between its tags *)

Lemma attrs_then_gt (attrs : list (str * str)) (y : str) :
  exists c r,
    attrsString attrs ++ ">"%char :: y = c :: r /\ is_name_char c = false.
Proof.
  destruct attrs as [|[n v] l].
  - exists ">"%char, y. split; reflexivity.
  - rewrite attrsString_cons. eexists _, _. split; reflexivity.
Qed.

Lemma length_attrsString (attrs : list (str * str)) :
  List.length attrs <= List.length (attrsString attrs).
Proof.
  induction attrs as [|[n v] l IH]; [apply le_n|].
  pose proof (attrsString_cons n v l []) as E. rewrite !app_nil_r in E.
  rewrite E. cbn [List.length]. rewrite !length_app. cbn [List.length].
  rewrite !length_app. cbn [List.length]. lia.
Qed.

Lemma parse_element_frame (fuel : nat) (tag : str) (attrs : list (str * str))
  (body rest : str) (kids' : list Node) :
  is_name tag = true -> attrs_wf attrs = true ->
  forallb (fun a => attr_value_ok (snd a)) attrs = true ->
  parse_content fuel (body ++ "<"%char :: "/"%char :: tag ++ ">"%char :: rest)
    = Got kids' ("<"%char :: "/"%char :: tag ++ ">"%char :: rest) ->
  parse_element (S fuel)
    ("<"%char :: tag ++ attrsString attrs ++ ">"%char :: body
       ++ "<"%char :: "/"%char :: tag ++ ">"%char :: rest)
  = Got (ElementNode tag attrs kids') rest.
Proof.
  intros Htag Hwf Hok Hbody.
  unfold attrs_wf in Hwf. apply andb_true_iff in Hwf as [Hwf Hd].
  cbn [parse_element]. unfold lit at 1.
  cbn [list_ascii_of_string strip_prefix].
  change (Ascii.eqb "<" "<") with true. cbv iota.
  destruct (attrs_then_gt attrs
              (body ++ "<"%char :: "/"%char :: tag ++ ">"%char :: rest))
    as (c & r & E & Hc).
  rewrite E, (parse_name_app tag c r Htag Hc), <- E.
  rewrite (parse_attrs_app attrs _ [] _).
  - cbn [rev app]. rewrite Hbody.
    unfold lit. cbn [list_ascii_of_string strip_prefix].
    change (Ascii.eqb "<" "<") with true. change (Ascii.eqb "/" "/") with true.
    cbv iota.
    rewrite (parse_name_app tag ">" rest Htag eq_refl), str_eqb_refl.
    rewrite skip_space_stop by reflexivity.
    cbn [strip_prefix]. change (Ascii.eqb ">" ">") with true. reflexivity.
  - pose proof (length_attrsString attrs). rewrite length_app. lia.
  - exact Hwf.
  - exact Hok.
  - exact Hd.
  - intros k Hk. discriminate Hk.
Qed.

(** ** Runs of character data *)

Lemma no_cdata_end_no_bracket (s : str) :
  forallb (fun c => negb (Ascii.eqb "]" c)) s = true -> no_cdata_end s = true.
Proof.
  induction s as [|c s IH]; [reflexivity|].
  cbn [forallb no_cdata_end]. intros H. apply andb_true_iff in H as [Hc Hs].
  rewrite (IH Hs), andb_true_r.
  change (lit "]]>") with ["]"%char; "]"%char; ">"%char].
  rewrite starts_with_cons. apply negb_true_iff in Hc. now rewrite Hc.
Qed.

Lemma run_ok_pad (n i : nat) : run_ok (LF :: repeat_str (spaces n) i) = true.
Proof.
  unfold run_ok. apply andb_true_iff. split.
  - cbn [forallb]. change (is_run_char LF) with true.
    apply forallb_pad. reflexivity.
  - apply no_cdata_end_LF, no_cdata_end_no_bracket, forallb_pad. reflexivity.
Qed.

Lemma run_ok_app (a b : str) :
  run_ok a = true -> run_ok (LF :: b) = true -> run_ok (a ++ LF :: b) = true.
Proof.
  unfold run_ok. intros Ha Hb.
  apply andb_true_iff in Ha as [Ha1 Ha2].
  apply andb_true_iff in Hb as [Hb1 Hb2].
  rewrite forallb_app, Ha1, Hb1. now rewrite no_cdata_end_app.
Qed.

Lemma run_ok_text (t : str) :
  forallb is_xml_char t = true -> text_ok t = true -> run_ok t = true.
Proof.
  unfold run_ok, text_ok. intros Hc Ht.
  apply andb_true_iff in Ht as [Hm Hn]. rewrite Hn, andb_true_r.
  clear Hn. induction t as [|c t IH]; [reflexivity|].
  cbn [forallb] in *. apply andb_true_iff in Hc as [Hc1 Hc2].
  apply andb_true_iff in Hm as [Hm1 Hm2].
  unfold is_run_char at 1. now rewrite Hc1, Hm1, IH.
Qed.

Lemma run_ok_line (t : str) : run_ok t = true -> run_ok (LF :: t) = true.
Proof.
  unfold run_ok. intros H. apply andb_true_iff in H as [H1 H2].
  cbn [forallb]. change (is_run_char LF) with true.
  now rewrite H1, (no_cdata_end_LF t H2).
Qed.

(** The pending run stays a run when a child's line is added. *)
Lemma run_ok_childLine (pending d : str) :
  run_ok pending = true -> forallb is_xml_char d = true ->
  text_ok (trim d) = true ->
  run_ok (pending ++ childLine (trim d)) = true.
Proof.
  intros Hp Hd Ht. unfold childLine.
  destruct (truthy (trim d)); [|now rewrite app_nil_r].
  apply run_ok_app; [exact Hp|].
  apply run_ok_line, run_ok_text; [|exact Ht].
  now apply forallb_trim.
Qed.

Lemma truthy_app_r (a b : str) : truthy b = true -> truthy (a ++ b) = true.
Proof. destruct a; [now intros|reflexivity]. Qed.

Lemma parse_content_trimmed (fuel : nat) (t r : str) :
  2 <= fuel -> run_ok t = true ->
  parse_content fuel (t ++ "<"%char :: "/"%char :: r)
  = Got (textKids t) ("<"%char :: "/"%char :: r).
Proof.
  intros Hf Ht. destruct fuel as [|[|fuel]]; try lia.
  destruct t as [|c t].
  - reflexivity.
  - rewrite parse_content_text by (discriminate || exact Ht).
    rewrite parse_content_end. reflexivity.
Qed.

(** ** The parser on the formatter's output *)

Section Reparse.
Variable indentSize : nat.
Local Abbreviation PADDING := (spaces indentSize).

Lemma childContent_cons (indent : nat) (k : Node) (ks : list Node) :
  childContent PADDING indent (k :: ks) =
  childLine (formatNode PADDING k (S indent)) ++ childContent PADDING indent ks.
Proof. reflexivity. Qed.

Lemma elementBody_head (tag : str) (attrs : list (str * str))
  (kids : list Node) (indent : nat) :
  is_name tag = true ->
  exists x r,
    elementBody PADDING tag attrs kids indent = "<"%char :: x :: r
    /\ is_name_start x = true.
Proof.
  intros H. destruct (is_name_head tag H) as (x & n' & -> & Hx).
  unfold elementBody. cbn [app]. now eexists _, _.
Qed.

(** The children of an element with element children: the content loop
    reads the lines back as [regroup] groups them. *)
Lemma parse_content_regroup (indent : nat) (kids : list Node) :
  Forall (reparses indentSize) kids ->
  forallb node_wf kids = true -> forallb kid_markup_free kids = true ->
  forall pending fuel r,
    run_ok pending = true ->
    List.length (pending ++ childContent PADDING indent kids
                 ++ LF :: repeat_str PADDING indent ++ "<"%char :: "/"%char :: r)
      < fuel ->
    parse_content fuel
      (pending ++ childContent PADDING indent kids
       ++ LF :: repeat_str PADDING indent ++ "<"%char :: "/"%char :: r)
    = Got (regroup PADDING indent kids pending) ("<"%char :: "/"%char :: r).
Proof.
  induction 1 as [|k ks Hk _ IH]; intros Hwf Hmf pending fuel r Hp Hf.
  - cbn [regroup].
    reshape ((pending ++ LF :: repeat_str PADDING indent)
               ++ "<"%char :: "/"%char :: r).
    destruct fuel as [|[|fuel]]; try len_solve.
    apply parse_content_text_k.
    + destruct pending; discriminate.
    + apply run_ok_app; [exact Hp | apply run_ok_pad].
    + apply parse_content_end.
  - cbn [forallb] in Hwf, Hmf.
    apply andb_true_iff in Hwf as [Hwk Hwf].
    apply andb_true_iff in Hmf as [Hmk Hmf].
    rewrite childContent_cons in Hf |- *.
    destruct k as [d | d | d | tag attrs kids'].
    + (* text *)
      cbn [formatNode textContent descendantText regroup] in Hf |- *.
      reshape ((pending ++ childLine (trim d))
                 ++ childContent PADDING indent ks
                 ++ LF :: repeat_str PADDING indent ++ "<"%char :: "/"%char :: r).
      apply IH; try assumption.
      * apply run_ok_childLine; assumption.
      * len_solve.
    + (* CDATA *)
      cbn [formatNode childLine truthy app regroup] in Hf |- *.
      apply IH; assumption.
    + (* comment *)
      cbn [formatNode textContent regroup] in Hf |- *.
      unfold childLine in Hf |- *.
      rewrite (truthy_app_r (repeat_str PADDING (S indent))
                 (lit "<!--" ++ d ++ lit "-->") eq_refl) in Hf |- *.
      cbn [node_wf] in Hwk.
      reshape ((pending ++ LF :: repeat_str PADDING (S indent))
                 ++ "<"%char :: "!"%char :: "-"%char :: "-"%char :: d
                 ++ "-"%char :: "-"%char :: ">"%char
                 :: ([] ++ childContent PADDING indent ks
                     ++ LF :: repeat_str PADDING indent
                     ++ "<"%char :: "/"%char :: r)).
      destruct fuel as [|[|fuel]]; try len_solve.
      apply parse_content_text_k.
      * destruct pending; discriminate.
      * apply run_ok_app; [exact Hp | apply run_ok_pad].
      * apply (parse_content_comment_k fuel d _ _ _ Hwk).
        apply (IH Hwf Hmf [] fuel r eq_refl).
        unfold lit in Hf. cbn [list_ascii_of_string] in Hf. len_solve.
    + (* element *)
      cbn [regroup]. cbn [kid_markup_free] in Hmk.
      rewrite formatNode_element in Hf |- *.
      assert (Htag : is_name tag = true).
      { cbn [node_wf] in Hwk. apply andb_true_iff in Hwk as [Hwk' _].
        now apply andb_true_iff in Hwk'. }
      destruct (elementBody_head tag attrs kids' (S indent) Htag)
        as (x & rb & Eb & Hx).
      unfold childLine in Hf |- *.
      rewrite (truthy_app_r (repeat_str PADDING (S indent))
                 (elementBody PADDING tag attrs kids' (S indent)))
        in Hf |- * by (rewrite Eb; reflexivity).
      pose proof (Hk Hwk Hmk (S indent)
                    ([] ++ childContent PADDING indent ks
                     ++ LF :: repeat_str PADDING indent ++ "<"%char :: "/"%char :: r))
        as Hel.
      reshape ((pending ++ LF :: repeat_str PADDING (S indent))
                 ++ elementBody PADDING tag attrs kids' (S indent)
                 ++ ([] ++ childContent PADDING indent ks
                     ++ LF :: repeat_str PADDING indent
                     ++ "<"%char :: "/"%char :: r)).
      rewrite Eb in Hf, Hel |- *.
      destruct fuel as [|[|fuel]]; try len_solve.
      apply parse_content_text_k.
      * destruct pending; discriminate.
      * apply run_ok_app; [exact Hp | apply run_ok_pad].
      * apply (parse_content_element_k fuel x _ _ _ _ _ Hx (Hel fuel ltac:(len_solve))).
        apply (IH Hwf Hmf [] fuel r eq_refl).
        len_solve.
Qed.

Lemma descendantText_chars (k : Node) :
  node_wf k = true -> forallb is_xml_char (descendantText k) = true.
Proof.
  induction k as [d | d | d | tag attrs kids IH] using Node_induction;
    cbn [node_wf descendantText]; intros H; try assumption; try reflexivity.
  apply andb_true_iff in H as [_ H].
  induction IH as [|k ks Hk _ IHks]; [reflexivity|].
  cbn [forallb flat_map] in H |- *. apply andb_true_iff in H as [H1 H2].
  now rewrite forallb_app, (Hk H1), (IHks H2).
Qed.

Lemma elementBody_frame (tag : str) (attrs : list (str * str))
  (kids : list Node) (indent : nat) (rest : str) :
  elementBody PADDING tag attrs kids indent ++ rest =
  "<"%char :: tag ++ attrsString attrs ++ ">"%char ::
    (if existsb isElement kids
     then childContent PADDING indent kids ++ LF :: repeat_str PADDING indent
     else trim (flat_map descendantText kids))
    ++ "<"%char :: "/"%char :: tag ++ ">"%char :: rest.
Proof.
  unfold elementBody.
  repeat (rewrite <- app_assoc || (progress cbn [app])). reflexivity.
Qed.

(** The parser reads what the formatter wrote for an element as the
    element's [reformat]. *)
Lemma all_reparse (k : Node) : reparses indentSize k.
Proof.
  induction k as [d | d | d | tag attrs kids IH] using Node_induction;
    try (intros _ _; exact I).
  intros Hwf Hmf indent rest fuel Hf.
  cbn [node_wf] in Hwf. apply andb_true_iff in Hwf as [Hwf Hkids].
  apply andb_true_iff in Hwf as [Htag Hattrs].
  cbn [markup_free] in Hmf. apply andb_true_iff in Hmf as [Hvals Hbody].
  rewrite reformat_element. rewrite elementBody_frame in Hf |- *.
  destruct fuel as [|fuel]; [cbn [List.length] in Hf; lia|].
  destruct (existsb isElement kids) eqn:He.
  - apply parse_element_frame; try assumption.
    reshape ([] ++ childContent PADDING indent kids
               ++ LF :: repeat_str PADDING indent
               ++ "<"%char :: "/"%char :: tag ++ ">"%char :: rest).
    apply parse_content_regroup; try assumption.
    + reflexivity.
    + len_solve.
  - apply parse_element_frame; try assumption.
    apply parse_content_trimmed.
    + destruct (is_name_head tag Htag) as (x & n' & -> & _). len_solve.
    + apply run_ok_text; [|exact Hbody].
      apply forallb_trim.
      apply (descendantText_chars (ElementNode tag attrs kids)).
      cbn [node_wf]. now rewrite Htag, Hattrs, Hkids.
Qed.

(** ** Formatting the re-parsed tree *)

Lemma all_space_pad (i : nat) : all_space (LF :: repeat_str PADDING i) = true.
Proof.
  unfold all_space. cbn [forallb]. change (is_js_space LF) with true.
  apply forallb_pad. reflexivity.
Qed.

Lemma tight_truthy (x : str) : tight x = true -> truthy x = true.
Proof. destruct x; [discriminate | reflexivity]. Qed.

(** A pending run followed by indentation is written back as the run. *)
Lemma childLine_run (p : str) (i : nat) :
  line_run p -> childLine (trim (p ++ LF :: repeat_str PADDING i)) = p.
Proof.
  intros [-> | (x & -> & Hx)].
  - cbn [app]. now rewrite trim_all_space by apply all_space_pad.
  - change ((LF :: x) ++ LF :: repeat_str PADDING i)
      with ([LF] ++ x ++ LF :: repeat_str PADDING i).
    rewrite (trim_tight [LF] x _ eq_refl (all_space_pad i) Hx).
    unfold childLine. now rewrite (tight_truthy x Hx).
Qed.

Lemma line_run_childLine (p d : str) :
  line_run p -> line_run (p ++ childLine (trim d)).
Proof.
  intros Hp. unfold childLine.
  destruct (trim_result d) as [E | Ht].
  - rewrite E. cbn [truthy]. now rewrite app_nil_r.
  - rewrite (tight_truthy _ Ht). destruct Hp as [-> | (x & -> & Hx)].
    + right. now exists (trim d).
    + right. exists (x ++ [LF] ++ trim d). split; [reflexivity|].
      now apply tight_app.
Qed.

Lemma isElement_reformat (k : Node) (i : nat) :
  isElement (reformat PADDING k i) = isElement k.
Proof.
  destruct k as [d | d | d | tag attrs kids]; try reflexivity.
  rewrite reformat_element. now destruct (existsb isElement kids).
Qed.

Lemma regroup_has_element (i : nat) (kids : list Node) :
  existsb isElement kids = true ->
  forall p, existsb isElement (regroup PADDING i kids p) = true.
Proof.
  induction kids as [|k ks IH]; [discriminate|].
  intros H p. destruct k as [d | d | d | tag attrs kids'].
  - apply IH. exact H.
  - apply IH. exact H.
  - cbn [regroup existsb].
    change (isElement (TextNode (p ++ LF :: repeat_str PADDING (S i))))
      with false.
    change (isElement (CommentNode d)) with false.
    cbn [orb]. apply IH. exact H.
  - cbn [regroup existsb]. rewrite isElement_reformat.
    change (isElement (ElementNode tag attrs kids')) with true.
    now rewrite orb_true_r.
Qed.

Lemma formatNode_nonempty_element (tag : str) (attrs : list (str * str))
  (kids : list Node) (i : nat) :
  truthy (formatNode PADDING (ElementNode tag attrs kids) i) = true.
Proof.
  rewrite formatNode_element. apply truthy_app_r. reflexivity.
Qed.

(** The children lines of the regrouped children are the pending run and
    the children lines of the original ones. *)
Lemma childContent_regroup (i : nat) (kids : list Node) :
  Forall (fun k => forall j,
            formatNode PADDING (reformat PADDING k j) j = formatNode PADDING k j)
         kids ->
  forall p,
    line_run p ->
    childContent PADDING i (regroup PADDING i kids p)
    = p ++ childContent PADDING i kids.
Proof.
  induction 1 as [|k ks Hk _ IH]; intros p Hp.
  - cbn [regroup]. rewrite childContent_cons.
    cbn [formatNode textContent descendantText childContent flat_map].
    rewrite childLine_run by exact Hp. reflexivity.
  - destruct k as [d | d | d | tag attrs kids'];
      cbn [regroup]; rewrite !childContent_cons.
    + cbn [formatNode textContent descendantText].
      rewrite IH by (apply line_run_childLine; exact Hp).
      now rewrite app_assoc.
    + cbn [formatNode childLine truthy app]. apply IH. exact Hp.
    + replace (childLine (formatNode PADDING (TextNode
                 (p ++ LF :: repeat_str PADDING (S i))) (S i))) with p
        by (symmetry; apply (childLine_run p (S i) Hp)).
      rewrite IH by (left; reflexivity). reflexivity.
    + replace (childLine (formatNode PADDING (TextNode
                 (p ++ LF :: repeat_str PADDING (S i))) (S i))) with p
        by (symmetry; apply (childLine_run p (S i) Hp)).
      rewrite Hk, IH by (left; reflexivity). reflexivity.
Qed.

(** Formatting the tree parsed from the formatter's output gives that
    output again. *)
Lemma formatNode_reformat (k : Node) :
  forall i,
    formatNode PADDING (reformat PADDING k i) i = formatNode PADDING k i.
Proof.
  induction k as [d | d | d | tag attrs kids IH] using Node_induction;
    intros i; try reflexivity.
  rewrite reformat_element.
  destruct (existsb isElement kids) eqn:He.
  - rewrite !formatNode_element. f_equal. unfold elementBody.
    rewrite He, (regroup_has_element i kids He).
    rewrite (childContent_regroup i kids IH []) by (left; reflexivity).
    reflexivity.
  - rewrite !formatNode_element. f_equal. unfold elementBody. rewrite He.
    unfold textKids.
    destruct (trim (flat_map descendantText kids)) as [|c t] eqn:Et.
    + reflexivity.
    + cbn [truthy existsb isElement nodeType Nat.eqb orb flat_map
           descendantText]. change (TEXT_NODE =? ELEMENT_NODE) with false.
      cbn [orb]. rewrite app_nil_r, <- Et, trim_idempotent. reflexivity.
Qed.

End Reparse.

(** ** What the model parser builds is well formed *)

Lemma span_forallb (p : ascii -> bool) (s a b : str) :
  span p s = (a, b) -> forallb p a = true.
Proof.
  revert a b. induction s as [|c s IH]; intros a b H; cbn [span] in H.
  - now injection H as <- <-.
  - destruct (p c) eqn:Hc.
    + destruct (span p s) as [a' b'] eqn:E. injection H as <- <-.
      cbn [forallb]. now rewrite Hc, (IH a' b' eq_refl).
    + now injection H as <- <-.
Qed.

Lemma parse_name_wf (s n r : str) : parse_name s = Got n r -> is_name n = true.
Proof.
  unfold parse_name. destruct s as [|c s]; [discriminate|].
  destruct (is_name_start c) eqn:Hc; [|discriminate].
  destruct (span is_name_char (c :: s)) as [a b] eqn:E.
  intros H. injection H as <- <-.
  pose proof (span_forallb _ _ _ _ E) as Ha.
  cbn [span] in E. rewrite (name_start_is_name_char c Hc) in E.
  destruct (span is_name_char s) as [a' b']. injection E as <- <-.
  unfold is_name. now rewrite Hc, Ha.
Qed.

Lemma entity_char_value (name : str) (ch : ascii) :
  entity_char name = Some ch -> is_value_char ch = true.
Proof.
  unfold entity_char.
  repeat match goal with
         | |- context [if ?b then _ else _] => destruct b
         end; intros H; try discriminate; now injection H as <-.
Qed.

Lemma value_char_xml (c : ascii) : is_value_char c = true -> is_xml_char c = true.
Proof. intros H. apply (value_char_stays c H). Qed.

Lemma decode_chars (p : ascii -> bool) :
  (forall c, is_value_char c = true -> p c = true) ->
  forall s ent v,
    forallb p s = true -> decode ent s = Some v -> forallb p v = true.
Proof.
  intros Hp. induction s as [|c s IH]; intros ent v Hs H; cbn [decode] in H.
  - destruct ent; [discriminate|]. now injection H as <-.
  - cbn [forallb] in Hs. apply andb_true_iff in Hs as [Hc Hs].
    destruct ent as [acc|].
    + destruct (Ascii.eqb c ";").
      * destruct (entity_char (rev acc)) as [ch|] eqn:Ech; [|discriminate].
        destruct (decode None s) as [v'|] eqn:E; [|discriminate].
        injection H as <-. cbn [forallb].
        now rewrite (Hp ch (entity_char_value _ _ Ech)), (IH None v' Hs E).
      * apply (IH _ _ Hs H).
    + destruct (Ascii.eqb c "&").
      * apply (IH _ _ Hs H).
      * destruct (decode None s) as [v'|] eqn:E; [|discriminate].
        injection H as <-. cbn [forallb]. now rewrite Hc, (IH None v' Hs E).
Qed.

Lemma parse_text_wf (s d r : str) :
  parse_text s = Got d r -> forallb is_xml_char d = true.
Proof.
  unfold parse_text.
  destruct (span (fun c => negb (Ascii.eqb c "<")) s) as [raw rest].
  destruct (forallb is_xml_char raw) eqn:Hc; [|discriminate]. cbn [negb].
  destruct (no_cdata_end raw); [|discriminate]. cbn [negb].
  destruct (decode None raw) as [v|] eqn:E; [|discriminate].
  intros H. injection H as <- <-.
  apply (decode_chars is_xml_char value_char_xml raw None v Hc E).
Qed.

Lemma normalize_value_char (c : ascii) :
  is_xml_char c = true -> is_value_char (normalize_attr_char c) = true.
Proof. ascii_cases c. Qed.

Lemma parse_attr_value_wf (q : ascii) (s v r : str) :
  parse_attr_value q s = Got v r -> forallb is_value_char v = true.
Proof.
  unfold parse_attr_value.
  destruct (span (fun c => negb (Ascii.eqb c q)) s) as [raw rest].
  destruct rest as [|c rest']; [discriminate|].
  destruct (forallb is_xml_char raw) eqn:Hc; [|discriminate]. cbn [negb].
  destruct (existsb (Ascii.eqb "<") raw); [discriminate|].
  destruct (decode None (map normalize_attr_char raw)) as [v'|] eqn:E;
    [|discriminate].
  intros H. injection H as <- <-.
  apply (decode_chars is_value_char (fun c H => H)
           (map normalize_attr_char raw) None v'); [|exact E].
  rewrite forallb_forall in *. intros x Hx.
  apply in_map_iff in Hx as (y & <- & Hy).
  apply normalize_value_char, Hc, Hy.
Qed.

Lemma scan_comment_wf (s : str) :
  forall d r, scan_comment s = Got d r -> comment_ok d = true.
Proof.
  induction s as [|c s IH]; intros d r H; [discriminate|].
  cbn [scan_comment] in H.
  destruct (Ascii.eqb c "-") eqn:Ec.
  - destruct s as [|e s']; [discriminate|].
    destruct (Ascii.eqb e "-") eqn:Ee.
    + destruct s' as [|g rest]; [discriminate|].
      destruct (Ascii.eqb g ">"); [|discriminate].
      now injection H as <- <-.
    + destruct (scan_comment (e :: s')) as [body rest|] eqn:E; [|discriminate].
      injection H as <- <-.
      pose proof (IH body rest eq_refl) as Hb.
      cbn [comment_ok]. rewrite Ec, Hb, andb_true_r.
      apply Ascii.eqb_eq in Ec. subst c.
      destruct body as [|b body'].
      * (* the body cannot end here: the next character is no dash *)
        cbn [scan_comment] in E. rewrite Ee in E.
        destruct (is_xml_char e); [|discriminate].
        destruct (scan_comment s'); discriminate.
      * cbn [scan_comment] in E. rewrite Ee in E.
        destruct (is_xml_char e); [|discriminate].
        destruct (scan_comment s') as [b0 r0|]; [|discriminate].
        injection E as <- <- <-. now rewrite Ee.
  - destruct (is_xml_char c) eqn:Hc; [|discriminate].
    destruct (scan_comment s) as [body rest|] eqn:E; [|discriminate].
    injection H as <- <-. cbn [comment_ok].
    now rewrite Hc, Ec, (IH body rest eq_refl).
Qed.

Lemma scan_cdata_wf (s : str) :
  forall d r, scan_cdata s = Got d r -> forallb is_xml_char d = true.
Proof.
  induction s as [|c s IH]; intros d r H; [discriminate|].
  cbn [scan_cdata] in H.
  destruct (strip_prefix (lit "]]>") (c :: s)).
  - now injection H as <- <-.
  - destruct (is_xml_char c) eqn:Hc; [|discriminate].
    destruct (scan_cdata s) as [body rest|] eqn:E; [|discriminate].
    injection H as <- <-. cbn [forallb]. now rewrite Hc, (IH body rest eq_refl).
Qed.

Lemma has_attr_In (k : str) (l : list (str * str)) :
  has_attr k l = true <-> In k (map fst l).
Proof.
  induction l as [|[n v] l IH].
  - split; [discriminate | intros []].
  - rewrite has_attr_cons, orb_true_iff, str_eqb_eq, IH. reflexivity.
Qed.

Lemma distinct_names_NoDup (l : list (str * str)) :
  distinct_names l = true <-> NoDup (map fst l).
Proof.
  induction l as [|[n v] l IH].
  - split; [constructor | reflexivity].
  - cbn [distinct_names map fst]. rewrite andb_true_iff, negb_true_iff, IH.
    split.
    + intros [Hn Hl]. constructor; [|exact Hl].
      intros Hin. apply has_attr_In in Hin. congruence.
    + intros H. inversion H as [|? ? Hn Hl]; subst. split; [|exact Hl].
      destruct (has_attr n l) eqn:E; [|reflexivity].
      apply has_attr_In in E. contradiction.
Qed.

Lemma attrs_wf_rev (l : list (str * str)) :
  attrs_wf l = true -> attrs_wf (rev l) = true.
Proof.
  unfold attrs_wf. intros H. apply andb_true_iff in H as [H1 H2].
  rewrite forallb_rev, H1. cbn [andb].
  apply distinct_names_NoDup. rewrite map_rev. apply NoDup_rev.
  now apply distinct_names_NoDup.
Qed.

Lemma parse_attrs_wf (fuel : nat) :
  forall acc s attrs b r,
    attrs_wf acc = true ->
    parse_attrs fuel acc s = Got (attrs, b) r -> attrs_wf attrs = true.
Proof.
  induction fuel as [|fuel IH]; intros acc s attrs b r Hacc H; [discriminate|].
  cbn [parse_attrs] in H.
  destruct (strip_prefix (lit ">") (skip_space s)).
  { injection H as <- <- <-. now apply attrs_wf_rev. }
  destruct (strip_prefix (lit "/>") (skip_space s)).
  { injection H as <- <- <-. now apply attrs_wf_rev. }
  destruct (negb _); [discriminate|].
  destruct (parse_name (skip_space s)) as [name r1|] eqn:En; [|discriminate].
  destruct (strip_prefix (lit "=") (skip_space r1)) as [r2|]; [|discriminate].
  destruct (skip_space r2) as [|q r3]; [discriminate|].
  destruct (Ascii.eqb q DQ || Ascii.eqb q "'"); [|discriminate].
  destruct (parse_attr_value q r3) as [v r4|] eqn:Ev; [|discriminate].
  destruct (has_attr name acc) eqn:Eh; [discriminate|].
  destruct (is_declaration name) eqn:Ens; [discriminate|].
  refine (IH _ _ _ _ _ _ H).
  unfold attrs_wf in *. apply andb_true_iff in Hacc as [H1 H2].
  cbn [forallb distinct_names]. unfold attr_wf at 1. cbn [fst snd].
  now rewrite (parse_name_wf _ _ _ En), Ens, (parse_attr_value_wf _ _ _ _ Ev),
    H1, Eh, H2.
Qed.

Lemma parse_wf (fuel : nat) :
  (forall s nodes r,
      parse_content fuel s = Got nodes r -> forallb node_wf nodes = true)
  /\ (forall s el r, parse_element fuel s = Got el r -> node_wf el = true).
Proof.
  induction fuel as [|fuel [IHc IHe]]; [split; discriminate|].
  split.
  - intros s nodes r H. cbn [parse_content] in H.
    destruct s as [|c s]; [now injection H as <- <-|].
    destruct (starts_with (lit "</") (c :: s)); [now injection H as <- <-|].
    destruct (strip_prefix (lit "<!--") (c :: s)) as [r0|].
    { destruct (scan_comment r0) as [body r'|] eqn:E; [|discriminate].
      destruct (parse_content fuel r') as [ns rest|] eqn:Ek; [|discriminate].
      injection H as <- <-. cbn [forallb node_wf].
      now rewrite (scan_comment_wf _ _ _ E), (IHc _ _ _ Ek). }
    destruct (strip_prefix (lit "<![CDATA[") (c :: s)) as [r0|].
    { destruct (scan_cdata r0) as [body r'|] eqn:E; [|discriminate].
      destruct (parse_content fuel r') as [ns rest|] eqn:Ek; [|discriminate].
      injection H as <- <-. cbn [forallb node_wf].
      now rewrite (scan_cdata_wf _ _ _ E), (IHc _ _ _ Ek). }
    destruct (starts_with (lit "<") (c :: s)).
    { destruct (parse_element fuel (c :: s)) as [el r'|] eqn:E; [|discriminate].
      destruct (parse_content fuel r') as [ns rest|] eqn:Ek; [|discriminate].
      injection H as <- <-. cbn [forallb].
      now rewrite (IHe _ _ _ E), (IHc _ _ _ Ek). }
    destruct (parse_text (c :: s)) as [d r'|] eqn:E; [|discriminate].
    destruct (parse_content fuel r') as [ns rest|] eqn:Ek; [|discriminate].
    injection H as <- <-. cbn [forallb node_wf].
    now rewrite (parse_text_wf _ _ _ E), (IHc _ _ _ Ek).
  - intros s el r H. cbn [parse_element] in H.
    destruct (strip_prefix (lit "<") s) as [r0|]; [|discriminate].
    destruct (parse_name r0) as [tag r1|] eqn:En; [|discriminate].
    destruct (parse_attrs (S (List.length r1)) [] r1) as [[attrs closed] r2|] eqn:Ea;
      [|discriminate].
    pose proof (parse_attrs_wf _ [] _ _ _ _ eq_refl Ea) as Hattrs.
    pose proof (parse_name_wf _ _ _ En) as Htag.
    destruct closed.
    { injection H as <- <-. cbn [node_wf forallb]. now rewrite Htag, Hattrs. }
    destruct (parse_content fuel r2) as [kids r3|] eqn:Ek; [|discriminate].
    destruct (strip_prefix (lit "</") r3) as [r4|]; [|discriminate].
    destruct (parse_name r4) as [tag' r5|]; [|discriminate].
    destruct (str_eqb tag tag'); [|discriminate].
    destruct (strip_prefix (lit ">") (skip_space r5)) as [r6|]; [|discriminate].
    injection H as <- <-. cbn [node_wf].
    now rewrite Htag, Hattrs, (IHc _ _ _ Ek).
Qed.

Lemma parse_document_wf (s : str) (root : Node) (r : str) :
  parse_document s = Got root r -> node_wf root = true /\ r = [].
Proof.
  unfold parse_document.
  destruct (skip_misc (S (List.length s)) s) as [u r0|]; [|discriminate].
  destruct (parse_element (S (List.length s)) r0) as [el r1|] eqn:E;
    [|discriminate].
  destruct (skip_misc (S (List.length s)) r1) as [u' [|c r2]|]; try discriminate.
  intros H. injection H as <- <-. split; [|reflexivity].
  apply (proj2 (parse_wf _) _ _ _ E).
Qed.

(** ** The model parser on a formatted document *)

Lemma skip_misc_element (fuel : nat) (x : ascii) (r : str) :
  is_name_start x = true ->
  skip_misc (S fuel) ("<"%char :: x :: r) = Got tt ("<"%char :: x :: r).
Proof.
  intros Hx. destruct (name_start_not_punct x Hx) as (_ & _ & Hbang & _).
  cbn [skip_misc]. rewrite skip_space_stop by reflexivity.
  unfold lit. cbn [list_ascii_of_string strip_prefix].
  change (Ascii.eqb "<" "<") with true. cbv iota. now rewrite Hbang.
Qed.

(** A well-formed tree that needs no escaping is formatted to a
    well-formed document, which parses to the [reformat] of the tree. *)
Lemma parse_document_formatNode (indentSize : nat) (root : Node) :
  isElement root = true -> node_wf root = true -> markup_free root = true ->
  parse_document (formatNode (spaces indentSize) root 0)
  = Got (reformat (spaces indentSize) root 0) [].
Proof.
  intros He Hwf Hmf.
  destruct root as [d | d | d | tag attrs kids]; try discriminate.
  rewrite formatNode_element. cbn [repeat_str app].
  pose proof (all_reparse indentSize (ElementNode tag attrs kids) Hwf Hmf 0 []) as H.
  rewrite app_nil_r in H.
  assert (Htag : is_name tag = true).
  { cbn [node_wf] in Hwf. apply andb_true_iff in Hwf as [Hwf _].
    now apply andb_true_iff in Hwf. }
  destruct (elementBody_head indentSize tag attrs kids 0 Htag)
    as (x & rb & Eb & Hx).
  unfold parse_document. rewrite Eb in H |- *.
  rewrite (skip_misc_element _ x rb Hx).
  rewrite H by lia. reflexivity.
Qed.

Lemma parse_element_isElement (fuel : nat) (s : str) (el : Node) (r : str) :
  parse_element fuel s = Got el r -> isElement el = true.
Proof.
  destruct fuel as [|fuel]; [discriminate|]. cbn [parse_element].
  destruct (strip_prefix (lit "<") s) as [r0|]; [|discriminate].
  destruct (parse_name r0) as [tag r1|]; [|discriminate].
  destruct (parse_attrs (S (List.length r1)) [] r1) as [[attrs closed] r2|];
    [|discriminate].
  destruct closed; [intros H; now injection H as <- <-|].
  destruct (parse_content fuel r2) as [kids r3|]; [|discriminate].
  destruct (strip_prefix (lit "</") r3) as [r4|]; [|discriminate].
  destruct (parse_name r4) as [tag' r5|]; [|discriminate].
  destruct (str_eqb tag tag'); [|discriminate].
  destruct (strip_prefix (lit ">") (skip_space r5)) as [r6|]; [|discriminate].
  intros H. now injection H as <- <-.
Qed.

(** For the model parser, a document without [parsererror] element is the
    tree [parse_document] built, an element that is well formed. *)
Lemma wellFormed_parsed (xml : str) :
  @wellFormed xmlParser xml ->
  exists root,
    parse_document xml = Got root []
    /\ @parseFromString xmlParser xml = {| documentElement := root |}
    /\ isElement root = true /\ node_wf root = true.
Proof.
  unfold wellFormed, parseFromString, xmlParser.
  destruct (parse_document xml) as [root r|m] eqn:E.
  - intros _. destruct (parse_document_wf xml root r E) as [Hwf ->].
    exists root. repeat split; try assumption.
    unfold parse_document in E.
    destruct (skip_misc (S (List.length xml)) xml) as [u r0|]; [|discriminate].
    destruct (parse_element (S (List.length xml)) r0) as [el r1|] eqn:Ee;
      [|discriminate].
    destruct (skip_misc (S (List.length xml)) r1) as [u' [|c r2]|];
      try discriminate.
    injection E as <-. apply (parse_element_isElement _ _ _ _ Ee).
  - intros H. discriminate H.
Qed.

(** C2 as stated fails: the formatter writes text and attribute values as
    they are, so an escaped ampersand is unescaped once per pass. *)
Lemma C2_counterexample :
  @wellFormed xmlParser twiceEscaped /\
  formatXmlPreserveInline (formatXmlPreserveInline twiceEscaped 2) 2
  <> formatXmlPreserveInline twiceEscaped 2.
Proof.
  split; [vm_compute; reflexivity|]. vm_compute. discriminate.
Qed.

Lemma xmlParser_conforms : conforms xmlParser.
Proof.
  intros s root H _. unfold parseFromString, xmlParser. now rewrite H.
Qed.

(** The tree read from the formatter's output holds no CDATA section. *)
Lemma reformat_cdata_free (indentSize : nat) (k : Node) :
  forall i, isElement k = true ->
            cdata_free (reformat (spaces indentSize) k i) = true.
Proof.
  induction k as [d | d | d | tag attrs kids IH] using Node_induction;
    intros i He; try discriminate.
  rewrite reformat_element. clear He.
  destruct (existsb isElement kids); cbn [cdata_free].
  - generalize (@nil ascii) as p.
    induction IH as [|k ks Hk _ IHks]; intros p; [reflexivity|].
    destruct k as [d | d | d | tag' attrs' kids']; cbn [regroup].
    + apply IHks.
    + apply IHks.
    + cbn [forallb cdata_free]. apply IHks.
    + cbn [forallb]. change (cdata_free (TextNode _)) with true.
      cbn [andb]. now rewrite (Hk (S i) eq_refl), IHks.
  - unfold textKids. now destruct (truthy _).
Qed.

(** With a conforming parser, a well-formed document whose tree lies in
    the fragment and needs no escaping is formatted to the text of its
    tree, which the parser reads as the [reformat] of the tree. *)
Lemma conforming_reparse {parser : DOMParser} (xml : str) (indentSize : nat) :
  conforms parser -> wellFormed xml ->
  fragment_tree (documentElement (parseFromString xml)) = true ->
  markup_free (documentElement (parseFromString xml)) = true ->
  formatXmlPreserveInline xml indentSize
  = formatNode (spaces indentSize) (documentElement (parseFromString xml)) 0
  /\ parseFromString
       (formatNode (spaces indentSize)
          (documentElement (parseFromString xml)) 0)
     = {| documentElement :=
            reformat (spaces indentSize)
              (documentElement (parseFromString xml)) 0 |}.
Proof.
  intros Hc Hwf Hfr Hmf. unfold fragment_tree in Hfr.
  apply andb_true_iff in Hfr as [He Hn]. split.
  - unfold formatXmlPreserveInline. unfold wellFormed in Hwf.
    now rewrite Hwf.
  - apply Hc; [now apply parse_document_formatNode|].
    now apply reformat_cdata_free.
Qed.

(** C2, amended.  Take a parser that reads the fragment as XML 1.0
    prescribes, and a document it accepts whose tree lies in the fragment
    (no name space; no character below U+0020 but TAB and LF in text,
    none in an attribute value).  If nothing the formatter writes
    needs escaping (no ['&'], ['<'] or double quote in an attribute value;
    no ['&'], ['<'] or [']]>'] in the trimmed text of a text node next to
    element siblings or in the trimmed text content of an element without
    element children), or if the formatted document is not well formed,
    so that the second pass returns it as it is, then formatting the
    formatted document gives it back unchanged, for every indent size. *)
Theorem C2_format_idempotent {parser : DOMParser} (xml : str)
  (indentSize : nat) :
  conforms parser -> wellFormed xml ->
  fragment_tree (documentElement (parseFromString xml)) = true ->
  markup_free (documentElement (parseFromString xml)) = true
  \/ ~ wellFormed (formatXmlPreserveInline xml indentSize) ->
  formatXmlPreserveInline (formatXmlPreserveInline xml indentSize) indentSize
  = formatXmlPreserveInline xml indentSize.
Proof.
  intros Hc Hwf Hfr [Hmf | Hbad].
  - destruct (conforming_reparse xml indentSize Hc Hwf Hfr Hmf)
      as [Hfirst Hdoc'].
    rewrite Hfirst. unfold formatXmlPreserveInline at 1.
    destruct (doc_querySelector _ _); [reflexivity|].
    rewrite Hdoc'. cbn [documentElement].
    apply (formatNode_reformat indentSize).
  - unfold formatXmlPreserveInline at 1. unfold wellFormed in Hbad.
    destruct (doc_querySelector
                (parseFromString (formatXmlPreserveInline xml indentSize))
                (ByTag (lit "parsererror"))); [reflexivity|].
    contradiction Hbad. reflexivity.
Qed.

Lemma C2_format_idempotent_witness :
  formatXmlPreserveInline (formatXmlPreserveInline looseProblem 4) 4
  = formatXmlPreserveInline looseProblem 4.
Proof.
  apply (@C2_format_idempotent xmlParser looseProblem 4).
  - intros s root H _. unfold parseFromString, xmlParser. now rewrite H.
  - vm_compute. reflexivity.
  - vm_compute. reflexivity.
  - left. vm_compute. reflexivity.
Defined.

(* ================================================================= *)
(** * The parser on the formatted document *)

(** ** Text up to white space *)

Lemma same_text_eq (a b : str) :
  same_text a b = true <-> strip_space a = strip_space b.
Proof. unfold same_text. apply str_eqb_eq. Qed.

Lemma same_text_refl (a : str) : same_text a a = true.
Proof. now apply same_text_eq. Qed.

Lemma strip_space_app (a b : str) :
  strip_space (a ++ b) = strip_space a ++ strip_space b.
Proof. apply filter_app. Qed.

Lemma strip_space_all_space (w : str) :
  all_space w = true -> strip_space w = [].
Proof.
  unfold all_space, strip_space. induction w as [|c w IH]; [reflexivity|].
  cbn [forallb filter]. intros H. apply andb_true_iff in H as [Hc Hw].
  rewrite Hc. cbn [negb]. now apply IH.
Qed.

Lemma strip_space_trimStart (s : str) :
  strip_space (trimStart s) = strip_space s.
Proof.
  induction s as [|c s IH]; [reflexivity|].
  cbn [trimStart]. destruct (is_js_space c) eqn:Hc; [|reflexivity].
  rewrite IH. unfold strip_space. cbn [filter]. now rewrite Hc.
Qed.

Lemma strip_space_rev (s : str) : strip_space (rev s) = rev (strip_space s).
Proof. unfold strip_space. apply filter_rev. Qed.

Lemma strip_space_trim (s : str) : strip_space (trim s) = strip_space s.
Proof.
  unfold trim, trimEnd.
  rewrite strip_space_rev, strip_space_trimStart, strip_space_rev.
  rewrite rev_involutive. apply strip_space_trimStart.
Qed.

Lemma strip_space_childLine (x : str) :
  strip_space (childLine x) = strip_space x.
Proof. unfold childLine. now destruct x. Qed.

Lemma strip_space_pad (n i : nat) :
  strip_space (LF :: repeat_str (spaces n) i) = [].
Proof. apply strip_space_all_space, all_space_pad. Qed.

Lemma strip_space_escape (s : str) :
  strip_space (flat_map escape_text_char s)
  = flat_map escape_text_char (strip_space s).
Proof.
  induction s as [|c s IH]; [reflexivity|].
  cbn [flat_map]. rewrite strip_space_app, IH.
  unfold strip_space at 3. cbn [filter]. fold (strip_space s).
  destruct (is_js_space c) eqn:Hc; cbn [negb].
  - replace (strip_space (escape_text_char c)) with (@nil ascii);
      [reflexivity|].
    revert Hc. ascii_cases c.
  - cbn [flat_map]. f_equal. revert Hc. ascii_cases c.
Qed.

Lemma strip_space_flat_map {A : Type} (f g : A -> str) (l l' : list A) :
  Forall2 (fun x y => strip_space (f x) = strip_space (g y)) l l' ->
  strip_space (flat_map f l) = strip_space (flat_map g l').
Proof.
  induction 1 as [|x y l l' Hxy _ IH]; [reflexivity|].
  cbn [flat_map]. now rewrite !strip_space_app, Hxy, IH.
Qed.

Lemma strip_space_join (l l' : list str) :
  Forall2 (fun x y => strip_space x = strip_space y) l l' ->
  strip_space (join [LF] l) = strip_space (join [LF] l').
Proof.
  induction 1 as [|x y l l' Hxy Hl IH]; [reflexivity|].
  cbn [join]. destruct Hl as [|x2 y2 l2 l2' Hxy2 Hl2]; [exact Hxy|].
  rewrite !strip_space_app, Hxy. f_equal. f_equal. exact IH.
Qed.

(** ** The re-parsed tree, seen through the DOM *)

Section Reformatted.
Variable indentSize : nat.
Local Abbreviation PADDING := (spaces indentSize).

Lemma tagName_reformat (k : Node) (j : nat) :
  tagName (reformat PADDING k j) = tagName k.
Proof.
  destruct k as [d | d | d | tag attrs kids]; try reflexivity.
  rewrite reformat_element. now destruct (existsb isElement kids).
Qed.

Lemma attributes_reformat (k : Node) (j : nat) :
  attributes (reformat PADDING k j) = attributes k.
Proof.
  destruct k as [d | d | d | tag attrs kids]; try reflexivity.
  rewrite reformat_element. now destruct (existsb isElement kids).
Qed.

Lemma matches_reformat (sel : Selector) (k : Node) (j : nat) :
  matches sel (reformat PADDING k j) = matches sel k.
Proof.
  destruct sel; cbn [matches]; unfold classList, getAttribute;
    now rewrite ?tagName_reformat, ?attributes_reformat.
Qed.

Lemma getAttribute_reformat (k : Node) (j : nat) (name : str) :
  getAttribute (reformat PADDING k j) name = getAttribute k name.
Proof. unfold getAttribute. now rewrite attributes_reformat. Qed.

Lemma tagIs_reformat (k : Node) (j : nat) (name : string) :
  tagIs (reformat PADDING k j) name = tagIs k name.
Proof. unfold tagIs. now rewrite tagName_reformat. Qed.

Lemma no_element_filter (kids : list Node) :
  existsb isElement kids = false -> filter isElement kids = [].
Proof.
  induction kids as [|k ks IH]; [reflexivity|].
  cbn [existsb filter]. intros H. apply orb_false_iff in H as [Hk Hks].
  now rewrite Hk, (IH Hks).
Qed.

Lemma no_element_descendants (kids : list Node) :
  existsb isElement kids = false ->
  flat_map withDescendants kids = [].
Proof.
  induction kids as [|k ks IH]; [reflexivity|].
  cbn [existsb flat_map]. intros H. apply orb_false_iff in H as [Hk Hks].
  unfold withDescendants at 1. now rewrite Hk, (IH Hks).
Qed.

Lemma descendants_element (tag : str) (attrs : list (str * str))
  (kids : list Node) :
  descendants (ElementNode tag attrs kids) = flat_map withDescendants kids.
Proof. reflexivity. Qed.

Lemma textKids_no_element (x : str) : existsb isElement (textKids x) = false.
Proof. unfold textKids. now destruct (truthy x). Qed.

Lemma children_regroup (j : nat) (kids : list Node) :
  forall p,
    filter isElement (regroup PADDING j kids p)
    = map (fun c => reformat PADDING c (S j)) (filter isElement kids).
Proof.
  induction kids as [|k ks IH]; intros p; [reflexivity|].
  destruct k as [d | d | d | tag attrs kids']; cbn [regroup].
  - apply IH.
  - apply IH.
  - cbn [filter]. change (isElement (TextNode _)) with false.
    change (isElement (CommentNode d)) with false. cbv iota. apply IH.
  - cbn [filter]. change (isElement (TextNode _)) with false. cbv iota.
    rewrite isElement_reformat.
    change (isElement (ElementNode tag attrs kids')) with true. cbv iota.
    cbn [map]. now rewrite IH.
Qed.

(** The element children of the re-parsed element are the re-parsed
    element children. *)
Lemma children_reformat (k : Node) (j : nat) :
  children (reformat PADDING k j)
  = map (fun c => reformat PADDING c (S j)) (children k).
Proof.
  destruct k as [d | d | d | tag attrs kids]; try reflexivity.
  rewrite reformat_element. unfold children.
  destruct (existsb isElement kids) eqn:He; cbn [childNodes].
  - apply children_regroup.
  - now rewrite (no_element_filter _ (textKids_no_element _)),
      (no_element_filter _ He).
Qed.

(** The elements below the re-parsed element are the re-parsed elements
    below the element, in the same order. *)
Lemma descendants_reformat (k : Node) :
  forall j,
    Forall2 (reformatted PADDING) (descendants k)
            (descendants (reformat PADDING k j)).
Proof.
  induction k as [d | d | d | tag attrs kids IH] using Node_induction;
    intros j; try constructor.
  rewrite reformat_element.
  destruct (existsb isElement kids) eqn:He; rewrite !descendants_element.
  - clear He. generalize (@nil ascii) as p.
    induction IH as [|k ks Hk _ IHks]; intros p; [constructor|].
    destruct k as [d | d | d | tag' attrs' kids']; cbn [regroup flat_map].
    + apply IHks.
    + apply IHks.
    + apply IHks.
    + unfold withDescendants at 1 3 4.
      change (isElement (TextNode _)) with false.
      rewrite isElement_reformat.
      change (isElement (ElementNode tag' attrs' kids')) with true.
      cbv iota. cbn [app]. constructor; [now exists (S j)|].
      apply Forall2_app; [apply Hk | apply IHks].
  - rewrite (no_element_descendants _ He).
    rewrite (no_element_descendants _ (textKids_no_element _)). constructor.
Qed.

Lemma filter_Forall2 {A : Type} (R : A -> A -> Prop) (p : A -> bool)
  (l l' : list A) :
  (forall x y, R x y -> p x = p y) ->
  Forall2 R l l' -> Forall2 R (filter p l) (filter p l').
Proof.
  intros Hp. induction 1 as [|x y l l' Hxy _ IH]; [constructor|].
  cbn [filter]. rewrite (Hp x y Hxy). destruct (p y); [constructor|]; assumption.
Qed.

Lemma matches_reformatted (sel : Selector) (x y : Node) :
  reformatted PADDING x y -> matches sel x = matches sel y.
Proof. intros [j ->]. now rewrite matches_reformat. Qed.

Lemma querySelectorAll_reformat (k : Node) (j : nat) (sel : Selector) :
  Forall2 (reformatted PADDING) (querySelectorAll k sel)
          (querySelectorAll (reformat PADDING k j) sel).
Proof.
  unfold querySelectorAll. apply filter_Forall2.
  - apply matches_reformatted.
  - apply descendants_reformat.
Qed.

(** ** Text and markup of the re-parsed tree *)

Lemma keeps_text_element (tag : str) (attrs : list (str * str))
  (kids : list Node) :
  keeps_text (ElementNode tag attrs kids)
  = negb (existsb isElement kids) || forallb text_kid kids.
Proof. reflexivity. Qed.

Lemma text_regroup (j : nat) (kids : list Node) :
  Forall (fun k => keeps_text k = true ->
                   forall i, strip_space (descendantText (reformat PADDING k i))
                             = strip_space (descendantText k)) kids ->
  forallb text_kid kids = true ->
  forall p,
    strip_space (flat_map descendantText (regroup PADDING j kids p))
    = strip_space p ++ strip_space (flat_map descendantText kids).
Proof.
  induction 1 as [|k ks Hk _ IH]; intros Ht p.
  - cbn [regroup flat_map descendantText].
    rewrite !app_nil_r, strip_space_app.
    now rewrite strip_space_pad, app_nil_r.
  - cbn [forallb] in Ht. apply andb_true_iff in Ht as [Htk Ht].
    destruct k as [d | d | d | tag attrs kids'].
    + cbn [regroup flat_map descendantText].
      rewrite (IH Ht), !strip_space_app, strip_space_childLine,
        strip_space_trim.
      now rewrite app_assoc.
    + cbn [regroup flat_map descendantText]. cbn [text_kid] in Htk.
      now rewrite (IH Ht), strip_space_app, (strip_space_all_space d Htk).
    + cbn [regroup flat_map descendantText app].
      rewrite !strip_space_app.
      rewrite strip_space_pad, app_nil_r.
      now rewrite (IH Ht []).
    + cbn [regroup flat_map descendantText].
      rewrite !strip_space_app.
      rewrite strip_space_pad, app_nil_r.
      rewrite (Hk Htk (S j)), (IH Ht []). reflexivity.
Qed.

(** The text of the re-parsed tree is the text of the tree, white space
    aside. *)
Lemma descendantText_reformat (k : Node) :
  keeps_text k = true ->
  forall i, strip_space (descendantText (reformat PADDING k i))
            = strip_space (descendantText k).
Proof.
  induction k as [d | d | d | tag attrs kids IH] using Node_induction;
    intros Ht i; try reflexivity.
  rewrite reformat_element. rewrite keeps_text_element in Ht.
  destruct (existsb isElement kids) eqn:He; cbn [descendantText].
  - cbn [negb orb] in Ht. now rewrite (text_regroup i kids IH Ht []).
  - unfold textKids.
    destruct (trim (flat_map descendantText kids)) as [|c t] eqn:Et.
    + cbn [truthy flat_map].
      rewrite <- (strip_space_trim (flat_map descendantText kids)), Et.
      reflexivity.
    + cbn [truthy flat_map descendantText]. rewrite app_nil_r, <- Et.
      apply strip_space_trim.
Qed.

Lemma textContent_reformat (k : Node) (i : nat) :
  keeps_text k = true ->
  strip_space (textContent (reformat PADDING k i))
  = strip_space (textContent k).
Proof.
  intros Ht. destruct k as [d | d | d | tag attrs kids]; try reflexivity.
  rewrite reformat_element.
  pose proof (descendantText_reformat (ElementNode tag attrs kids) Ht i) as H.
  rewrite reformat_element in H.
  destruct (existsb isElement kids); exact H.
Qed.

Lemma strip_escape_childLine (d : str) :
  strip_space (flat_map escape_text_char (childLine (trim d)))
  = strip_space (flat_map escape_text_char d).
Proof.
  now rewrite !strip_space_escape, strip_space_childLine, strip_space_trim.
Qed.

Lemma strip_escape_pad (p : str) (i : nat) :
  strip_space (flat_map escape_text_char (p ++ LF :: repeat_str PADDING i))
  = strip_space (flat_map escape_text_char p).
Proof.
  now rewrite !strip_space_escape, strip_space_app, strip_space_pad, app_nil_r.
Qed.

Lemma serialize_regroup (j : nat) (kids : list Node) :
  Forall (fun k => keeps_markup k = true ->
                   forall i, strip_space (serialize (reformat PADDING k i))
                             = strip_space (serialize k)) kids ->
  forallb keeps_markup kids = true ->
  forall p,
    strip_space (flat_map serialize (regroup PADDING j kids p))
    = strip_space (flat_map escape_text_char p)
      ++ strip_space (flat_map serialize kids).
Proof.
  induction 1 as [|k ks Hk _ IH]; intros Ht p.
  - cbn [regroup flat_map serialize].
    now rewrite !app_nil_r, strip_escape_pad.
  - cbn [forallb] in Ht. apply andb_true_iff in Ht as [Htk Ht].
    destruct k as [d | d | d | tag attrs kids']; try discriminate.
    + cbn [regroup]. rewrite (IH Ht).
      cbn [flat_map serialize]. rewrite flat_map_app, !strip_space_app.
      now rewrite strip_escape_childLine, app_assoc.
    + cbn [regroup]. cbn [flat_map]. rewrite !strip_space_app.
      rewrite (IH Ht []).
      cbn [serialize flat_map app]. now rewrite strip_escape_pad.
    + cbn [regroup]. cbn [flat_map]. rewrite !strip_space_app.
      rewrite (Hk Htk (S j)), (IH Ht []).
      cbn [serialize flat_map app]. now rewrite strip_escape_pad.
Qed.

Lemma serialize_text_only (kids : list Node) :
  forallb (fun k => nodeType k =? TEXT_NODE) kids = true ->
  flat_map serialize kids
  = flat_map escape_text_char (flat_map descendantText kids).
Proof.
  induction kids as [|k ks IH]; [reflexivity|].
  cbn [forallb]. intros Ht.
  apply andb_true_iff in Ht as [Htk Ht].
  destruct k as [d | d | d | tag attrs kids']; try discriminate.
  cbn [flat_map serialize descendantText].
  now rewrite flat_map_app, (IH Ht).
Qed.

(** The children of the re-parsed element serialise as the children of
    the element, white space aside. *)
Lemma inner_reformat (tag : str) (attrs : list (str * str))
  (kids : list Node) (i : nat) :
  Forall (fun k => keeps_markup k = true ->
                   forall i, strip_space (serialize (reformat PADDING k i))
                             = strip_space (serialize k)) kids ->
  keeps_inner (ElementNode tag attrs kids) = true ->
  strip_space (flat_map serialize
                 (childNodes (reformat PADDING (ElementNode tag attrs kids) i)))
  = strip_space (flat_map serialize kids).
Proof.
  intros IH Ht. cbn [keeps_inner] in Ht.
  rewrite reformat_element.
  destruct (existsb isElement kids) eqn:He; cbn [childNodes].
  - now rewrite (serialize_regroup i kids IH Ht []).
  - rewrite (serialize_text_only _ Ht). unfold textKids.
    destruct (trim (flat_map descendantText kids)) as [|c t] eqn:Et.
    + cbn [truthy flat_map]. rewrite strip_space_escape.
      rewrite <- (strip_space_trim (flat_map descendantText kids)), Et.
      reflexivity.
    + cbn [truthy]. change (flat_map serialize [TextNode (c :: t)])
        with (flat_map escape_text_char (c :: t) ++ []).
      rewrite app_nil_r, <- Et.
      now rewrite !strip_space_escape, strip_space_trim.
Qed.

(** The re-parsed element has children exactly when the element has
    some. *)
Lemma inner_nil (tag : str) (attrs : list (str * str))
  (kids : list Node) (i : nat) :
  keeps_markup (ElementNode tag attrs kids) = true ->
  childNodes (reformat PADDING (ElementNode tag attrs kids) i) = []
  <-> kids = [].
Proof.
  intros Ht. cbn [keeps_markup] in Ht. rewrite reformat_element.
  destruct (existsb isElement kids) eqn:He; cbn [childNodes].
  - split.
    + intros E. pose proof (regroup_has_element indentSize i kids He []) as H.
      rewrite E in H. discriminate.
    + intros ->. discriminate.
  - apply andb_true_iff in Ht as [_ Ht].
    destruct kids as [|k ks]; [split; reflexivity|].
    unfold textKids. rewrite Ht. split; discriminate.
Qed.

Lemma keeps_markup_inner (k : Node) :
  keeps_markup k = true -> keeps_inner k = true.
Proof.
  destruct k as [d | d | d | tag attrs kids]; try reflexivity.
  cbn [keeps_markup keeps_inner].
  destruct (existsb isElement kids); [tauto|].
  intros H. now apply andb_true_iff in H.
Qed.

Lemma reformat_shape (tag : str) (attrs : list (str * str))
  (kids : list Node) (i : nat) :
  reformat PADDING (ElementNode tag attrs kids) i
  = ElementNode tag attrs
      (childNodes (reformat PADDING (ElementNode tag attrs kids) i)).
Proof. rewrite reformat_element. now destruct (existsb isElement kids). Qed.

Lemma serialize_reformat (k : Node) :
  keeps_markup k = true ->
  forall i, strip_space (serialize (reformat PADDING k i))
            = strip_space (serialize k).
Proof.
  induction k as [d | d | d | tag attrs kids IH] using Node_induction;
    intros Ht i; try reflexivity.
  pose proof (inner_reformat tag attrs kids i IH (keeps_markup_inner _ Ht))
    as Hin.
  pose proof (inner_nil tag attrs kids i Ht) as Hnil.
  rewrite reformat_shape.
  destruct (childNodes (reformat PADDING (ElementNode tag attrs kids) i))
    as [|k' ks'].
  - rewrite (proj1 Hnil eq_refl). reflexivity.
  - destruct kids as [|k0 ks0].
    + discriminate (proj2 Hnil eq_refl).
    + cbn [serialize]. rewrite !strip_space_app, Hin. reflexivity.
Qed.

Lemma innerHTML_reformat (k : Node) (i : nat) :
  keeps_inner k = true ->
  strip_space (innerHTML (reformat PADDING k i)) = strip_space (innerHTML k).
Proof.
  intros Ht. destruct k as [d | d | d | tag attrs kids]; try reflexivity.
  unfold innerHTML.
  apply (inner_reformat tag attrs kids i); [|exact Ht].
  apply Forall_forall. intros x _. apply serialize_reformat.
Qed.

End Reformatted.

(** ** The conditions are inherited *)

Lemma keeps_inner_descendants (k : Node) :
  keeps_inner k = true ->
  Forall (fun d => keeps_markup d = true) (descendants k).
Proof.
  assert (Hm : forall k, keeps_markup k = true ->
                         Forall (fun d => keeps_markup d = true) (descendants k)).
  { clear k.
    induction k as [d | d | d | tag attrs kids IH] using Node_induction;
      intros Hk; try constructor.
    rewrite descendants_element. cbn [keeps_markup] in Hk.
    destruct (existsb isElement kids) eqn:He.
    - clear He. induction IH as [|k ks Hk1 _ IHks]; [constructor|].
      cbn [forallb flat_map] in *. apply andb_true_iff in Hk as [Hk0 Hks].
      apply Forall_app. split; [|now apply IHks].
      unfold withDescendants. destruct (isElement k); [|constructor].
      constructor; [exact Hk0 | now apply Hk1].
    - rewrite (no_element_descendants _ He). constructor. }
  destruct k as [d | d | d | tag attrs kids]; try constructor.
  rewrite descendants_element. cbn [keeps_inner].
  destruct (existsb isElement kids) eqn:He.
  - clear He. induction kids as [|k ks IHks]; [constructor|].
    cbn [forallb flat_map]. intros Hk. apply andb_true_iff in Hk as [Hk0 Hks].
    apply Forall_app. split; [|now apply IHks].
    unfold withDescendants. destruct (isElement k); [|constructor].
    constructor; [exact Hk0 | now apply Hm].
  - rewrite (no_element_descendants _ He). constructor.
Qed.

Lemma keeps_markup_keeps_text (k : Node) :
  keeps_markup k = true -> keeps_text k = true.
Proof.
  induction k as [d | d | d | tag attrs kids IH] using Node_induction;
    intros Hk; try reflexivity.
  rewrite keeps_text_element. cbn [keeps_markup] in Hk.
  destruct (existsb isElement kids); [|reflexivity]. cbn [negb orb].
  induction IH as [|k ks Hk1 _ IHks]; [reflexivity|].
  cbn [forallb] in *. apply andb_true_iff in Hk as [Hk0 Hks].
  rewrite (IHks Hks), andb_true_r.
  destruct k as [d | d | d | tag' attrs' kids']; try discriminate;
    try reflexivity.
  unfold text_kid. now apply Hk1.
Qed.

Lemma keeps_inner_keeps_text (k : Node) :
  keeps_inner k = true -> keeps_text k = true.
Proof.
  destruct k as [d | d | d | tag attrs kids]; try reflexivity.
  rewrite keeps_text_element. cbn [keeps_inner].
  destruct (existsb isElement kids); [|reflexivity]. cbn [negb orb].
  induction kids as [|k ks IHks]; [reflexivity|].
  cbn [forallb]. intros Hk. apply andb_true_iff in Hk as [Hk0 Hks].
  rewrite (IHks Hks), andb_true_r.
  destruct k as [d | d | d | tag' attrs' kids']; try discriminate;
    try reflexivity.
  unfold text_kid. now apply keeps_markup_keeps_text.
Qed.

(** ** [parseProblem] on the re-parsed tree *)

Section ParseReformatted.
Variable indentSize : nat.
Local Abbreviation PADDING := (spaces indentSize).

Lemma trimmed_text_reformatted (x y : Node) :
  reformatted PADDING x y -> keeps_text x = true ->
  same_text (trim (textContent y)) (trim (textContent x)) = true.
Proof.
  intros [j ->] Ht. apply same_text_eq.
  rewrite !strip_space_trim. now apply textContent_reformat.
Qed.

Lemma innerHTML_reformatted (x y : Node) :
  reformatted PADDING x y -> keeps_inner x = true ->
  same_text (innerHTML y) (innerHTML x) = true.
Proof.
  intros [j ->] Ht. apply same_text_eq. now apply innerHTML_reformat.
Qed.

Lemma getAttribute_reformatted (x y : Node) (name : str) :
  reformatted PADDING x y -> getAttribute y name = getAttribute x name.
Proof. intros [j ->]. apply getAttribute_reformat. Qed.

Lemma tagIs_reformatted (x y : Node) (name : string) :
  reformatted PADDING x y -> tagIs y name = tagIs x name.
Proof. intros [j ->]. apply tagIs_reformat. Qed.

(** The first match of a selector, on both sides. *)
Lemma querySelector_reformatted (x y : Node) (sel : Selector) :
  reformatted PADDING x y ->
  match querySelector x sel, querySelector y sel with
  | Some a, Some b => reformatted PADDING a b
  | None, None => True
  | _, _ => False
  end.
Proof.
  intros [j ->]. unfold querySelector.
  pose proof (querySelectorAll_reformat indentSize x j sel) as H.
  destruct H as [|a b l l' Hab _]; [exact I | exact Hab].
Qed.

Lemma labelOf_reformatted (x y : Node) :
  reformatted PADDING x y -> question_ok x = true ->
  same_text (labelOf y) (labelOf x) = true.
Proof.
  intros Hxy Ht. unfold labelOf. unfold question_ok in Ht.
  apply andb_true_iff in Ht as [Ht _].
  pose proof (querySelector_reformatted x y (ByTag (lit "label")) Hxy) as H.
  destruct (querySelector x (ByTag (lit "label"))) as [a|],
           (querySelector y (ByTag (lit "label"))) as [b|];
    try contradiction; [|reflexivity].
  now apply trimmed_text_reformatted.
Qed.

Lemma parseChoice_reformatted (x y : Node) :
  reformatted PADDING x y -> keeps_text x = true ->
  same_choice (parseChoice y) (parseChoice x) = true.
Proof.
  intros Hxy Ht. unfold same_choice, parseChoice. cbn [text correct].
  rewrite (trimmed_text_reformatted x y Hxy Ht).
  rewrite (getAttribute_reformatted x y _ Hxy).
  now destruct (getAttribute x (lit "correct")) as [v|];
    [destruct (str_eqb v (lit "true"))|].
Qed.

Lemma same_list_Forall2 {A : Type} (eqb : A -> A -> bool) (l l' : list A) :
  Forall2 (fun a b => eqb a b = true) l l' -> same_list eqb l l' = true.
Proof.
  induction 1 as [|a b l l' Hab _ IH]; [reflexivity|].
  cbn [same_list]. now rewrite Hab, IH.
Qed.

Lemma same_list_app {A : Type} (eqb : A -> A -> bool) (a a' b b' : list A) :
  same_list eqb a a' = true -> same_list eqb b b' = true ->
  same_list eqb (a ++ b) (a' ++ b') = true.
Proof.
  revert a'. induction a as [|x a IH]; intros [|y a'] Ha Hb;
    try discriminate; [exact Hb|].
  cbn [same_list app] in *. apply andb_true_iff in Ha as [Hxy Ha].
  now rewrite Hxy, (IH a' Ha Hb).
Qed.

Lemma choices_reformatted (l l' : list Node) :
  Forall2 (reformatted PADDING) l l' ->
  forallb keeps_text l = true ->
  same_list same_choice (map parseChoice l') (map parseChoice l) = true.
Proof.
  induction 1 as [|a b l l' Hab _ IH]; intros Ht; [reflexivity|].
  cbn [forallb] in Ht. apply andb_true_iff in Ht as [Ha Hl].
  cbn [map same_list].
  now rewrite (parseChoice_reformatted a b Hab Ha), (IH Hl).
Qed.

Lemma parseMultipleChoice_reformatted (x y : Node) :
  reformatted PADDING x y -> question_ok x = true ->
  tagIs x "multiplechoiceresponse" = true ->
  same_question (parseMultipleChoice y) (parseMultipleChoice x) = true.
Proof.
  intros Hxy Ht Hmc. unfold parseMultipleChoice. cbn [same_question].
  rewrite (labelOf_reformatted x y Hxy Ht). cbn [andb].
  unfold question_ok in Ht. rewrite Hmc in Ht.
  apply andb_true_iff in Ht as [_ Hch].
  destruct Hxy as [j ->].
  rewrite (choices_reformatted _ _
             (querySelectorAll_reformat indentSize x j (ByTag (lit "choice")))
             Hch).
  cbn [andb].
  pose proof (querySelector_reformatted x (reformat PADDING x j)
                (ByTag (lit "choicegroup")) (ex_intro _ j eq_refl)) as H.
  destruct (querySelector x (ByTag (lit "choicegroup"))) as [a|],
           (querySelector (reformat PADDING x j) (ByTag (lit "choicegroup")))
             as [b|]; try contradiction; [|reflexivity].
  rewrite (getAttribute_reformatted a b _ H).
  apply Bool.eqb_reflx.
Qed.

Lemma parseNumerical_reformatted (x y : Node) :
  reformatted PADDING x y -> question_ok x = true ->
  same_question (parseNumerical y) (parseNumerical x) = true.
Proof.
  intros Hxy Ht. unfold parseNumerical. cbn [same_question].
  rewrite (labelOf_reformatted x y Hxy Ht).
  rewrite (getAttribute_reformatted x y _ Hxy).
  now rewrite !str_eqb_refl.
Qed.

Lemma parseString_reformatted (x y : Node) :
  reformatted PADDING x y -> question_ok x = true ->
  same_question (parseString y) (parseString x) = true.
Proof.
  intros Hxy Ht. unfold parseString. cbn [same_question].
  rewrite (labelOf_reformatted x y Hxy Ht).
  rewrite (getAttribute_reformatted x y _ Hxy).
  now rewrite str_eqb_refl.
Qed.

Lemma questionOf_reformatted (x y : Node) :
  reformatted PADDING x y -> question_ok x = true ->
  same_question (questionOf y) (questionOf x) = true.
Proof.
  intros Hxy Ht. unfold questionOf.
  rewrite !(tagIs_reformatted x y _ Hxy).
  destruct (tagIs x "multiplechoiceresponse") eqn:Hmc;
    [now apply parseMultipleChoice_reformatted|].
  destruct (tagIs x "numericalresponse");
    [now apply parseNumerical_reformatted | now apply parseString_reformatted].
Qed.

Lemma not_header (x : str) :
  strip_space x <> lit "Explanation" ->
  str_eqb (trim x) (lit "Explanation") = false.
Proof.
  intros H. apply str_eqb_neq. intros E. apply H.
  rewrite <- strip_space_trim, E. reflexivity.
Qed.

(** The header test of [parseSolution] has the same outcome on a
    paragraph and on its re-parsed form. *)
Lemma header_reformatted (x y : Node) :
  reformatted PADDING x y -> keeps_text x = true ->
  is_split_header x = false ->
  str_eqb (trim (textContent y)) (lit "Explanation")
  = str_eqb (trim (textContent x)) (lit "Explanation").
Proof.
  intros [j ->] Ht Hp.
  destruct x as [d | d | d | tag attrs kids]; try reflexivity.
  pose proof (textContent_reformat indentSize _ j Ht) as Htext.
  rewrite reformat_element in *. unfold is_split_header in Hp.
  cbn [childNodes] in Hp.
  destruct (existsb isElement kids).
  - cbn [andb] in Hp. apply str_eqb_neq in Hp.
    rewrite !not_header; [reflexivity | exact Hp |].
    rewrite Htext. exact Hp.
  - f_equal. unfold textContent. cbn [descendantText]. unfold textKids.
    destruct (trim (flat_map descendantText kids)) as [|c t] eqn:Et.
    + reflexivity.
    + cbn [truthy flat_map descendantText]. rewrite app_nil_r, <- Et.
      apply trim_idempotent.
Qed.

Lemma paragraphs_reformatted (ps ps' : list Node) :
  Forall2 (reformatted PADDING) ps ps' ->
  Forall (fun d => keeps_text d = true) ps ->
  Forall2 (fun a b => strip_space a = strip_space b)
          (map (fun p => trim (textContent p)) ps')
          (map (fun p => trim (textContent p)) ps).
Proof.
  induction 1 as [|a b l l' Hab _ IH]; intros Ht; [constructor|].
  inversion Ht as [|? ? Ha Hl]; subst. cbn [map]. constructor; [|now apply IH].
  apply same_text_eq. now apply trimmed_text_reformatted.
Qed.

Lemma dropHeader_reformatted (ps ps' : list Node) :
  Forall2 (reformatted PADDING) ps ps' ->
  Forall (fun d => keeps_text d = true) ps ->
  match ps with p :: _ => is_split_header p = false | [] => True end ->
  Forall2 (fun a b => strip_space a = strip_space b)
          (dropHeader (map (fun p => trim (textContent p)) ps'))
          (dropHeader (map (fun p => trim (textContent p)) ps)).
Proof.
  intros H Ht Hp. pose proof (paragraphs_reformatted ps ps' H Ht) as Hall.
  destruct H as [|a b l l' Hab Hl]; [constructor|].
  inversion Ht as [|? ? Ha _]; subst.
  cbn [map dropHeader] in *.
  rewrite (header_reformatted a b Hab Ha Hp).
  destruct (str_eqb (trim (textContent a)) (lit "Explanation")).
  - now inversion Hall.
  - exact Hall.
Qed.

Lemma parseSolution_reformatted (x y : Node) :
  reformatted PADDING x y -> solution_ok x = true ->
  same_solution (parseSolution y) (parseSolution x) = true.
Proof.
  intros Hxy Ht. unfold parseSolution. unfold solution_ok in Ht.
  pose proof (querySelector_reformatted x y (ByClass (lit "detailed-solution"))
                Hxy) as H.
  destruct (querySelector x (ByClass (lit "detailed-solution"))) as [a|],
           (querySelector y (ByClass (lit "detailed-solution"))) as [b|];
    try contradiction; unfold same_solution; cbn [explanation htmlContent].
  - destruct H as [j ->]. apply andb_true_iff in Ht as [Hka Hh].
    rewrite (innerHTML_reformatted a _ (ex_intro _ j eq_refl) Hka), andb_true_r.
    apply same_text_eq. rewrite !forEachParagraph_dropHeader.
    apply strip_space_join. apply dropHeader_reformatted.
    + apply querySelectorAll_reformat.
    + pose proof (keeps_inner_descendants a Hka) as Hd.
      rewrite Forall_forall in *. intros p Hp.
      apply keeps_markup_keeps_text. apply Hd.
      unfold querySelectorAll in Hp. now apply filter_In in Hp.
    + unfold header_ok in Hh.
      destruct (querySelectorAll a (ByTag (lit "p"))); [exact I|].
      now apply negb_true_iff in Hh.
  - pose proof (keeps_inner_keeps_text x Ht) as Hkt.
    now rewrite (trimmed_text_reformatted x y Hxy Hkt),
      (innerHTML_reformatted x y Hxy Ht).
Qed.

Lemma kinds_reformatted (x y : Node) :
  reformatted PADDING x y ->
  isHtmlEl y = isHtmlEl x /\ isQuestionEl y = isQuestionEl x
  /\ isSolutionEl y = isSolutionEl x.
Proof.
  intros H. unfold isHtmlEl, isQuestionEl, isSolutionEl.
  now rewrite !(tagIs_reformatted x y _ H).
Qed.

Lemma same_text_app (a a' b b' : str) :
  same_text a a' = true -> same_text b b' = true ->
  same_text (a ++ b) (a' ++ b') = true.
Proof.
  rewrite !same_text_eq, !strip_space_app. now intros -> ->.
Qed.

Lemma reads_of_step (child : Node) (rest : list Node) :
  reads_of (child :: rest) =
  if isHtmlEl child then keeps_inner child && reads_of rest
  else if isQuestionEl child then
    question_ok child
    && match rest with
       | next :: rest2 =>
           if isSolutionEl next then solution_ok next && reads_of rest2
           else reads_of rest
       | [] => true
       end
  else reads_of rest.
Proof. reflexivity. Qed.

(** The main loop gives the same intro and the same blocks on the
    re-parsed children, white space aside. *)
Lemma processChildren_reformatted (l l' : list Node) :
  Forall2 (reformatted PADDING) l l' -> reads_of l = true ->
  forall f i i' b b',
    same_text i' i = true -> same_list same_block b' b = true ->
    same_text (fst (processChildren l' f i' b'))
              (fst (processChildren l f i b)) = true
    /\ same_list same_block (snd (processChildren l' f i' b'))
                 (snd (processChildren l f i b)) = true.
Proof.
  assert (H : forall n l l', List.length l <= n ->
    Forall2 (reformatted PADDING) l l' -> reads_of l = true ->
    forall f i i' b b',
      same_text i' i = true -> same_list same_block b' b = true ->
      same_text (fst (processChildren l' f i' b'))
                (fst (processChildren l f i b)) = true
      /\ same_list same_block (snd (processChildren l' f i' b'))
                   (snd (processChildren l f i b)) = true).
  { induction n as [|n IH]; intros l0 l0' Hn H2 Ht f i i' b b' Hi Hb.
    - destruct H2; [now split | cbn [List.length] in Hn; lia].
    - destruct H2 as [|c c' rest rest' Hc Hrest]; [now split|].
      cbn [List.length] in Hn. rewrite reads_of_step in Ht.
      destruct (kinds_reformatted c c' Hc) as (Eh & Eq & _).
      rewrite !processChildren_step, Eh, Eq.
      destruct (isHtmlEl c) eqn:Hhtml.
      + apply andb_true_iff in Ht as [Hkm Ht]. destruct f.
        * apply IH; try assumption; [lia|].
          apply same_list_app; [exact Hb|]. cbn [same_list parseHtmlBlock same_block].
          now rewrite (innerHTML_reformatted c c' Hc Hkm).
        * apply IH; try assumption; [lia|].
          apply same_text_app; [exact Hi|].
          now apply innerHTML_reformatted.
      + destruct (isQuestionEl c).
        * apply andb_true_iff in Ht as [Hq Ht].
          destruct Hrest as [|s s' rest2 rest2' Hs Hrest2].
          -- apply IH; [cbn [List.length]; lia | constructor | reflexivity
                        | exact Hi |].
             apply same_list_app; [exact Hb|]. cbn [same_list same_block same_option].
             now rewrite (questionOf_reformatted c c' Hc Hq).
          -- destruct (kinds_reformatted s s' Hs) as (_ & _ & Es). rewrite Es.
             destruct (isSolutionEl s) eqn:Hsol.
             ++ apply andb_true_iff in Ht as [Hso Ht].
                apply IH; [cbn [List.length] in Hn; lia | exact Hrest2
                           | exact Ht | exact Hi |].
                apply same_list_app; [exact Hb|].
                cbn [same_list same_block same_option].
                now rewrite (questionOf_reformatted c c' Hc Hq),
                  (parseSolution_reformatted s s' Hs Hso).
             ++ apply IH; [lia | now constructor | exact Ht | exact Hi |].
                apply same_list_app; [exact Hb|].
                cbn [same_list same_block same_option].
                now rewrite (questionOf_reformatted c c' Hc Hq).
        * apply IH; try assumption. lia. }
  intros H2 Ht. apply (H (List.length l) l l' (le_n _) H2 Ht).
Qed.

Lemma same_metadata_refl (m : ProblemMetadata) : same_metadata m m = true.
Proof.
  unfold same_metadata. rewrite str_eqb_refl. cbn [andb].
  destruct (maxAttempts m) as [[|z]|], (markdown m) as [v|];
    cbn [same_option same_number andb]; rewrite ?Z.eqb_refl, ?str_eqb_refl;
    reflexivity.
Qed.

Lemma parseProblemEl_reformatted (x y : Node) :
  reformatted PADDING x y -> reads_of (children x) = true ->
  same_parsed (parseProblemEl y) (parseProblemEl x) = true.
Proof.
  intros [j ->] Ht. unfold same_parsed.
  rewrite !blocks_parseProblemEl, !introHtml_parseProblemEl.
  assert (Hm : metadata (parseProblemEl (reformat PADDING x j))
               = metadata (parseProblemEl x)).
  { unfold parseProblemEl.
    destruct (processChildren (children (reformat PADDING x j)) false [] []).
    destruct (processChildren (children x) false [] []).
    cbn [metadata]. unfold parseMetadata.
    now rewrite !getAttribute_reformat. }
  rewrite Hm, same_metadata_refl. cbn [andb].
  rewrite children_reformat.
  destruct (processChildren_reformatted (children x)
              (map (fun c => reformat PADDING c (S j)) (children x)))
    with (f := false) (i := @nil ascii) (i' := @nil ascii)
         (b := @nil ProblemBlock) (b' := @nil ProblemBlock) as [H1 H2].
  - clear Ht. induction (children x) as [|c l IH]; constructor;
      [now exists (S j) | exact IH].
  - exact Ht.
  - reflexivity.
  - reflexivity.
  - now rewrite H1, H2.
Qed.

(** The first match of a selector in the document, on both sides. *)
Lemma doc_querySelector_reformat (root : Node) (sel : Selector) :
  match doc_querySelector {| documentElement := root |} sel,
        doc_querySelector {| documentElement := reformat PADDING root 0 |} sel
  with
  | Some a, Some b => reformatted PADDING a b
  | None, None => True
  | _, _ => False
  end.
Proof.
  unfold doc_querySelector. cbn [documentElement].
  assert (H2 : Forall2 (reformatted PADDING) (root :: descendants root)
                 (reformat PADDING root 0
                  :: descendants (reformat PADDING root 0))).
  { constructor; [now exists 0 | apply descendants_reformat]. }
  pose proof (filter_Forall2 _ (matches sel) _ _
                (matches_reformatted indentSize sel) H2) as H.
  destruct H as [|a b l l' Hab _]; [exact I | exact Hab].
Qed.

End ParseReformatted.

(* ================================================================= *)
(** * Formatting and parsing *)

(** C1 as stated fails: the formatter unescapes, so a twice-escaped
    ampersand in the title is read differently after formatting, although
    the formatted document is well formed. *)
Lemma C1_counterexample :
  @wellFormed xmlParser twiceEscaped /\
  @wellFormed xmlParser (formatXmlPreserveInline twiceEscaped 2) /\
  exists p q,
    parseProblem (formatXmlPreserveInline twiceEscaped 2) = Ok p /\
    parseProblem twiceEscaped = Ok q /\
    displayName (metadata p) = lit "R&D" /\
    displayName (metadata q) = lit "R&amp;D" /\
    same_parsed p q = false.
Proof.
  split; [vm_compute; reflexivity|].
  split; [vm_compute; reflexivity|].
  eexists _, _.
  split; [vm_compute; reflexivity|].
  split; [vm_compute; reflexivity|].
  repeat split; vm_compute; reflexivity.
Qed.

(** C1, amended.  Take a parser that reads the fragment as XML 1.0
    prescribes, and a document it accepts whose tree lies in the fragment,
    in which nothing the formatter writes needs escaping, and in which the
    formatter keeps what [parseProblem] reads: the inner markup it reads
    (of an [html] child of the [problem] element, and of a solution that
    follows a question: of its marker element, or of the solution if it
    has none) holds no CDATA section, no comment inside an element
    without element children and no element with white space only; the
    label and the choices it reads hold no CDATA section with text beside
    element children; the first paragraph below a marker element it reads
    does not both have element children and read "Explanation" once its
    white space is taken out.  Then the formatted document is well formed
    and [parseProblem] gives the same on it as on the document: the same
    error, or documents whose fields read from attributes are equal and
    whose fields read from text and markup are equal once white space is
    taken out. *)
Theorem C1_format_preserves_parse {parser : DOMParser} (xml : str)
  (indentSize : nat) :
  conforms parser -> wellFormed xml ->
  fragment_tree (documentElement (parseFromString xml)) = true ->
  markup_free (documentElement (parseFromString xml)) = true ->
  reads_kept (documentElement (parseFromString xml)) = true ->
  wellFormed (formatXmlPreserveInline xml indentSize) /\
  same_result (parseProblem (formatXmlPreserveInline xml indentSize))
              (parseProblem xml) = true.
Proof.
  intros Hc Hwf Hfr Hmf Ht.
  destruct (conforming_reparse xml indentSize Hc Hwf Hfr Hmf) as [Hfirst Hdoc'].
  unfold wellFormed in *. rewrite Hfirst. unfold parseProblem.
  rewrite Hdoc'.
  destruct (parseFromString xml) as [root]. cbn [documentElement] in *.
  pose proof (doc_querySelector_reformat indentSize root
                (ByTag (lit "parsererror"))) as Herr.
  rewrite Hwf in Herr |- *.
  destruct (doc_querySelector
              {| documentElement := reformat (spaces indentSize) root 0 |}
              (ByTag (lit "parsererror"))); [contradiction|].
  split; [reflexivity|].
  pose proof (doc_querySelector_reformat indentSize root
                (ByTag (lit "problem"))) as Hpb.
  unfold reads_kept in Ht.
  destruct (doc_querySelector {| documentElement := root |}
              (ByTag (lit "problem"))) as [a|],
           (doc_querySelector
              {| documentElement := reformat (spaces indentSize) root 0 |}
              (ByTag (lit "problem"))) as [b|]; try contradiction.
  - cbn [same_result].
    now apply (parseProblemEl_reformatted indentSize a b).
  - cbn [same_result]. apply str_eqb_refl.
Qed.

Lemma C1_format_preserves_parse_witness :
  wellFormed (formatXmlPreserveInline looseProblem 2) /\
  same_result (parseProblem (formatXmlPreserveInline looseProblem 2))
              (parseProblem looseProblem) = true.
Proof.
  apply (@C1_format_preserves_parse xmlParser looseProblem 2).
  - intros s root H _. unfold parseFromString, xmlParser. now rewrite H.
  - vm_compute. reflexivity.
  - vm_compute. reflexivity.
  - vm_compute. reflexivity.
  - vm_compute. reflexivity.
Defined.

(* ----------------------------------------------------------------- *)
(** ** The comparison and the conditions are needed *)

(** The comparison of the texts must leave white space aside: the
    formatter puts the parts of a label with an element on lines of their
    own, and the label read from the formatted document has white space
    where the label of the document has none. *)
Example white_space_is_inserted :
  reads_kept (documentElement (@parseFromString xmlParser mixedLabel)) = true /\
  exists p q,
    parseProblem (formatXmlPreserveInline mixedLabel 2) = Ok p
    /\ parseProblem mixedLabel = Ok q
    /\ questionsOf (blocks q) = [StringQuestion (lit "axc") (lit "a")]
    /\ questionsOf (blocks p) <> questionsOf (blocks q)
    /\ same_parsed p q = true.
Proof.
  split; [vm_compute; reflexivity|].
  eexists _, _.
  split; [vm_compute; reflexivity|].
  split; [vm_compute; reflexivity|].
  split; [reflexivity|].
  split; [vm_compute; discriminate | vm_compute; reflexivity].
Qed.

(** An ampersand is written as it is; the formatted text is not well
    formed, and the second pass returns it unchanged. *)
Example unescaped_output_is_kept :
  markup_free (documentElement (@parseFromString xmlParser onceEscaped))
  = false /\
  ~ @wellFormed xmlParser (formatXmlPreserveInline onceEscaped 2) /\
  formatXmlPreserveInline (formatXmlPreserveInline onceEscaped 2) 2
  = formatXmlPreserveInline onceEscaped 2.
Proof.
  split; [vm_compute; reflexivity|].
  split; [vm_compute; discriminate | vm_compute; reflexivity].
Qed.

(** A tree outside the fragment: a line feed in an attribute value is
    written as it is and read back as a space, and the second pass writes
    another text than the first. *)
Example line_break_in_attribute :
  markup_free lineBreakInTitle = true /\
  fragment_tree lineBreakInTitle = false /\
  exists root,
    parse_document (formatNode (spaces 2) lineBreakInTitle 0) = Got root []
    /\ getAttribute root (lit "display_name") = Some (lit "a b")
    /\ formatNode (spaces 2) root 0
       <> formatNode (spaces 2) lineBreakInTitle 0.
Proof.
  split; [reflexivity|]. split; [reflexivity|].
  eexists. split; [vm_compute; reflexivity|].
  split; [reflexivity | vm_compute; discriminate].
Qed.

(** Each of the following documents is well formed, is formatted to a
    well-formed document and meets all conditions of the amended claim
    but one; on each the formatter changes what is parsed, or is not
    idempotent. *)

(** A CDATA section beside an element is dropped, and with it text of a
    label. *)
Example cdata_in_label_is_dropped : changesParse cdataInLabel.
Proof. repeat split; vm_compute; reflexivity. Qed.

(** A comment inside an element without element children is dropped. *)
Example comment_is_dropped : changesParse commentInText.
Proof. repeat split; vm_compute; reflexivity. Qed.

(** An element holding white space only becomes an empty element. *)
Example blank_element_collapses : changesParse blankElement.
Proof. repeat split; vm_compute; reflexivity. Qed.

(** A header paragraph split by an element is no header after formatting. *)
Example split_header_is_kept : changesParse splitHeader.
Proof. repeat split; vm_compute; reflexivity. Qed.

(** A CDATA section beside an element is dropped. *)
Example cdata_is_dropped : changesParse cdataBesideElement.
Proof. repeat split; vm_compute; reflexivity. Qed.

(** Markup inside a CDATA section is written as markup, and formatted as
    such by the next pass. *)
Example cdata_markup_is_reparsed :
  @wellFormed xmlParser cdataMarkup /\
  formatXmlPreserveInline (formatXmlPreserveInline cdataMarkup 2) 2
  <> formatXmlPreserveInline cdataMarkup 2.
Proof. split; [vm_compute; reflexivity | vm_compute; discriminate]. Qed.

(* ================================================================= *)
(** * More of the parser *)

Lemma questionsOf_app (a b : list ProblemBlock) :
  questionsOf (a ++ b) = questionsOf a ++ questionsOf b.
Proof. apply flat_map_app. Qed.

Lemma questionsOf_length (l : list ProblemBlock) :
  List.length (questionsOf l) = List.length (filter isQuestionBlock l).
Proof.
  induction l as [|[q s | c] l IH]; [reflexivity| |]; simpl; now rewrite ?IH.
Qed.

(** The question blocks come from the question elements, one each, in
    order. *)
Lemma processChildren_questions (l : list Node) :
  forall f i b,
    questionsOf (snd (processChildren l f i b))
    = questionsOf b ++ map questionOf (filter isQuestionEl l).
Proof.
  assert (H : forall n l, List.length l <= n -> forall f i b,
    questionsOf (snd (processChildren l f i b))
    = questionsOf b ++ map questionOf (filter isQuestionEl l)).
  { induction n as [|n IH]; intros l0 Hl f i b.
    - destruct l0; [|simpl in Hl; lia]. simpl. now rewrite app_nil_r.
    - destruct l0 as [|c rest]; [simpl; now rewrite app_nil_r|].
      cbn [List.length] in Hl. rewrite processChildren_step. cbn [filter].
      destruct (isHtmlEl c) eqn:Hh.
      + assert (Hq : isQuestionEl c = false).
        { destruct (isQuestionEl c) eqn:Hq; [|reflexivity].
          apply question_not_html in Hq. congruence. }
        rewrite Hq. destruct f; rewrite IH by lia;
          rewrite ?questionsOf_app; cbn [questionsOf flat_map parseHtmlBlock];
          now rewrite ?app_nil_r.
      + destruct (isQuestionEl c) eqn:Hq.
        * destruct rest as [|next rest2].
          -- cbn [processChildren snd filter map]. rewrite questionsOf_app.
             reflexivity.
          -- destruct (isSolutionEl next) eqn:Hs.
             ++ cbn [List.length] in Hl. rewrite IH by lia.
                rewrite questionsOf_app. cbn [filter map].
                rewrite (solution_not_question _ Hs).
                cbn [questionsOf flat_map app]. now rewrite <- app_assoc.
             ++ rewrite IH by lia. rewrite questionsOf_app.
                cbn [questionsOf flat_map app map]. now rewrite <- app_assoc.
        * apply IH; lia. }
  intros f i b. apply (H (List.length l) l (le_n _)).
Qed.

(** The first block, if there is one, is a question block. *)
Lemma processChildren_head (l : list Node) :
  forall i,
    match snd (processChildren l false i []) with
    | [] => True
    | b :: _ => isQuestionBlock b = true
    end.
Proof.
  induction l as [|c rest IH]; intros i; [exact I|].
  rewrite processChildren_step.
  destruct (isHtmlEl c); [apply IH|].
  destruct (isQuestionEl c); [|apply IH].
  destruct rest as [|next rest2].
  - reflexivity.
  - destruct (isSolutionEl next); rewrite processChildren_acc; exact eq_refl.
Qed.

Section MoreParser.
Context {parser : DOMParser}.

(** X1.  [countQuestions] of a parsed document is the number of question
    elements among the children of the [problem] element. *)
Theorem countQuestions_parseProblem (xml : str) (problemEl : Node) :
  wellFormed xml -> rootProblem xml problemEl ->
  exists p,
    parseProblem xml = Ok p /\
    countQuestions p = List.length (filter isQuestionEl (children problemEl)).
Proof.
  intros Hwf Hroot. exists (parseProblemEl problemEl).
  split; [apply parseProblem_root; assumption|].
  unfold countQuestions. rewrite <- questionsOf_length.
  rewrite blocks_parseProblemEl, processChildren_questions.
  cbn [questionsOf flat_map app]. apply length_map.
Qed.

(** X2.  The questions of the blocks are the parsed question elements, in
    document order; and the first block is never a content block. *)
Theorem questions_in_document_order (xml : str) (problemEl : Node) :
  wellFormed xml -> rootProblem xml problemEl ->
  exists p,
    parseProblem xml = Ok p /\
    questionsOf (blocks p)
      = map questionOf (filter isQuestionEl (children problemEl)) /\
    match blocks p with
    | [] => True
    | b :: _ => isQuestionBlock b = true
    end.
Proof.
  intros Hwf Hroot. exists (parseProblemEl problemEl).
  split; [apply parseProblem_root; assumption|].
  rewrite blocks_parseProblemEl. split.
  - now rewrite processChildren_questions.
  - apply processChildren_head.
Qed.

(** X3.  An element the loop has no branch for leaves no trace, unless it
    stands between a question and the solution that follows. *)
Theorem unknown_element_is_ignored (problemEl : Node)
  (pre post : list Node) (u : Node) :
  children problemEl = pre ++ u :: post ->
  isUnknownEl u = true -> crosses pre post = false ->
  (introHtml (parseProblemEl problemEl), blocks (parseProblemEl problemEl))
  = processChildren (pre ++ post) false [] [].
Proof.
  intros Hch Hu Hc. unfold isUnknownEl in Hu.
  apply andb_true_iff in Hu as [Hu Hs]. apply andb_true_iff in Hu as [Hh Hq].
  apply negb_true_iff in Hh, Hq, Hs.
  rewrite blocks_parseProblemEl, introHtml_parseProblemEl, Hch.
  assert (Hc1 : crosses pre (u :: post) = false).
  { unfold crosses. destruct (rev pre); [reflexivity|].
    now rewrite Hs, andb_false_r. }
  rewrite (processChildren_app pre (u :: post) Hc1).
  rewrite (processChildren_app pre post Hc).
  rewrite processChildren_step, Hh, Hq.
  now destruct (processChildren post _ _ _).
Qed.

(** X4.  An element between a question and a solution takes the solution
    away from the question: the block has no explanation, and the
    solution is skipped. *)
Theorem separated_solution_is_lost (problemEl : Node)
  (pre post : list Node) (q u sol : Node) :
  children problemEl = pre ++ q :: u :: sol :: post ->
  isQuestionEl q = true -> isUnknownEl u = true -> isSolutionEl sol = true ->
  blocks (parseProblemEl problemEl) =
    snd (processChildren pre false [] [])
    ++ QuestionBlock (questionOf q) None
    :: snd (processChildren post true [] []).
Proof.
  intros Hch Hq Hu Hs. unfold isUnknownEl in Hu.
  apply andb_true_iff in Hu as [Hu Hus]. apply andb_true_iff in Hu as [Huh Huq].
  apply negb_true_iff in Huh, Huq, Hus.
  rewrite blocks_parseProblemEl, Hch.
  rewrite processChildren_app.
  - rewrite processChildren_step, (question_not_html _ Hq), Hq, Hus.
    rewrite processChildren_step, Huh, Huq.
    rewrite processChildren_step, (solution_not_html _ Hs),
      (solution_not_question _ Hs).
    rewrite processChildren_acc. cbn [snd]. now rewrite <- app_assoc.
  - unfold crosses. destruct (rev pre); [reflexivity|].
    rewrite (question_not_solution q Hq). now rewrite andb_false_r.
Qed.

End MoreParser.

Lemma unknown_element_is_ignored_witness :
  (introHtml (parseProblemEl (rootOf unknownElementDoc)),
   blocks (parseProblemEl (rootOf unknownElementDoc)))
  = processChildren ([childOf unknownElementDoc 0]
                     ++ [childOf unknownElementDoc 2]) false [] [].
Proof.
  apply (unknown_element_is_ignored (rootOf unknownElementDoc)
           [childOf unknownElementDoc 0] [childOf unknownElementDoc 2]
           (childOf unknownElementDoc 1)); vm_compute; reflexivity.
Defined.

Lemma separated_solution_is_lost_witness :
  blocks (parseProblemEl (rootOf detachedSolution)) =
    snd (processChildren [] false [] [])
    ++ QuestionBlock (questionOf (childOf detachedSolution 0)) None
    :: snd (processChildren [] true [] []).
Proof.
  apply (separated_solution_is_lost (rootOf detachedSolution) [] []
           (childOf detachedSolution 0) (childOf detachedSolution 1)
           (childOf detachedSolution 2)); vm_compute; reflexivity.
Defined.

Lemma countQuestions_parseProblem_witness :
  exists p,
    parseProblem sampleProblem = Ok p /\
    countQuestions p
    = List.length (filter isQuestionEl (children sampleRoot)).
Proof.
  apply (@countQuestions_parseProblem xmlParser sampleProblem sampleRoot).
  - vm_compute. reflexivity.
  - vm_compute. split; reflexivity.
Defined.

Lemma questions_in_document_order_witness :
  exists p,
    parseProblem sampleProblem = Ok p /\
    questionsOf (blocks p)
      = map questionOf (filter isQuestionEl (children sampleRoot)) /\
    match blocks p with
    | [] => True
    | b :: _ => isQuestionBlock b = true
    end.
Proof.
  apply (@questions_in_document_order xmlParser sampleProblem sampleRoot).
  - vm_compute. reflexivity.
  - vm_compute. split; reflexivity.
Defined.

(* ----------------------------------------------------------------- *)
(** ** Finding the [problem] element *)

Lemma hd_error_filter_none {A : Type} (p : A -> bool) (l : list A) :
  hd_error (filter p l) = None <-> Forall (fun x => p x = false) l.
Proof.
  induction l as [|x l IH]; cbn [filter].
  - split; [constructor | reflexivity].
  - destruct (p x) eqn:Hx.
    + split; [discriminate|]. intros H. inversion H. congruence.
    + rewrite IH. split; [now constructor | intros H; now inversion H].
Qed.

Lemma hd_error_filter_first {A : Type} (p : A -> bool) (pre post : list A)
  (x : A) :
  Forall (fun y => p y = false) pre -> p x = true ->
  hd_error (filter p (pre ++ x :: post)) = Some x.
Proof.
  intros Hpre Hx. induction Hpre as [|y pre Hy _ IH]; cbn [app filter].
  - now rewrite Hx.
  - now rewrite Hy.
Qed.

Section FindProblem.
Context {parser : DOMParser}.

(** X5.  On a well-formed document, [parseProblem] throws
    "No <problem> element found" exactly when no element of the document,
    at any depth, is called [problem]. *)
Theorem no_problem_element (xml : str) :
  wellFormed xml ->
  (parseProblem xml = Throw (lit "No <problem> element found")
   <-> Forall (fun d => tagName d <> lit "problem") (documentElements xml)).
Proof.
  unfold wellFormed, parseProblem, documentElements. intros Hwf. rewrite Hwf.
  unfold doc_querySelector at 1.
  set (els := documentElement (parseFromString xml)
              :: descendants (documentElement (parseFromString xml))).
  assert (Hiff : Forall (fun d => tagName d <> lit "problem") els
                 <-> hd_error (filter (matches (ByTag (lit "problem"))) els)
                     = None).
  { rewrite hd_error_filter_none. split; intros H; rewrite Forall_forall in *;
      intros d Hd; specialize (H d Hd); cbn [matches] in *.
    - now apply str_eqb_neq.
    - now apply str_eqb_neq in H. }
  rewrite Hiff.
  destruct (hd_error (filter (matches (ByTag (lit "problem"))) els));
    split; intros H; try reflexivity; discriminate.
Qed.

(** X6.  The [problem] element need not be the root: the first element
    called [problem], in document order, is the one that is parsed. *)
Theorem first_problem_element_is_parsed (xml : str) (pre post : list Node)
  (problemEl : Node) :
  wellFormed xml ->
  documentElements xml = pre ++ problemEl :: post ->
  Forall (fun d => tagName d <> lit "problem") pre ->
  tagName problemEl = lit "problem" ->
  parseProblem xml = Ok (parseProblemEl problemEl).
Proof.
  unfold wellFormed, parseProblem, documentElements. intros Hwf Hels Hpre Htag.
  rewrite Hwf. unfold doc_querySelector. rewrite Hels.
  rewrite (hd_error_filter_first _ pre post problemEl); [reflexivity| |].
  - rewrite Forall_forall in *. intros d Hd. cbn [matches].
    apply str_eqb_neq. now apply Hpre.
  - cbn [matches]. rewrite Htag. apply str_eqb_refl.
Qed.

(** X7.  The title of a parsed document is never empty. *)
Theorem displayName_never_empty (xml : str) (p : ParsedProblem) :
  parseProblem xml = Ok p -> displayName (metadata p) <> [].
Proof.
  unfold parseProblem.
  destruct (doc_querySelector _ (ByTag (lit "parsererror"))); [discriminate|].
  destruct (doc_querySelector _ (ByTag (lit "problem"))) as [el|];
    [|discriminate].
  intros H. injection H as <-. unfold parseProblemEl.
  destruct (processChildren (children el) false [] []).
  cbn [metadata displayName parseMetadata]. unfold or_else.
  destruct (getAttribute el (lit "display_name")) as [[|c v]|]; discriminate.
Qed.

(** The message of an error [parseProblem] throws is never empty. *)
Lemma parseProblem_message (xml m : str) :
  parseProblem xml = Throw m -> truthy m = true.
Proof.
  unfold parseProblem.
  destruct (doc_querySelector _ (ByTag (lit "parsererror"))).
  - intros H. now injection H as <-.
  - destruct (doc_querySelector _ (ByTag (lit "problem")));
      [discriminate|]. intros H. now injection H as <-.
Qed.

End FindProblem.

(** X8.  A document whose tree, as the parser returns it, holds an element
    called [parsererror] is treated as not well-formed, also when the
    parser accepted it: [parseProblem] throws a parse error whose message
    ends with the text content of the first such element in document
    order, and the formatter returns the text as it is. *)
Theorem element_named_parsererror {parser : DOMParser} (xml : str)
  (root : Node) (pre post : list Node) (e : Node) :
  parseFromString xml = {| documentElement := root |} ->
  root :: descendants root = pre ++ e :: post ->
  Forall (fun d => tagName d <> lit "parsererror") pre ->
  tagName e = lit "parsererror" ->
  parseProblem xml = Throw (lit "XML Parse Error: " ++ textContent e)
  /\ forall indentSize, formatXmlPreserveInline xml indentSize = xml.
Proof.
  intros Hdoc Hl Hpre Htag.
  assert (E : doc_querySelector (parseFromString xml)
                (ByTag (lit "parsererror")) = Some e).
  { rewrite Hdoc. unfold doc_querySelector. cbn [documentElement].
    rewrite Hl. apply hd_error_filter_first.
    - eapply Forall_impl; [|exact Hpre]. intros d Hd. cbn [matches].
      now apply str_eqb_neq.
    - cbn [matches]. rewrite Htag. apply str_eqb_refl. }
  split.
  - unfold parseProblem. now rewrite E.
  - intros n. unfold formatXmlPreserveInline. now rewrite E.
Qed.

Lemma no_problem_element_witness :
  parseProblem (lit "<course><html/></course>")
  = Throw (lit "No <problem> element found").
Proof.
  apply (@no_problem_element xmlParser (lit "<course><html/></course>")).
  - vm_compute. reflexivity.
  - vm_compute. repeat constructor; discriminate.
Defined.

Lemma first_problem_element_is_parsed_witness :
  parseProblem wrappedProblem = Ok (parseProblemEl (childOf wrappedProblem 0)).
Proof.
  apply (@first_problem_element_is_parsed xmlParser wrappedProblem
           [rootOf wrappedProblem]
           (descendants (childOf wrappedProblem 0))
           (childOf wrappedProblem 0)).
  - vm_compute. reflexivity.
  - vm_compute. reflexivity.
  - constructor; [vm_compute; discriminate | constructor].
  - vm_compute. reflexivity.
Defined.

Lemma displayName_never_empty_witness :
  displayName (metadata (parseProblemEl sampleRoot)) <> [].
Proof.
  apply (@displayName_never_empty xmlParser sampleProblem).
  vm_compute. reflexivity.
Defined.

Lemma element_named_parsererror_witness :
  parseProblem parsererrorNamed = Throw (lit "XML Parse Error: odd name")
  /\ forall indentSize,
       formatXmlPreserveInline parsererrorNamed indentSize = parsererrorNamed.
Proof.
  apply (@element_named_parsererror xmlParser parsererrorNamed
           (rootOf parsererrorNamed)
           [rootOf parsererrorNamed] [] (childOf parsererrorNamed 0)).
  - vm_compute. reflexivity.
  - vm_compute. reflexivity.
  - constructor; [vm_compute; discriminate | constructor].
  - vm_compute. reflexivity.
Defined.

(* ================================================================= *)
(** * More of the validator *)

Lemma filter_all {A : Type} (p : A -> bool) (l : list A) :
  Forall (fun x => p x = true) l -> filter p l = l.
Proof.
  induction 1 as [|x l Hx _ IH]; [reflexivity|].
  cbn [filter]. now rewrite Hx, IH.
Qed.

Lemma about_other_question (n k : nat) (l : list ProblemBlock) :
  (n <= k \/ k + countBlocks l < n) ->
  filter (about_question n) (validateBlocks l k []) = [].
Proof.
  intros Hn. apply filter_nil_Forall.
  eapply Forall_impl; [|apply validateBlocks_index].
  intros f [m [Hm Hr]]. unfold about_question. rewrite Hm.
  apply Nat.eqb_neq. lia.
Qed.

Lemma any_empty_choice (choices : list Choice) :
  (0 <? List.length
          (filter (fun c => negb (truthy (trim (text c)))) choices))
  = hasEmptyChoice choices.
Proof.
  unfold hasEmptyChoice. induction choices as [|c l IH]; [reflexivity|].
  cbn [filter existsb]. destruct (negb (truthy (trim (text c)))); [reflexivity|].
  exact IH.
Qed.

(** X9.  The findings about the N-th question block, in the order the
    validator gives them: for a multiple-choice question the error "no
    correct answer" if no choice is correct, then one warning "empty
    choice(s)" if some choice text trims to nothing, however many do,
    then the warning "missing an explanation"; for the other kinds only the
    last. *)
Theorem findings_of_a_question (parsed : ParsedProblem)
  (pre post : list ProblemBlock) (q : Question) (solution : option Solution) :
  blocks parsed = pre ++ QuestionBlock q solution :: post ->
  let N := S (List.length (filter isQuestionBlock pre)) in
  filter (about_question N) (validateProblem parsed) =
    match q with
    | MultipleChoiceQuestion _ choices _ =>
        (if existsb correct choices then [] else [noCorrectAnswer N])
        ++ (if hasEmptyChoice choices then [emptyChoices N] else [])
    | _ => []
    end
    ++ (if lacksExplanation solution then [missingExplanation N] else []).
Proof.
  intros Hb N. unfold validateProblem. rewrite Hb, validateBlocks_split.
  rewrite !filter_app.
  rewrite (about_other_question N 0 pre)
    by (right; unfold N, countBlocks; simpl; lia).
  rewrite (about_other_question N _ post)
    by (left; unfold N, countBlocks; simpl; lia).
  rewrite app_nil_r. cbn [app plus]. fold (countBlocks pre).
  change (S (countBlocks pre)) with N.
  assert (Hall : Forall (fun f => about_question N f = true)
                   (validateQuestion N q solution)).
  { eapply Forall_impl; [|apply validateQuestion_index].
    intros f Hf. unfold about_question. rewrite Hf. apply Nat.eqb_refl. }
  rewrite (filter_all _ _ Hall).
  unfold validateQuestion. destruct q as [l choices sh | |]; try reflexivity.
  rewrite any_empty_choice. now destruct (existsb correct choices).
Qed.

Lemma findings_of_a_question_witness :
  filter (about_question 2) (validateProblem sampleParsed) =
    [noCorrectAnswer 2; missingExplanation 2].
Proof.
  apply (findings_of_a_question sampleParsed
           [HtmlBlock (lit "x");
            QuestionBlock (StringQuestion (lit "Q") (lit "a")) None]
           []
           (MultipleChoiceQuestion (lit "Q")
              [ {| text := lit "A"; correct := false |};
                {| text := lit "B"; correct := false |} ] false)
           (Some {| explanation := lit "Add your explanation here";
                    htmlContent := [] |})).
  reflexivity.
Defined.

Lemma validateBlocks_questions_only (l : list ProblemBlock) :
  forall k errs,
    validateBlocks l k errs
    = validateBlocks (filter isQuestionBlock l) k errs.
Proof.
  induction l as [|[q s | c] l IH]; intros k errs; [reflexivity| |];
    cbn [filter isQuestionBlock validateBlocks]; apply IH.
Qed.

(** X10.  Content blocks play no part in validation: the findings are
    those of the question blocks alone. *)
Theorem validation_ignores_content_blocks (parsed : ParsedProblem) :
  validateProblem parsed
  = validateProblem {| metadata := metadata parsed;
                       introHtml := introHtml parsed;
                       blocks := filter isQuestionBlock (blocks parsed) |}.
Proof. unfold validateProblem. apply validateBlocks_questions_only. Qed.

Lemma validateQuestion_length (n : nat) (q : Question) (s : option Solution) :
  List.length (validateQuestion n q s) <= 3.
Proof.
  unfold validateQuestion. rewrite length_app.
  destruct q as [l choices sh | |]; cbn [List.length];
    [rewrite length_app; destruct (negb _), (0 <? _)|..];
    destruct (lacksExplanation s); cbn [List.length]; lia.
Qed.

Lemma StronglySorted_app (a b : list nat) :
  StronglySorted le a -> StronglySorted le b ->
  (forall x y, In x a -> In y b -> x <= y) ->
  StronglySorted le (a ++ b).
Proof.
  intros Ha Hb Hab. induction Ha as [|x a Ha IH Hx]; [exact Hb|].
  cbn [app]. constructor.
  - apply IH. intros u v Hu Hv. apply Hab; [now right | exact Hv].
  - apply Forall_app. split; [exact Hx|].
    apply Forall_forall. intros y Hy. apply Hab; [now left | exact Hy].
Qed.

Lemma StronglySorted_constant (n : nat) (l : list nat) :
  Forall (fun x => x = n) l -> StronglySorted le l.
Proof.
  induction 1 as [|x l Hx Hl IH]; constructor; [exact IH|].
  subst x. eapply Forall_impl; [|exact Hl]. intros y ->. apply le_n.
Qed.

Lemma validateBlocks_sorted (l : list ProblemBlock) :
  forall k,
    StronglySorted le (map indexOf (validateBlocks l k []))
    /\ List.length (validateBlocks l k []) <= 3 * countBlocks l.
Proof.
  induction l as [|[q s | c] l IH]; intros k.
  - split; [constructor | apply Nat.le_0_l].
  - cbn [validateBlocks]. rewrite validateBlocks_acc. cbn [app].
    destruct (IH (S k)) as [Hs Hl]. split.
    + rewrite map_app. apply StronglySorted_app; [|exact Hs|].
      * apply (StronglySorted_constant (S k)).
        apply Forall_map. eapply Forall_impl; [|apply validateQuestion_index].
        intros f Hf. unfold indexOf. now rewrite Hf.
      * intros x y Hx Hy. apply in_map_iff in Hx as (f & <- & Hf).
        apply in_map_iff in Hy as (g & <- & Hg).
        pose proof (validateQuestion_index (S k) q s) as H1.
        pose proof (validateBlocks_index l (S k)) as H2.
        rewrite Forall_forall in H1, H2.
        destruct (H2 g Hg) as (m & Hm & Hr). unfold indexOf.
        rewrite (H1 f Hf), Hm. lia.
    + rewrite length_app. pose proof (validateQuestion_length (S k) q s).
      unfold countBlocks in *. cbn [filter isQuestionBlock List.length]. lia.
  - cbn [validateBlocks]. destruct (IH k) as [Hs Hl]. split; [exact Hs|].
    unfold countBlocks in *. cbn [filter isQuestionBlock]. exact Hl.
Qed.

Lemma filter_length_le {A : Type} (p : A -> bool) (l : list A) :
  List.length (filter p l) <= List.length l.
Proof.
  induction l as [|x l IH]; [apply le_n|].
  cbn [filter]. destruct (p x); cbn [List.length]; lia.
Qed.

(** No question has more than three findings. *)
Lemma validateBlocks_per_question (l : list ProblemBlock) :
  forall k n,
    List.length (filter (about_question n) (validateBlocks l k [])) <= 3.
Proof.
  induction l as [|[q s | c] l IH]; intros k n.
  - apply Nat.le_0_l.
  - cbn [validateBlocks]. rewrite validateBlocks_acc. cbn [app].
    rewrite filter_app, length_app.
    destruct (Nat.eq_dec n (S k)) as [-> | Hn].
    + rewrite (about_other_question (S k) (S k) l) by (left; apply le_n).
      cbn [List.length]. rewrite Nat.add_0_r.
      etransitivity; [apply filter_length_le | apply validateQuestion_length].
    + rewrite (filter_nil_Forall (about_question n)
                 (validateQuestion (S k) q s)).
      * apply IH.
      * eapply Forall_impl; [|apply validateQuestion_index].
        intros f Hf. unfold about_question. rewrite Hf.
        apply Nat.eqb_neq. congruence.
  - cbn [validateBlocks]. apply IH.
Qed.

(** X11.  Every finding carries the number of a question of the document,
    between 1 and [countQuestions]; the findings come in the order of
    their questions; there are at most three findings about each
    question, and so at most three times [countQuestions] in all. *)
Theorem findings_follow_the_questions (parsed : ParsedProblem) :
  Forall (fun f => exists n, questionIndex f = Some n
                             /\ 1 <= n <= countQuestions parsed)
         (validateProblem parsed)
  /\ StronglySorted le (map indexOf (validateProblem parsed))
  /\ (forall n,
        List.length (filter (about_question n) (validateProblem parsed)) <= 3)
  /\ List.length (validateProblem parsed) <= 3 * countQuestions parsed.
Proof.
  unfold validateProblem, countQuestions. fold (countBlocks (blocks parsed)).
  split; [|split; [apply validateBlocks_sorted|split]].
  - eapply Forall_impl; [|apply (validateBlocks_index (blocks parsed) 0)].
    intros f (m & Hm & Hr). exists m. split; [exact Hm | lia].
  - intros n. apply validateBlocks_per_question.
  - apply validateBlocks_sorted.
Qed.

Lemma validateQuestion_nil (n : nat) (q : Question) (s : option Solution) :
  validateQuestion n q s = [] <-> blockIsFine (QuestionBlock q s) = true.
Proof.
  unfold validateQuestion, blockIsFine.
  destruct q as [l choices sh | |]; rewrite ?any_empty_choice;
    [destruct (existsb correct choices), (hasEmptyChoice choices)|..];
    destruct (lacksExplanation s); cbn; split; congruence.
Qed.

Lemma validateBlocks_nil (l : list ProblemBlock) :
  forall k, validateBlocks l k [] = [] <-> forallb blockIsFine l = true.
Proof.
  induction l as [|[q s | c] l IH]; intros k.
  - split; reflexivity.
  - cbn [validateBlocks forallb]. rewrite validateBlocks_acc. cbn [app].
    rewrite andb_true_iff, <- (IH (S k)), <- (validateQuestion_nil (S k)).
    split.
    + intros H. now apply app_eq_nil in H.
    + intros [-> ->]. reflexivity.
  - cbn [validateBlocks forallb blockIsFine andb]. apply IH.
Qed.

(** X12.  The validator has no finding exactly when every question block
    has an explanation that is neither blank nor the placeholder, and
    every multiple-choice question has a correct choice and no choice
    whose text trims to nothing. *)
Theorem no_findings (parsed : ParsedProblem) :
  validateProblem parsed = [] <-> forallb blockIsFine (blocks parsed) = true.
Proof. apply validateBlocks_nil. Qed.

(* ================================================================= *)
(** * More of [parseMetadata]: what [parseInt] reads *)

Lemma digit_not_space (c : ascii) :
  is_digit c = true ->
  is_js_space c = false /\ Ascii.eqb c "-" = false /\ Ascii.eqb c "+" = false.
Proof. intros H. repeat split; revert H; ascii_cases c. Qed.

Lemma digits_value_app (ds r : str) :
  forallb is_digit ds = true -> starts_with_digit r = false ->
  forall acc, digits_value acc (ds ++ r) = digits_value acc ds.
Proof.
  intros Hd Hr. induction ds as [|c ds IH]; intros acc.
  - cbn [app]. destruct r as [|x r]; [reflexivity|].
    cbn [starts_with_digit digits_value] in *.
    now destruct (digit_of x).
  - cbn [forallb] in Hd. apply andb_true_iff in Hd as [Hc Hd].
    cbn [app digits_value]. destruct (digit_of c); [apply (IH Hd)|reflexivity].
Qed.

Lemma parseInt10_digits (ds : str) :
  ds <> [] -> forallb is_digit ds = true ->
  parseInt10 ds = Num (digits_value 0 ds).
Proof.
  destruct ds as [|c ds]; [contradiction|]. intros _ Hd.
  cbn [forallb] in Hd. apply andb_true_iff in Hd as [Hc _].
  destruct (digit_not_space c Hc) as (Hs & Hm & Hp).
  unfold parseInt10. cbn [trimStart]. rewrite Hs, Hm, Hp.
  cbn [starts_with_digit]. unfold is_digit in Hc.
  now destruct (digit_of c).
Qed.

(** X13.  [parseInt] skips white space before the digits and stops at the
    first character that is no digit: [" 2 tries"] reads as [2] does, and
    that is a number. *)
Theorem parseInt10_reads_leading_digits (w ds r : str) :
  all_space w = true -> ds <> [] -> forallb is_digit ds = true ->
  starts_with_digit r = false ->
  parseInt10 (w ++ ds ++ r) = parseInt10 ds /\ parseInt10 ds <> NaN.
Proof.
  intros Hw Hne Hd Hr. rewrite (parseInt10_digits ds Hne Hd). split.
  - destruct ds as [|c ds]; [contradiction|].
    pose proof Hd as Hd'. cbn [forallb] in Hd'.
    apply andb_true_iff in Hd' as [Hc _].
    destruct (digit_not_space c Hc) as (Hs & Hm & Hp).
    unfold parseInt10. rewrite trimStart_space_app by exact Hw.
    cbn [app trimStart]. rewrite Hs, Hm, Hp. cbn [starts_with_digit].
    unfold is_digit in Hc. destruct (digit_of c) eqn:E; [|discriminate].
    f_equal. apply (digits_value_app (c :: ds) r Hd Hr 0%Z).
  - discriminate.
Qed.

Lemma parseInt10_reads_leading_digits_witness :
  parseInt10 (lit " " ++ lit "2" ++ lit " tries") = parseInt10 (lit "2")
  /\ parseInt10 (lit "2") <> NaN.
Proof.
  apply (parseInt10_reads_leading_digits (lit " ") (lit "2") (lit " tries"));
    try reflexivity. discriminate.
Defined.

Lemma digits_of_uint (d : Decimal.uint) :
  forall acc,
    digits_value (Z.of_nat acc) (lit (NilEmpty.string_of_uint d))
    = Z.of_nat (Nat.of_uint_acc d acc).
Proof.
  unfold lit.
  induction d as [|d IH|d IH|d IH|d IH|d IH|d IH|d IH|d IH|d IH|d IH];
    intros acc; [reflexivity|..];
    cbn [NilEmpty.string_of_uint list_ascii_of_string digits_value
         Nat.of_uint_acc];
    match goal with
    | |- context [digit_of ?c] =>
        let v := eval vm_compute in (digit_of c) in
        change (digit_of c) with v
    end;
    cbv iota; rewrite Nat.tail_mul_spec, <- IH; f_equal; lia.
Qed.

Lemma to_uint_not_nil (n : nat) : Nat.to_uint n <> Decimal.Nil.
Proof.
  intros E. pose proof (Unsigned.to_of (Nat.to_uint n)) as H.
  rewrite Unsigned.of_to, E in H. discriminate H.
Qed.

(** [parseInt] reads the decimal numeral of a number as that number. *)
Lemma parseInt10_string_of_nat (n : nat) :
  parseInt10 (string_of_nat n) = Num (Z.of_nat n).
Proof.
  unfold string_of_nat.
  pose proof (digits_of_uint (Nat.to_uint n) 0) as H.
  change (Nat.of_uint_acc (Nat.to_uint n) 0) with (Nat.of_uint (Nat.to_uint n)) in H.
  rewrite Unsigned.of_to in H. cbn [Z.of_nat] in H.
  pose proof (to_uint_not_nil n) as Hn.
  unfold parseInt10.
  destruct (Nat.to_uint n) as [|d|d|d|d|d|d|d|d|d|d]; [contradiction|..];
    unfold lit in *;
    cbn [NilEmpty.string_of_uint list_ascii_of_string trimStart] in *;
    match goal with
    | |- context [is_js_space ?c] => change (is_js_space c) with false
    end;
    cbv iota;
    match goal with
    | |- context [Ascii.eqb ?c "-"] => change (Ascii.eqb c "-") with false
    end;
    match goal with
    | |- context [Ascii.eqb ?c "+"] => change (Ascii.eqb c "+") with false
    end;
    cbv iota; cbn [starts_with_digit];
    match goal with
    | |- context [digit_of ?c] =>
        let v := eval vm_compute in (digit_of c) in
        change (digit_of c) with v at 1
    end;
    cbv iota; now rewrite H.
Qed.

(** X14.  A [max_attempts] written as the decimal numeral of a number
    that a double holds exactly is parsed to that number, zero included. *)
Theorem max_attempts_numeral {parser : DOMParser} (xml : str)
  (problemEl : Node) (n : nat) :
  wellFormed xml -> rootProblem xml problemEl ->
  (Z.of_nat n <= 2 ^ 53)%Z ->
  getAttribute problemEl (lit "max_attempts") = Some (string_of_nat n) ->
  exists p,
    parseProblem xml = Ok p /\
    maxAttempts (metadata p) = Some (Num (Z.of_nat n)).
Proof.
  intros Hwf Hroot _ Hattr. exists (parseProblemEl problemEl).
  split; [apply parseProblem_root; assumption|].
  unfold parseProblemEl.
  destruct (processChildren (children problemEl) false [] []).
  cbn [metadata maxAttempts parseMetadata]. rewrite Hattr.
  rewrite parseInt10_string_of_nat.
  destruct (string_of_nat n) eqn:E; [|reflexivity].
  pose proof (parseInt10_string_of_nat n) as H. rewrite E in H. discriminate H.
Qed.

Lemma max_attempts_numeral_witness :
  exists p,
    parseProblem attemptsDoc = Ok p /\
    maxAttempts (metadata p) = Some (Num (Z.of_nat 12)).
Proof.
  apply (@max_attempts_numeral xmlParser attemptsDoc (rootOf attemptsDoc) 12).
  - vm_compute. reflexivity.
  - vm_compute. split; reflexivity.
  - vm_compute. discriminate.
  - vm_compute. reflexivity.
Defined.

(* ================================================================= *)
(** * More of the formatter *)

Lemma no_element_after_filter (p : Node -> bool) (kids : list Node) :
  existsb isElement kids = false ->
  existsb isElement (filter p kids) = false.
Proof.
  induction kids as [|k ks IH]; [reflexivity|].
  cbn [existsb filter]. intros H. apply orb_false_iff in H as [Hk Hks].
  destruct (p k); cbn [existsb]; now rewrite ?Hk, (IH Hks).
Qed.

Lemma text_without_comments (kids : list Node) :
  flat_map descendantText (filter (fun k => negb (isComment k)) kids)
  = flat_map descendantText kids.
Proof.
  induction kids as [|k ks IH]; [reflexivity|].
  destruct k as [d | d | d | tag attrs kids']; cbn [filter];
    match goal with
    | |- context [negb (isComment ?n)] =>
        let b := eval vm_compute in (negb (isComment n)) in
        change (negb (isComment n)) with b
    end; cbv iota; cbn [flat_map]; rewrite IH; reflexivity.
Qed.

(** X15.  In an element without element children the formatter drops the
    comments: it writes what it writes for the element without them. *)
Theorem comments_in_text_are_dropped (PADDING tag : str)
  (attrs : list (str * str)) (kids : list Node) (indent : nat) :
  existsb isElement kids = false ->
  formatNode PADDING (ElementNode tag attrs kids) indent
  = formatNode PADDING
      (ElementNode tag attrs (filter (fun k => negb (isComment k)) kids))
      indent.
Proof.
  intros He. rewrite !formatNode_element. f_equal. unfold elementBody.
  now rewrite He, (no_element_after_filter _ kids He), text_without_comments.
Qed.

Lemma comments_in_text_are_dropped_witness :
  formatNode (spaces 2)
    (ElementNode (lit "html") [] [TextNode (lit "a"); CommentNode (lit "c")]) 1
  = formatNode (spaces 2) (ElementNode (lit "html") [] [TextNode (lit "a")]) 1.
Proof.
  apply (comments_in_text_are_dropped (spaces 2) (lit "html") []
           [TextNode (lit "a"); CommentNode (lit "c")] 1).
  reflexivity.
Defined.

Lemma existsb_isElement_insert (a b : list Node) (d : str) :
  existsb isElement (a ++ TextNode d :: b) = existsb isElement (a ++ b).
Proof. now rewrite !existsb_app. Qed.

(** X16.  Beside element children, a text node of white space only is
    not written: the indentation of the input has no influence on the
    output. *)
Theorem blank_text_is_not_written (PADDING tag : str)
  (attrs : list (str * str)) (a b : list Node) (d : str) (indent : nat) :
  existsb isElement (a ++ b) = true -> trim d = [] ->
  formatNode PADDING (ElementNode tag attrs (a ++ TextNode d :: b)) indent
  = formatNode PADDING (ElementNode tag attrs (a ++ b)) indent.
Proof.
  intros He Hd. rewrite !formatNode_element. f_equal. unfold elementBody.
  rewrite existsb_isElement_insert, He. unfold childContent.
  rewrite !flat_map_app. cbn [flat_map formatNode textContent descendantText].
  now rewrite Hd.
Qed.

Lemma blank_text_is_not_written_witness :
  formatNode (spaces 2)
    (ElementNode (lit "a") []
       ([ElementNode (lit "b") [] []] ++ TextNode (lit "  ") :: [])) 0
  = formatNode (spaces 2)
      (ElementNode (lit "a") [] ([ElementNode (lit "b") [] []] ++ [])) 0.
Proof.
  apply (blank_text_is_not_written (spaces 2) (lit "a") []
           [ElementNode (lit "b") [] []] [] (lit "  ") 0); reflexivity.
Defined.

Lemma elementList_reformat (indentSize : nat) (root : Node) :
  elementList (reformat (spaces indentSize) root 0) = elementList root.
Proof.
  unfold elementList.
  assert (H2 : Forall2 (reformatted (spaces indentSize))
                 (root :: descendants root)
                 (reformat (spaces indentSize) root 0
                  :: descendants (reformat (spaces indentSize) root 0))).
  { constructor; [now exists 0 | apply descendants_reformat]. }
  induction H2 as [|x y l l' [j ->] _ IH]; [reflexivity|].
  cbn [map]. now rewrite tagName_reformat, attributes_reformat, IH.
Qed.

(** What the model parser makes of the formatted text of a document that
    needs no escaping. *)
Lemma formatted_document (xml : str) (indentSize : nat) :
  @wellFormed xmlParser xml ->
  markup_free (documentElement (@parseFromString xmlParser xml)) = true ->
  exists root,
    @parseFromString xmlParser xml = {| documentElement := root |}
    /\ @parseFromString xmlParser (formatXmlPreserveInline xml indentSize)
       = {| documentElement := reformat (spaces indentSize) root 0 |}.
Proof.
  intros Hwf Hmf.
  destruct (wellFormed_parsed xml Hwf) as (root & Hp & Hdoc & He & Hn).
  exists root. split; [exact Hdoc|].
  rewrite Hdoc in Hmf. cbn [documentElement] in Hmf.
  assert (Hfirst : formatXmlPreserveInline xml indentSize
                   = formatNode (spaces indentSize) root 0).
  { unfold formatXmlPreserveInline. unfold wellFormed in Hwf.
    rewrite Hwf, Hdoc. reflexivity. }
  rewrite Hfirst. unfold parseFromString, xmlParser.
  now rewrite (parse_document_formatNode indentSize root He Hn Hmf).
Qed.

(** X17.  A well-formed document in which nothing needs escaping is
    formatted to a well-formed document. *)
Theorem formatted_is_well_formed (xml : str) (indentSize : nat) :
  @wellFormed xmlParser xml ->
  markup_free (documentElement (@parseFromString xmlParser xml)) = true ->
  @wellFormed xmlParser (formatXmlPreserveInline xml indentSize).
Proof.
  intros Hwf Hmf.
  destruct (formatted_document xml indentSize Hwf Hmf) as (root & Hdoc & Hdoc').
  unfold wellFormed in *. rewrite Hdoc', Hdoc in *.
  unfold doc_querySelector in *. cbn [documentElement] in *.
  apply hd_error_filter_none. apply hd_error_filter_none in Hwf.
  pose proof (elementList_reformat indentSize root) as He.
  unfold elementList in He.
  set (l := root :: descendants root) in *.
  set (l' := reformat (spaces indentSize) root 0
             :: descendants (reformat (spaces indentSize) root 0)) in *.
  clearbody l l'. revert l Hwf He.
  induction l' as [|y l' IH]; intros [|x l] Hwf He; try discriminate;
    constructor.
  - inversion Hwf as [|? ? Hx _]; subst. cbn [map] in He.
    injection He as Ht _ _. cbn [matches] in *. now rewrite Ht.
  - inversion Hwf as [|? ? _ Hl]; subst. cbn [map] in He.
    injection He as _ _ He. now apply (IH l).
Qed.

(** X18.  With a parser that reads the fragment as XML 1.0 prescribes,
    formatting a document whose tree lies in the fragment (no name space;
    no TAB, LF or CR in an attribute value) and needs no escaping adds,
    removes, renames and reorders no element and changes no attribute:
    the elements of the formatted document, with their attributes, are
    those of the document. *)
Theorem formatting_keeps_the_elements {parser : DOMParser} (xml : str)
  (indentSize : nat) :
  conforms parser -> wellFormed xml ->
  fragment_tree (documentElement (parseFromString xml)) = true ->
  markup_free (documentElement (parseFromString xml)) = true ->
  elementList (documentElement
                 (parseFromString (formatXmlPreserveInline xml indentSize)))
  = elementList (documentElement (parseFromString xml)).
Proof.
  intros Hc Hwf Hfr Hmf.
  destruct (conforming_reparse xml indentSize Hc Hwf Hfr Hmf) as [Hfirst Hdoc'].
  rewrite Hfirst, Hdoc'. apply elementList_reformat.
Qed.

Lemma formatted_is_well_formed_witness :
  @wellFormed xmlParser (formatXmlPreserveInline commentInText 3).
Proof.
  apply (formatted_is_well_formed commentInText 3); vm_compute; reflexivity.
Defined.

Lemma formatting_keeps_the_elements_witness :
  elementList (documentElement
                 (@parseFromString xmlParser
                    (formatXmlPreserveInline commentInText 3)))
  = elementList (documentElement (@parseFromString xmlParser commentInText)).
Proof.
  apply (@formatting_keeps_the_elements xmlParser commentInText 3).
  - intros s root H _. unfold parseFromString, xmlParser. now rewrite H.
  - vm_compute. reflexivity.
  - vm_compute. reflexivity.
  - vm_compute. reflexivity.
Defined.

(* ================================================================= *)
(** * The preview and the application *)

Lemma renderBlocks_app (a b : list ProblemBlock) (k : nat) (s : bool) :
  renderBlocks (a ++ b) k s
  = renderBlocks a k s
    ++ renderBlocks b (List.length (filter isQuestionBlock a) + k) s.
Proof.
  revert k. induction a as [|[q sol | c] a IH]; intros k;
    cbn [app renderBlocks filter isQuestionBlock List.length]; [reflexivity| |].
  - rewrite IH. now rewrite Nat.add_succ_r.
  - now rewrite IH.
Qed.

Lemma renderBlocks_length (a : list ProblemBlock) (k : nat) (s : bool) :
  List.length (renderBlocks a k s) = List.length a.
Proof.
  revert k. induction a as [|[q sol | c] a IH]; intros k;
    cbn [renderBlocks List.length]; [reflexivity| |]; now rewrite IH.
Qed.

Lemma renderBlocks_numbers (a : list ProblemBlock) (k : nat) (s : bool) :
  flat_map (fun b => optionToList (previewNumber b)) (renderBlocks a k s)
  = seq (S k) (List.length (filter isQuestionBlock a)).
Proof.
  revert k. induction a as [|[q sol | c] a IH]; intros k;
    cbn [renderBlocks flat_map filter isQuestionBlock List.length seq
         previewNumber optionToList app]; [reflexivity| |]; now rewrite IH.
Qed.

Lemma renderBlocks_shown (a : list ProblemBlock) (k : nat) (s : bool) :
  map shownBlock (renderBlocks a k s) = a.
Proof.
  revert k. induction a as [|[q sol | c] a IH]; intros k;
    cbn [renderBlocks map shownBlock]; [reflexivity| |]; now rewrite IH.
Qed.

(** The findings of the validator under the number of a question block
    are the findings of that block. *)
Lemma findings_about_block (parsed : ParsedProblem)
  (pre post : list ProblemBlock) (q : Question) (solution : option Solution) :
  blocks parsed = pre ++ QuestionBlock q solution :: post ->
  filter (about_question (S (List.length (filter isQuestionBlock pre))))
    (validateProblem parsed)
  = validateQuestion (S (List.length (filter isQuestionBlock pre))) q solution.
Proof.
  intros Hb. fold (countBlocks pre).
  unfold validateProblem. rewrite Hb, validateBlocks_split.
  rewrite !filter_app.
  rewrite (about_other_question (S (countBlocks pre)) 0 pre)
    by (right; lia).
  rewrite (about_other_question (S (countBlocks pre)) _ post)
    by (left; cbn [plus]; lia).
  rewrite app_nil_r. cbn [app plus]. apply filter_all.
  eapply Forall_impl; [|apply validateQuestion_index].
  intros f Hf. unfold about_question. rewrite Hf. apply Nat.eqb_refl.
Qed.

(** X19.  The preview shows the blocks of the document in their order,
    each content block as it is and each question block under a number;
    and the number of a question block is the one under which
    [validateProblem] reports its findings about this block: one more
    than the number of question blocks before it.  Content blocks do not
    count. *)
Theorem preview_number_is_validator_index (problem : ParsedProblem)
  (showSolutions : bool) (pre post : list ProblemBlock) (q : Question)
  (solution : option Solution) :
  blocks problem = pre ++ QuestionBlock q solution :: post ->
  let N := S (List.length (filter isQuestionBlock pre)) in
  map shownBlock (ProblemPreview problem showSolutions) = blocks problem
  /\ nth_error (ProblemPreview problem showSolutions) (List.length pre)
     = Some (QuestionBlockPreview q solution N showSolutions)
  /\ filter (about_question N) (validateProblem problem)
     = validateQuestion N q solution
  /\ Forall (fun f => questionIndex f = Some N)
       (validateQuestion N q solution).
Proof.
  intros Hb N. split; [apply renderBlocks_shown|]. split; [|split].
  - unfold ProblemPreview. rewrite Hb, renderBlocks_app.
    rewrite nth_error_app2; rewrite renderBlocks_length; [|apply Nat.le_refl].
    rewrite Nat.sub_diag. cbn [renderBlocks nth_error].
    now rewrite Nat.add_0_r.
  - now apply (findings_about_block problem pre post).
  - apply validateQuestion_index.
Qed.

Lemma preview_number_is_validator_index_witness :
  map shownBlock (ProblemPreview sampleParsed true) = blocks sampleParsed
  /\ nth_error (ProblemPreview sampleParsed true)
       (List.length [HtmlBlock (lit "x")])
     = Some (QuestionBlockPreview (StringQuestion (lit "Q") (lit "a")) None
               1 true)
  /\ filter (about_question 1) (validateProblem sampleParsed)
     = validateQuestion 1 (StringQuestion (lit "Q") (lit "a")) None
  /\ Forall (fun f => questionIndex f = Some 1)
       (validateQuestion 1 (StringQuestion (lit "Q") (lit "a")) None).
Proof.
  apply (preview_number_is_validator_index sampleParsed true
           [HtmlBlock (lit "x")] (skipn 2 (blocks sampleParsed))).
  vm_compute. reflexivity.
Defined.

(** X20.  The numbers under which the preview shows the questions are
    1, 2, ... up to [countQuestions], in this order. *)
Theorem preview_numbers_count_up (problem : ParsedProblem)
  (showSolutions : bool) :
  flat_map (fun b => optionToList (previewNumber b))
    (ProblemPreview problem showSolutions)
  = seq 1 (countQuestions problem).
Proof. apply renderBlocks_numbers. Qed.

Lemma replaceSpaceRuns_no_space (s : str) (inRun : bool) :
  forallb (fun c => negb (is_js_space c)) (replaceSpaceRuns s inRun) = true.
Proof.
  revert inRun. induction s as [|c s IH]; intros inRun; [reflexivity|].
  cbn [replaceSpaceRuns]. destruct (is_js_space c) eqn:Ec.
  - destruct inRun; [apply IH|]. cbn [forallb]. now rewrite IH.
  - cbn [forallb]. now rewrite Ec, IH.
Qed.

Lemma downloadName_no_space (parsed : option ParsedProblem) :
  forallb (fun c => negb (is_js_space c)) (downloadName parsed) = true.
Proof.
  unfold downloadName.
  destruct parsed as [p|]; [|reflexivity].
  destruct (truthy (displayName (metadata p))); [|reflexivity].
  rewrite forallb_app, replaceSpaceRuns_no_space. reflexivity.
Qed.

Lemma displayName_truthy {parser : DOMParser} (xml : str)
  (p : ParsedProblem) :
  parseProblem xml = Ok p -> truthy (displayName (metadata p)) = true.
Proof.
  unfold parseProblem.
  destruct (doc_querySelector _ (ByTag (lit "parsererror"))); [discriminate|].
  destruct (doc_querySelector _ (ByTag (lit "problem"))) as [el|];
    [|discriminate].
  intros H. injection H as <-. unfold parseProblemEl.
  destruct (processChildren (children el) false [] []).
  cbn [metadata displayName parseMetadata]. unfold or_else.
  destruct (getAttribute el (lit "display_name")) as [[|c v]|]; reflexivity.
Qed.

(** X21.  The name under which a parsed problem is downloaded is made of
    its title, never the fallback [problem.xml], and holds no white
    space. *)
Theorem download_name_of_parsed {parser : DOMParser} (xml : str)
  (p : ParsedProblem) :
  parseProblem xml = Ok p ->
  downloadName (Some p)
  = replaceSpaceRuns (displayName (metadata p)) false ++ lit ".xml"
  /\ forallb (fun c => negb (is_js_space c)) (downloadName (Some p)) = true.
Proof.
  intros Hp. split; [|apply downloadName_no_space].
  unfold downloadName.
  now rewrite (displayName_truthy xml p Hp).
Qed.

Lemma download_name_of_parsed_witness :
  downloadName (Some sampleParsedXml)
  = replaceSpaceRuns (displayName (metadata sampleParsedXml)) false
    ++ lit ".xml"
  /\ forallb (fun c => negb (is_js_space c))
       (downloadName (Some sampleParsedXml)) = true.
Proof.
  apply (@download_name_of_parsed xmlParser sampleProblem sampleParsedXml).
  vm_compute. reflexivity.
Defined.

(** X22.  After the parse effect has run, the preview panel shows the
    error message if [parseProblem] threw, and otherwise the problem with
    the findings of the validator on it; the text "Enter valid problem
    XML" is never shown. *)
Theorem preview_panel_after_effect {parser : DOMParser} (xmlContent : str) :
  previewPanel (parseEffect xmlContent)
  = match parseProblem xmlContent with
    | Ok parsed => ProblemPanel parsed (validateProblem parsed)
    | Throw m => ParseErrorPanel m
    end
  /\ previewPanel (parseEffect xmlContent) <> NoContentPanel.
Proof.
  unfold parseEffect, previewPanel.
  destruct (parseProblem xmlContent) as [parsed|m] eqn:E;
    cbn [parseError parsedProblem validationErrors].
  - split; [reflexivity | discriminate].
  - rewrite (parseProblem_message xmlContent m E).
    split; [reflexivity | discriminate].
Qed.

(** X23.  A solution whose marked element has no paragraph below it, or
    only the header paragraph, has an empty explanation, whatever text the
    marked element holds, and the validator reports the explanation as
    missing. *)
Theorem solution_without_paragraphs (el marker : Node) :
  querySelector el (ByClass (lit "detailed-solution")) = Some marker ->
  (querySelectorAll marker (ByTag (lit "p")) = []
   \/ exists p, querySelectorAll marker (ByTag (lit "p")) = [p]
                /\ trim (textContent p) = lit "Explanation") ->
  explanation (parseSolution el) = []
  /\ htmlContent (parseSolution el) = innerHTML marker
  /\ lacksExplanation (Some (parseSolution el)) = true.
Proof.
  intros Hm Hp.
  assert (He : explanation (parseSolution el) = []).
  { unfold parseSolution. rewrite Hm. cbn [explanation].
    destruct Hp as [-> | (p & -> & Hp)]; [reflexivity|].
    cbn [forEachParagraph Nat.eqb andb]. rewrite Hp. reflexivity. }
  split; [exact He|]. split.
  - unfold parseSolution. now rewrite Hm.
  - unfold lacksExplanation. now rewrite He.
Qed.

Lemma solution_without_paragraphs_witness :
  explanation (parseSolution bareSolution) = []
  /\ htmlContent (parseSolution bareSolution)
     = innerHTML (hd bareSolution (children bareSolution))
  /\ lacksExplanation (Some (parseSolution bareSolution)) = true.
Proof.
  apply (solution_without_paragraphs bareSolution
           (hd bareSolution (children bareSolution))).
  - vm_compute. reflexivity.
  - left. vm_compute. reflexivity.
Defined.
